(** * SwipeShelf backend: the recommendation and search pipeline

    A shallow embedding of [src/utils/genreMatch.ts],
    [src/routes/recommendations.ts] and [src/routes/search.ts], with the
    properties the specification states about them.

    Conventions of the embedding.
    - A JavaScript string is the list of its UTF-16 code units ([JS.jsstring]).
    - A JavaScript [Set] is the list of its elements in insertion order, a
      [Map] the list of its entries in insertion order.
    - A JavaScript number is a binary64 value, held as the rational it is
      ([Q]); sums, differences, products and quotients are rounded to 53
      significant bits, ties to even ([JS.round64]).
    - Built-ins of the runtime whose tables are not part of the repository
      (case mapping, collation, [parseInt], [Date]) are fields of
      [JS.Runtime], over which every definition is parametric. *)

From Stdlib Require Import String Ascii.
From Stdlib Require Import List Bool Arith NArith ZArith QArith Qround Qabs.
From Stdlib Require Import Qpower Lia.
From Stdlib Require Import DecimalString Lqa.
From Stdlib Require Uint63 PrimFloat FloatOps SpecFloat.
From Stdlib Require Import Permutation Sorted.
Import ListNotations.

Set Implicit Arguments.

(* ================================================================== *)
(** * The JavaScript runtime *)
(* ================================================================== *)

Module JS.

(** ** Strings *)

Definition codeUnit := N.
Definition jsstring := list codeUnit.

(** A literal of the source, written as a Rocq string. *)
Definition str (s : string) : jsstring :=
  map N_of_ascii (list_ascii_of_string s).

Fixpoint streqb (a b : jsstring) : bool :=
  match a, b with
  | [], [] => true
  | x :: a', y :: b' => N.eqb x y && streqb a' b'
  | _, _ => false
  end.

(** [String(n)] for an integer [n]. *)
Definition numberToString (n : Z) : jsstring :=
  str (NilZero.string_of_int (Z.to_int n)).

(** Truthiness of a string: [Boolean(s)], [!!s]. *)
Definition truthy (s : jsstring) : bool :=
  match s with [] => false | _ :: _ => true end.

(** [[a-z0-9]] *)
Definition isAlnum (c : codeUnit) : bool :=
  ((97 <=? c) && (c <=? 122) || (48 <=? c) && (c <=? 57))%N.

(** [\w], without the [u] flag: [[A-Za-z0-9_]] *)
Definition isWordChar (c : codeUnit) : bool :=
  (isAlnum c || (65 <=? c) && (c <=? 90) || (c =? 95))%N.

(** [\s], and the characters [trim] strips: WhiteSpace and LineTerminator
    of ECMA-262 (TAB, LF, VT, FF, CR, SP, NBSP, U+1680, U+2000..U+200A,
    U+2028, U+2029, U+202F, U+205F, U+3000, U+FEFF). *)
Definition isSpace (c : codeUnit) : bool :=
  ((9 <=? c) && (c <=? 13) || (c =? 32) || (c =? 160) || (c =? 5760)
   || (8192 <=? c) && (c <=? 8202) || (c =? 8232) || (c =? 8233)
   || (c =? 8239) || (c =? 8287) || (c =? 12288) || (c =? 65279))%N.

Definition SPACE : codeUnit := 32%N.

Fixpoint dropWhile {A} (p : A -> bool) (l : list A) : list A :=
  match l with
  | [] => []
  | x :: l' => if p x then dropWhile p l' else l
  end.

Definition trimStart (s : jsstring) : jsstring := dropWhile isSpace s.
Definition trimEnd (s : jsstring) : jsstring := rev (dropWhile isSpace (rev s)).

(** [s.trim()] *)
Definition trim (s : jsstring) : jsstring := trimEnd (trimStart s).

(** [s.split(/\s+/)]: the pieces between the maximal runs of white space.
    A run at the start or at the end leaves an empty piece there, and the
    empty string gives one empty piece.  [cur] is the piece being read,
    reversed; [inSep] tells that the previous character was white space. *)
Fixpoint splitWs_from (inSep : bool) (cur : jsstring) (s : jsstring)
  : list jsstring :=
  match s with
  | [] => [rev cur]
  | c :: s' =>
      if isSpace c
      then if inSep then splitWs_from true [] s'
           else rev cur :: splitWs_from true [] s'
      else splitWs_from false (c :: cur) s'
  end.

Definition splitWs (s : jsstring) : list jsstring := splitWs_from false [] s.

(** [parts.join(sep)] *)
Fixpoint join (sep : jsstring) (parts : list jsstring) : jsstring :=
  match parts with
  | [] => []
  | [p] => p
  | p :: rest => p ++ sep ++ join sep rest
  end.

(** [s.includes(w)] *)
Fixpoint startsWith (w s : jsstring) : bool :=
  match w, s with
  | [], _ => true
  | x :: w', y :: s' => N.eqb x y && startsWith w' s'
  | _ :: _, [] => false
  end.

Fixpoint includes (w s : jsstring) : bool :=
  startsWith w s || match s with [] => false | _ :: s' => includes w s' end.

(** ** Built-ins taken as parameters *)

Record Runtime := {
  (** the case table behind [toLowerCase], one code unit at a time (what
      the built-in does beyond a table, the final sigma and the letters
      written as surrogate pairs, yields no character of [[a-z0-9]] and
      touches no separator) *)
  lowerCaseUnit : codeUnit -> jsstring;
  (** [a.localeCompare(b)]: negative, zero or positive *)
  localeCompare : jsstring -> jsstring -> Z;
  (** [parseInt(s)]; [None] is [NaN] *)
  parseInt : jsstring -> option Z;
  (** the time value of [new Date(s)]; [None] is an invalid date *)
  dateOf : jsstring -> option Z
}.

Definition toLowerCase (rt : Runtime) (s : jsstring) : jsstring :=
  flat_map (lowerCaseUnit rt) s.

(** ** Equality as [Set] and [Map] use it *)

Class SameValueZero (A : Type) := sameValue : A -> A -> bool.

Class SameValueZeroSpec (A : Type) (E : SameValueZero A) :=
  sameValue_spec : forall x y : A, sameValue x y = true <-> x = y.

#[export] Instance SameValueZero_Z : SameValueZero Z := Z.eqb.
#[export] Instance SameValueZero_string : SameValueZero jsstring := streqb.

(** ** [Set]: the elements, in insertion order *)

Section Sets.
Context {A : Type} `{SameValueZero A}.

Definition Set_has (s : list A) (x : A) : bool := existsb (sameValue x) s.

Definition Set_add (s : list A) (x : A) : list A :=
  if Set_has s x then s else s ++ [x].

(** [new Set(l)] *)
Definition Set_of (l : list A) : list A := fold_left Set_add l [].

Definition Set_size (s : list A) : nat := length s.

Definition Set_delete (s : list A) (x : A) : list A :=
  filter (fun y => negb (sameValue x y)) s.
End Sets.

(** ** [Map]: the entries, in insertion order *)

Section Maps.
Context {K V : Type} `{SameValueZero K}.

Fixpoint Map_get (m : list (K * V)) (k : K) : option V :=
  match m with
  | [] => None
  | (k', v) :: m' => if sameValue k k' then Some v else Map_get m' k
  end.

Definition Map_has (m : list (K * V)) (k : K) : bool :=
  match Map_get m k with Some _ => true | None => false end.

(** [m.set(k, v)]: an existing key keeps its place. *)
Fixpoint Map_set (m : list (K * V)) (k : K) (v : V) : list (K * V) :=
  match m with
  | [] => [(k, v)]
  | (k', v') :: m' =>
      if sameValue k k' then (k', v) :: m' else (k', v') :: Map_set m' k v
  end.

Definition Map_values (m : list (K * V)) : list V := map snd m.
Definition Map_keys (m : list (K * V)) : list K := map fst m.
End Maps.

(** ** [Array.prototype.sort]

    The sort is stable (ECMAScript 2019), and with a consistent comparator
    it returns the one stable sorted arrangement of the array.  It is
    modelled by insertion from the right, which computes that arrangement:
    [x] goes before [y] unless [cmp x y > 0]. *)

Section Sort.
Context {A : Type}.
Variable cmp : A -> A -> Q.

Fixpoint insert (x : A) (l : list A) : list A :=
  match l with
  | [] => [x]
  | y :: l' => if Qle_bool (cmp x y) 0 then x :: l else y :: insert x l'
  end.

Fixpoint sort (l : list A) : list A :=
  match l with
  | [] => []
  | x :: l' => insert x (sort l')
  end.

(** The comparator does not put [x] after [y]. *)
Definition notAfter (x y : A) : Prop := cmp x y <= 0.
End Sort.

(** ** Numbers

    A number of the program is a binary64 value.  The finite ones are
    rationals, and the model holds them as such; an operation is the exact
    operation on rationals followed by rounding to the nearest value of 53
    significant bits, ties to the even one.  The exponent range is not
    modelled: the numbers of the routes are counts, weights and ratings, and
    sums, products and quotients of a few of them. *)

(** The integer nearest to [x], the even one of two. *)
Definition rne (x : Q) : Z :=
  let f := Qfloor x in
  match Qcompare (x - inject_Z f) (1 # 2) with
  | Lt => f
  | Gt => (f + 1)%Z
  | Eq => if Z.even f then f else (f + 1)%Z
  end.

(** The exponent of a positive [x]: [2 ^ e <= x < 2 ^ (e + 1)]. *)
Definition ilog2 (x : Q) : Z :=
  let e := (Z.log2 (Qnum x) - Z.log2 (Zpos (Qden x)))%Z in
  if Qle_bool (2 ^ e) x then e else (e - 1)%Z.

Definition round64 (x : Q) : Q :=
  let s := (52 - ilog2 (Qabs x))%Z in
  inject_Z (rne (x * 2 ^ s)) * 2 ^ (- s).

(** A decimal literal of the source denotes the nearest binary64 value. *)
Definition double (literal : Q) : Q := round64 literal.

(** [x + y], [x - y], [x * y] and [x / y] *)
Definition fadd (x y : Q) : Q := round64 (x + y).
Definition fsub (x y : Q) : Q := round64 (x - y).
Definition fmul (x y : Q) : Q := round64 (x * y).
Definition fdiv (x y : Q) : Q := round64 (x / y).

(** The same arithmetic as the processor does it, for comparison: a decimal
    constant as the correctly rounded quotient of two small integers, and
    the rational that a finite binary64 value is. *)
Definition binary64 (q : Q) : PrimFloat.float :=
  PrimFloat.div (PrimFloat.of_uint63 (Uint63.of_Z (Qnum q)))
                (PrimFloat.of_uint63 (Uint63.of_Z (Zpos (Qden q)))).

Definition rational (f : PrimFloat.float) : option Q :=
  match FloatOps.Prim2SF f with
  | SpecFloat.S754_zero _ => Some 0
  | SpecFloat.S754_finite sign m e =>
      Some ((if sign then -1 else 1) * inject_Z (Zpos m) * 2 ^ e)
  | _ => None
  end.

(** [a.slice(0, n)] *)
Definition slice0 {A} (n : nat) (l : list A) : list A := firstn n l.

End JS.

Import JS.

(* ================================================================== *)
(** * [src/utils/genreMatch.ts] *)
(* ================================================================== *)

Module GenreMatch.

Record GenreLite := { id : Z; name : jsstring }.

Section WithRuntime.
Variable rt : Runtime.

(** [.replace(/[^a-z0-9]+/g, " ")]: every maximal run of characters
    outside [[a-z0-9]] becomes one space.  [inRun] tells that the previous
    character belonged to such a run. *)
Fixpoint replaceNonAlnumRuns (inRun : bool) (s : jsstring) : jsstring :=
  match s with
  | [] => []
  | c :: s' =>
      if isAlnum c then c :: replaceNonAlnumRuns false s'
      else if inRun then replaceNonAlnumRuns true s'
           else SPACE :: replaceNonAlnumRuns true s'
  end.

Definition tokenizeWords (value : jsstring) : list jsstring :=
  filter (fun t => 3 <=? length t)
    (splitWs (trim (replaceNonAlnumRuns false (toLowerCase rt value)))).

(** The separators of [/[/,&]|\band\b/i]. *)
Definition isSepChar (c : codeUnit) : bool :=
  ((c =? 47) || (c =? 44) || (c =? 38))%N.

Definition isLetter (lower : N) (c : codeUnit) : bool :=
  ((c =? lower) || (c =? lower - 32))%N.

(** [\band\b] matches at the head of [s], [prev] being the character
    before it: no word character before, [and] in either case, no word
    character after. *)
Definition andAt (prev : option codeUnit) (s : jsstring) : bool :=
  match prev with Some p => negb (isWordChar p) | None => true end
  && match s with
     | a :: n :: d :: rest =>
         isLetter 97 a && isLetter 110 n && isLetter 100 d
         && match rest with [] => true | x :: _ => negb (isWordChar x) end
     | _ => false
     end.

(** [genreName.split(/[/,&]|\band\b/i)].  [skip] counts the characters of
    a matched [and] still to be passed over, [prev] is the character before
    the head of [s], [cur] the piece being read, reversed. *)
Fixpoint splitSeparators (skip : nat) (prev : option codeUnit)
  (cur : jsstring) (s : jsstring) : list jsstring :=
  match s with
  | [] => [rev cur]
  | c :: s' =>
      match skip with
      | S k => splitSeparators k (Some c) cur s'
      | O =>
          if isSepChar c then rev cur :: splitSeparators 0 (Some c) [] s'
          else if andAt prev s then rev cur :: splitSeparators 2 (Some c) [] s'
          else splitSeparators 0 (Some c) (c :: cur) s'
      end
  end.

Definition splitGenreParts (genreName : jsstring) : list jsstring :=
  filter truthy (map trim (splitSeparators 0 None [] genreName)).

Definition isTokenSubset (a b : list jsstring) : bool :=
  forallb (Set_has b) a.

Definition tokenSet (value : jsstring) : list jsstring :=
  Set_of (tokenizeWords value).

Definition nonEmptySet (s : list jsstring) : bool := (0 <? Set_size s)%nat.

Definition categoryTokenSets (categories : list jsstring)
  : list (list jsstring) :=
  filter nonEmptySet (map tokenSet categories).

Definition partTokenSets (genreName : jsstring) : list (list jsstring) :=
  filter nonEmptySet (map tokenSet (splitGenreParts genreName)).

(** Whether the inner loop over the category token sets reaches
    [matchedById.set]. *)
Definition matchesSomeCategory (cats : list (list jsstring)) (g : GenreLite)
  : bool :=
  existsb (fun catTokens =>
             existsb (fun genrePartTokens =>
                        isTokenSubset genrePartTokens catTokens)
                     (partTokenSets (name g)))
          cats.

(** The two maps the first loop fills. *)
Record Matching := {
  matchedById : list (Z * GenreLite);
  genreTokensById : list (Z * list jsstring)
}.

(** One turn of [for (const g of genres)]. *)
Definition matchGenre (cats : list (list jsstring)) (st : Matching)
  (g : GenreLite) : Matching :=
  let fullTokens := tokenSet (name g) in
  if (Set_size fullTokens =? 0)%nat then st
  else
    let tokens' := Map_set (genreTokensById st) (id g) fullTokens in
    if matchesSomeCategory cats g
    then {| matchedById := Map_set (matchedById st) (id g) g;
            genreTokensById := tokens' |}
    else {| matchedById := matchedById st; genreTokensById := tokens' |}.

Definition matchAll (categories : list jsstring) (genres : list GenreLite)
  : Matching :=
  fold_left (matchGenre (categoryTokenSets categories)) genres
    {| matchedById := []; genreTokensById := [] |}.

(** Whether the inner loop over [b] reaches [prunedIds.delete(a)]. *)
Definition moreSpecificExists (tokensById : list (Z * list jsstring))
  (matchedIds : list Z) (a : Z) : bool :=
  match Map_get tokensById a with
  | None => false
  | Some aTokens =>
      existsb (fun b =>
                 negb (Z.eqb a b)
                 && match Map_get tokensById b with
                    | None => false
                    | Some bTokens =>
                        negb (Set_size bTokens <=? Set_size aTokens)%nat
                        && isTokenSubset aTokens bTokens
                    end)
              matchedIds
  end.

Definition prune (tokensById : list (Z * list jsstring)) (matchedIds : list Z)
  : list Z :=
  fold_left (fun prunedIds a =>
               if moreSpecificExists tokensById matchedIds a
               then Set_delete prunedIds a else prunedIds)
            matchedIds (Set_of matchedIds).

(** The genres matched before pruning: [Array.from(matchedById.values())],
    behind the guard of the first line. *)
Definition rawMatched (categories : list jsstring) (genres : list GenreLite)
  : list GenreLite :=
  match categories, genres with
  | [], _ | _, [] => []
  | _, _ => Map_values (matchedById (matchAll categories genres))
  end.

Definition matchGenresFromCategories (categories : list jsstring)
  (genres : list GenreLite) : list GenreLite :=
  match categories, genres with
  | [], _ | _, [] => []
  | _, _ =>
      let st := matchAll categories genres in
      let matched := Map_values (matchedById st) in
      let matchedIds := map id matched in
      let prunedIds := prune (genreTokensById st) matchedIds in
      filter (fun g => Set_has prunedIds (id g)) matched
  end.

(** What the first loop does with one genre, read off [matchGenre]: a genre
    without tokens is passed over, the others are recorded in
    [genreTokensById], and those that match a category in [matchedById]. *)
Definition hasTokens (g : GenreLite) : bool := nonEmptySet (tokenSet (name g)).

Definition isMatched (cats : list (list jsstring)) (g : GenreLite) : bool :=
  hasTokens g && matchesSomeCategory cats g.

(** The entries the loop files for a genre, and what it means for a map to
    file every genre under its id. *)
Definition idEntry (g : GenreLite) : Z * GenreLite := (id g, g).

Definition tokenEntry (g : GenreLite) : Z * list jsstring :=
  (id g, tokenSet (name g)).

Definition filedById (m : list (Z * GenreLite)) : Prop :=
  forall k g, In (k, g) m -> k = id g.

(** [a] is strictly more general than [b]: its full token set is smaller
    than that of [b] and contained in it. *)
Definition moreGeneral (a b : GenreLite) : Prop :=
  (Set_size (tokenSet (name a)) < Set_size (tokenSet (name b)))%nat
  /\ incl (tokenSet (name a)) (tokenSet (name b)).

End WithRuntime.
End GenreMatch.

(* ================================================================== *)
(** * The outside world: database, upstream services, errors

    The route handlers are [async] functions that call the database
    (Prisma), the Google Books API and the Open Library API, and that may
    throw.  They are embedded in a state-and-exception monad over an
    abstract world [W]: every call is answered by the world, which may
    throw instead, and is recorded in a trace.  Calls are performed in
    program order; the interleaving inside [Promise.all] is not modelled. *)
(* ================================================================== *)

Module Effects.
Import GenreMatch.

(** What a [catch] clause reads of a thrown value: [err.response?.status]
    and [err.message]. *)
Record Error := {
  responseStatus : option Z;
  message : jsstring
}.

Inductive Result (A : Type) : Type :=
| Ok (a : A)
| Throw (e : Error).
Arguments Ok {A} a.
Arguments Throw {A} e.

(** An item of [res.data.items] of the Google Books API. *)
Record IndustryIdentifier := { type_ : jsstring; identifier : jsstring }.

Record VolumeInfo := {
  vi_title : option jsstring;
  vi_authors : option (list jsstring);
  vi_publishedDate : option jsstring;
  vi_description : option jsstring;
  vi_averageRating : option Q;
  vi_categories : option (list jsstring);
  vi_industryIdentifiers : option (list IndustryIdentifier)
}.

Record Item := { item_id : jsstring; volumeInfo : option VolumeInfo }.

(** A document of [res.data.docs] of Open Library. *)
Record Doc := { cover_i : option Z }.

(** Rows as the Prisma queries of the handlers select them. *)
Record UserGenre := { genreId : Z; genre : GenreLite }.

Record ShelfBook := {
  sb_id : Z;
  sb_googleBooksId : jsstring;        (* [shelfBook.book.googleBooksId] *)
  sb_title : jsstring;
  sb_coverURL : jsstring;
  sb_description : jsstring;
  sb_status : option jsstring
}.

Record UserBook := { ub_book : option jsstring }. (* [ub.book?.googleBooksId] *)

(** A [Book] row with its [BookGenre] rows: [genreId] and [genre.name]. *)
Record BookGenres := {
  bg_id : Z;
  bg_googleBooksId : jsstring;
  bg_genres : list (Z * jsstring)
}.

Record BookRow := { book_id : Z }.

(** The calls a handler makes to its collaborators. *)
Inductive Call : Type :=
| UserGenreFindMany (userId : Z)
| ShelfFindFirst (userId : Z) (shelfName : jsstring)
| UserBookFindMany (userId : Z)
| GenreFindMany
| BookFindMany (googleBooksIds : list jsstring)
| BookFindUnique (googleBooksId : jsstring)
| UserBookFindUnique (userId : Z) (bookId : Z)
| BookUpsert (googleBooksId : jsstring)
| BookGenreCreateMany (data : list (Z * Z))
| GoogleVolumes (q : jsstring) (maxResults : Z)
| GoogleVolume (googleBooksId : jsstring)
| OpenLibrarySearch (title : option jsstring) (author : jsstring).

Definition Answer (c : Call) : Type :=
  match c with
  | UserGenreFindMany _ => list UserGenre
  | ShelfFindFirst _ _ => option (list ShelfBook)
  | UserBookFindMany _ => list UserBook
  | GenreFindMany => list GenreLite
  | BookFindMany _ => list BookGenres
  | BookFindUnique _ => option BookRow
  | UserBookFindUnique _ _ => option unit
  | BookUpsert _ => BookRow
  | BookGenreCreateMany _ => unit
  | GoogleVolumes _ _ => option (list Item)          (* [res.data.items] *)
  | GoogleVolume _ => option (list jsstring)         (* [volumeInfo.categories] *)
  | OpenLibrarySearch _ _ => option (list Doc)       (* [res.data.docs] *)
  end.

Definition isUpstreamFetch (c : Call) : bool :=
  match c with
  | GoogleVolumes _ _ | GoogleVolume _ | OpenLibrarySearch _ _ => true
  | _ => false
  end.

Definition isPersistenceWrite (c : Call) : bool :=
  match c with
  | BookUpsert _ | BookGenreCreateMany _ => true
  | _ => false
  end.

(** What a run leaves behind: the calls, and the start of the scoring
    phase (the [console.log] that announces it). *)
Inductive Event : Type :=
| Called (c : Call)
| Scoring (candidates : nat).

Section Monad.
Variable W : Type.

(** The world answers a call, or throws, and moves on. *)
Record Services := {
  respond : forall c : Call, W -> Result (Answer c) * W;
  mathRandom : W -> Q * W
}.

Record State := { world : W; trace : list Event }.

Definition M (A : Type) : Type := State -> Result A * State.

Definition ret {A} (a : A) : M A := fun st => (Ok a, st).

Definition bind {A B} (m : M A) (k : A -> M B) : M B :=
  fun st =>
    match m st with
    | (Ok a, st') => k a st'
    | (Throw e, st') => (Throw e, st')
    end.

Definition throw {A} (e : Error) : M A := fun st => (Throw e, st).

(** [try { m } catch (err) { h err }] *)
Definition tryCatch {A} (m : M A) (h : Error -> M A) : M A :=
  fun st =>
    match m st with
    | (Ok a, st') => (Ok a, st')
    | (Throw e, st') => h e st'
    end.

Definition emit (ev : Event) : M unit :=
  fun st => (Ok tt, {| world := world st; trace := trace st ++ [ev] |}).

Variable sv : Services.

Definition perform (c : Call) : M (Answer c) :=
  fun st =>
    let (r, w') := respond sv c (world st) in
    (r, {| world := w'; trace := trace st ++ [Called c] |}).

Definition random : M Q :=
  fun st =>
    let (x, w') := mathRandom sv (world st) in
    (Ok x, {| world := w'; trace := trace st |}).

(** [await Promise.all(l.map(f))], and [for (const x of l) await f(x)]. *)
Fixpoint mapM {A B} (step : A -> M B) (xs : list A) {struct xs}
  : M (list B) :=
  match xs with
  | [] => ret []
  | x :: rest =>
      bind (step x)
        (fun y => bind (mapM step rest) (fun ys => ret (y :: ys)))
  end.

Fixpoint foldM {A B} (f : B -> A -> M B) (l : list A) (b : B) : M B :=
  match l with
  | [] => ret b
  | x :: l' => bind (f b x) (foldM f l')
  end.

(** A computation that never throws. *)
Definition total {A} (m : M A) : Prop :=
  forall st, exists a st', m st = (Ok a, st').

(** The run of [mapM], element by element. *)
Inductive Runs {A B} (f : A -> M B)
  : list A -> State -> list B -> State -> Prop :=
| Runs_nil st : Runs f [] st [] st
| Runs_cons x l y ys st st1 st2 :
    f x st = (Ok y, st1) -> Runs f l st1 ys st2 ->
    Runs f (x :: l) st (y :: ys) st2.

End Monad.

Arguments total {W A} m.
Arguments Runs {W A B} f _ _ _ _.
Arguments ret {W A} a.
Arguments bind {W A B} m k.
Arguments throw {W A} e.
Arguments tryCatch {W A} m h.
Arguments emit {W} ev.
Arguments perform {W} sv c.
Arguments random {W} sv.
Arguments mapM {W A B} step xs.
Arguments foldM {W A B} f l b.

(** The response of a handler: [res.status(n).json(body)]. *)
Inductive Body (Book : Type) : Type :=
| JsonMessage (message : jsstring)
| JsonError (error : jsstring) (details : option jsstring)
| JsonBooks (books : list Book).
Arguments JsonMessage {Book} message.
Arguments JsonError {Book} error details.
Arguments JsonBooks {Book} books.

Record Response (Book : Type) := { status : Z; body : Body Book }.

End Effects.

Declare Scope monad_scope.
Notation "x <- m ;; k" := (Effects.bind m (fun x => k))
  (at level 61, m at next level, right associativity) : monad_scope.
Notation "m ;;; k" := (Effects.bind m (fun _ => k))
  (at level 61, right associativity) : monad_scope.

(* ================================================================== *)
(** * [src/routes/recommendations.ts]: the ranked pipeline *)
(* ================================================================== *)

Module Recommendations.
Import GenreMatch Effects.
Local Open Scope monad_scope.

Record CandidateBook := {
  title : jsstring;
  authors : jsstring;
  publishedDate : option (option Z);     (* [null], or a number, [NaN] included *)
  isbn : option jsstring;
  coverUrl : jsstring;
  googleBooksId : jsstring;
  description : jsstring;
  averageRating : Q;
  categories : list jsstring;
  sourceGenreIds : list Z;
  sourceGenreNames : list jsstring
}.

Record Weights := { w_genre : Q; w_finished : Q; w_toRead : Q }.

Record ScoredCandidate := {
  candidate : CandidateBook;
  score : Q;
  genreIds : list Z;
  genreScore : Q;
  genreOverlapRatio : Q;
  finishedScore : Q;
  toReadScore : Q;
  weights : Weights
}.

Record ShelfBookLite := {
  sl_googleBooksId : jsstring;
  sl_title : jsstring;
  sl_description : jsstring
}.

Record SimilarityDetail := { sd_score : Q; matchedIndex : Z }.

(** [words.slice(0, wordLimit).join(" ") + " ..."] past [wordLimit] words. *)
Definition truncateDescription (text : jsstring) (wordLimit : nat) : jsstring :=
  let words := splitWs text in
  if (length words <=? wordLimit)%nat then text
  else join (str " ") (slice0 wordLimit words) ++ str " ...".

(** [.replace(/[^a-z0-9\s]/g, " ")] *)
Definition replaceOther (s : jsstring) : jsstring :=
  map (fun c => if isAlnum c || isSpace c then c else SPACE) s.

(** [.replace(/\s+/g, " ")] *)
Fixpoint collapseSpaces (inRun : bool) (s : jsstring) : jsstring :=
  match s with
  | [] => []
  | c :: s' =>
      if isSpace c
      then if inRun then collapseSpaces true s'
           else SPACE :: collapseSpaces true s'
      else c :: collapseSpaces false s'
  end.

(** [s.split(",")[0]] *)
Fixpoint beforeComma (s : jsstring) : jsstring :=
  match s with
  | [] => []
  | c :: s' => if (c =? 44)%N then [] else c :: beforeComma s'
  end.

Definition jaccardSimilarity (a b : list jsstring) : Q :=
  if (Set_size a =? 0)%nat || (Set_size b =? 0)%nat then 0
  else
    let intersection := length (filter (Set_has b) a) in
    let union := (Set_size a + Set_size b - intersection)%nat in
    if (union =? 0)%nat then 0
    else fdiv (inject_Z (Z.of_nat intersection)) (inject_Z (Z.of_nat union)).

(** [parts.filter(Boolean).join(" ")] over title, authors, description and
    the joined categories, each [""] when absent. *)
Definition bookToText (title authors description : option jsstring)
  (categories : option (list jsstring)) : jsstring :=
  let orEmpty (o : option jsstring) := match o with Some x => x | None => [] end in
  let parts := [orEmpty title; orEmpty authors; orEmpty description;
                join (str " ") (match categories with Some l => l | None => [] end)] in
  join (str " ") (filter truthy parts).

Definition shelfText (b : ShelfBookLite) : jsstring :=
  bookToText (Some (sl_title b)) None (Some (sl_description b)) None.

Definition candidateText (c : CandidateBook) : jsstring :=
  bookToText (Some (title c)) (Some (authors c)) (Some (description c))
    (Some (categories c)).

(** The loop of [maxSimilarityToShelfDetailed], from index [i] on. *)
Fixpoint maxSimilarityFrom (candidateTokens : list jsstring)
  (shelfTokenSets : list (list jsstring)) (i : Z) (best : Q) (matched : Z)
  : SimilarityDetail :=
  match shelfTokenSets with
  | [] => {| sd_score := best; matchedIndex := matched |}
  | s :: rest =>
      let sim := jaccardSimilarity candidateTokens s in
      if Qle_bool sim best
      then maxSimilarityFrom candidateTokens rest (i + 1) best matched
      else maxSimilarityFrom candidateTokens rest (i + 1) sim i
  end.

Definition maxSimilarityToShelfDetailed (candidateTokens : list jsstring)
  (shelfTokenSets : list (list jsstring)) : SimilarityDetail :=
  maxSimilarityFrom candidateTokens shelfTokenSets 0 0 (-1).

Definition countIntersection (a b : list Z) : nat :=
  length (filter (Set_has b) a).

(** [addSourceGenre] updates the candidate in place; here it returns the
    updated record. *)
Definition addSourceGenre (c : CandidateBook) (genreId : Z)
  (genreName : jsstring) : CandidateBook :=
  if (genreId =? 0)%Z then c
  else
    let ids := Set_add (Set_of (sourceGenreIds c)) genreId in
    let names0 := Set_of (sourceGenreNames c) in
    let names := if truthy genreName then Set_add names0 genreName else names0 in
    {| title := title c; authors := authors c;
       publishedDate := publishedDate c; isbn := isbn c;
       coverUrl := coverUrl c; googleBooksId := googleBooksId c;
       description := description c; averageRating := averageRating c;
       categories := categories c;
       sourceGenreIds := ids; sourceGenreNames := names |}.

(** [{ ...c, sourceGenreIds: ids, sourceGenreNames: names }] *)
Definition withSourceGenres (c : CandidateBook) (ids : list Z)
  (names : list jsstring) : CandidateBook :=
  {| title := title c; authors := authors c;
     publishedDate := publishedDate c; isbn := isbn c;
     coverUrl := coverUrl c; googleBooksId := googleBooksId c;
     description := description c; averageRating := averageRating c;
     categories := categories c;
     sourceGenreIds := ids; sourceGenreNames := names |}.

(** The descriptive fields of a record: all but its source genres. *)
Definition descriptive (c : CandidateBook) : CandidateBook :=
  withSourceGenres c [] [].

(** Two records tie when neither rating nor description length tells them
    apart. *)
Definition tie (x y : CandidateBook) : Prop :=
  averageRating x == averageRating y
  /\ length (description x) = length (description y).

Section WithRuntime.
Variable rt : Runtime.

Definition tokenize (text : jsstring) : list jsstring :=
  Set_of
    (filter (fun t => 3 <=? length t)%nat
       (map trim (splitWs (replaceOther (toLowerCase rt text))))).

Definition normalizeKeyPart (value : jsstring) : jsstring :=
  collapseSpaces false (trim (toLowerCase rt value)).

Definition normalizedCandidateKey (book : CandidateBook) : jsstring :=
  let title := normalizeKeyPart (title book) in
  let author := normalizeKeyPart (beforeComma (authors book)) in
  if truthy title && truthy author then title ++ str "|" ++ author
  else if truthy title then title ++ str "|unknown-author"
  else str "id|" ++ googleBooksId book.

(** The tokenizer and the part splitter of this file are the ones of
    [utils/genreMatch.ts], character for character. *)
Definition tokenizeWords := GenreMatch.tokenizeWords rt.
Definition splitGenreParts := GenreMatch.splitGenreParts.
Definition isTokenSubset := GenreMatch.isTokenSubset.

Definition deriveGenreIdsFromCategories (categories : option (list jsstring))
  (allGenres : list GenreLite) : list Z :=
  match categories with
  | None | Some [] => []
  | Some categories =>
      let categoryTokenSets :=
        filter nonEmptySet (map (fun c => Set_of (tokenizeWords c)) categories) in
      let matched :=
        flat_map
          (fun genre =>
             let fullTokens := Set_of (tokenizeWords (name genre)) in
             if (Set_size fullTokens =? 0)%nat then []
             else
               let partTokenSets :=
                 filter nonEmptySet
                   (map (fun p => Set_of (tokenizeWords p))
                        (splitGenreParts (name genre))) in
               let matchedAnyCategory :=
                 existsb (fun catTokens =>
                            existsb (fun genrePartTokens =>
                                       isTokenSubset genrePartTokens catTokens)
                                    partTokenSets)
                         categoryTokenSets in
               if matchedAnyCategory then [(id genre, fullTokens)] else [])
          allGenres in
      let matchedIds := map fst matched in
      let tokensById :=
        fold_left (fun m e => Map_set m (fst e) (snd e)) matched [] in
      let prunedIds := prune tokensById matchedIds in
      fold_left Set_add prunedIds []
  end.

(** ** Merge on collision (the body of the loop over [rawBooks]) *)

Definition shouldReplace (existing incoming : CandidateBook) : bool :=
  let existingRating := averageRating existing in
  let incomingRating := averageRating incoming in
  let existingDescLen := length (description existing) in
  let incomingDescLen := length (description incoming) in
  negb (Qle_bool incomingRating existingRating)
  || Qeq_bool incomingRating existingRating
     && (existingDescLen <? incomingDescLen)%nat.

(** The record the loop builds from a raw book of the query for [ug]. *)
Definition candidateOf (ug : UserGenre) (book : CandidateBook) : CandidateBook :=
  addSourceGenre (withSourceGenres book [] [])
    (id (genre ug)) (name (genre ug)).

(** "Preserve merged source genres when replacing." *)
Definition mergedWith (existing candidate : CandidateBook) : CandidateBook :=
  withSourceGenres candidate
    (fold_left Set_add (sourceGenreIds candidate)
       (Set_of (sourceGenreIds existing)))
    (fold_left Set_add (sourceGenreNames candidate)
       (Set_of (sourceGenreNames existing))).

(** One raw book of the query made for the preferred genre [ug]. *)
Definition mergeCandidate (excludeGoogleIds : list jsstring) (ug : UserGenre)
  (candidateMap : list (jsstring * CandidateBook)) (book : CandidateBook)
  : list (jsstring * CandidateBook) :=
  if negb (truthy (googleBooksId book)) then candidateMap
  else if Set_has excludeGoogleIds (googleBooksId book) then candidateMap
  else
    let candidate := candidateOf ug book in
    let key := normalizedCandidateKey candidate in
    match Map_get candidateMap key with
    | None => Map_set candidateMap key candidate
    | Some existingCandidate0 =>
        let existingCandidate :=
          addSourceGenre existingCandidate0
            (id (genre ug)) (name (genre ug)) in
        let candidateMap' := Map_set candidateMap key existingCandidate in
        if shouldReplace existingCandidate candidate
        then Map_set candidateMap' key (mergedWith existingCandidate candidate)
        else candidateMap'
    end.

(** Two raw books with their genres, merged in this order. *)
Definition mergeTwo (excludeGoogleIds : list jsstring)
  (ugx : UserGenre) (x : CandidateBook) (ugy : UserGenre) (y : CandidateBook)
  (candidateMap : list (jsstring * CandidateBook))
  : list (jsstring * CandidateBook) :=
  mergeCandidate excludeGoogleIds ugy
    (mergeCandidate excludeGoogleIds ugx candidateMap x) y.

(** A raw book that the loop does not skip. *)
Definition accepted (excludeGoogleIds : list jsstring) (book : CandidateBook)
  : Prop :=
  truthy (googleBooksId book) = true
  /\ Set_has excludeGoogleIds (googleBooksId book) = false.

(** The record kept under the common key when [x], of the query for [ugx],
    is merged before [y], of the query for [ugy]. *)
Definition keptOf (ugx : UserGenre) (x : CandidateBook) (ugy : UserGenre)
  (y : CandidateBook) : CandidateBook :=
  let ex := addSourceGenre (candidateOf ugx x)
              (id (genre ugy)) (name (genre ugy)) in
  if shouldReplace x y then mergedWith ex (candidateOf ugy y) else ex.

(** The record already carries the genre, in well-formed sets. *)
Definition hasGenre (e : CandidateBook) (genreId : Z) (genreName : jsstring)
  : Prop :=
  genreId = 0%Z
  \/ (In genreId (sourceGenreIds e) /\ NoDup (sourceGenreIds e)
      /\ NoDup (sourceGenreNames e)
      /\ (truthy genreName = true -> In genreName (sourceGenreNames e))).

(** Merging [b] for [ug] into [m] would change nothing. *)
Definition absorbed (m : list (jsstring * CandidateBook)) (ug : UserGenre)
  (b : CandidateBook) : Prop :=
  exists e, Map_get m (normalizedCandidateKey b) = Some e
            /\ hasGenre e (id (genre ug)) (name (genre ug))
            /\ shouldReplace e b = false.

(** ** Scoring *)

(** [finishedLite.length > 0 ? {...} : {...}]: the decimals as the source
    writes them, and the numbers they denote. *)
Definition weightLiterals (finishedCount : nat) : Weights :=
  if (0 <? finishedCount)%nat
  then {| w_genre := 0.35; w_finished := 0.40; w_toRead := 0.25 |}
  else {| w_genre := 0.70; w_finished := 0.20; w_toRead := 0.10 |}.

Definition weightsFor (finishedCount : nat) : Weights :=
  let literals := weightLiterals finishedCount in
  {| w_genre := double (w_genre literals);
     w_finished := double (w_finished literals);
     w_toRead := double (w_toRead literals) |}.

(** What the scoring closure reads from the handler. *)
Record ScoringContext := {
  preferredGenreIds : list Z;
  existingGenreIdsByGoogleId : list (jsstring * list Z);
  allGenres : list GenreLite;
  finishedTokenSets : list (list jsstring);
  toReadTokenSets : list (list jsstring);
  weightsUsed : Weights
}.

Definition inferredGenreIds (ctx : ScoringContext) (c : CandidateBook)
  : list Z :=
  let sourceGenreIds := Set_of (sourceGenreIds c) in
  let categoryGenreIds :=
    deriveGenreIdsFromCategories (Some (categories c)) (allGenres ctx) in
  Set_of (sourceGenreIds ++ categoryGenreIds).

Definition dbGenreIdsOf (ctx : ScoringContext) (c : CandidateBook) : list Z :=
  match Map_get (existingGenreIdsByGoogleId ctx) (googleBooksId c) with
  | Some ids => ids
  | None => []
  end.

Definition effectiveGenreIds (ctx : ScoringContext) (c : CandidateBook)
  : list Z :=
  let dbGenreIds := dbGenreIdsOf ctx c in
  if (0 <? Set_size dbGenreIds)%nat then dbGenreIds
  else inferredGenreIds ctx c.

Definition scoreCandidate (ctx : ScoringContext) (c : CandidateBook)
  : ScoredCandidate :=
  let effectiveGenreIds := effectiveGenreIds ctx c in
  let totalGenres := Set_size effectiveGenreIds in
  let matchedGenres := countIntersection effectiveGenreIds (preferredGenreIds ctx) in
  let genreOverlapRatio :=
    if (0 <? totalGenres)%nat
    then fdiv (inject_Z (Z.of_nat matchedGenres))
              (inject_Z (Z.of_nat totalGenres))
    else 0 in
  let genreScore :=
    if (0 <? totalGenres)%nat
    then fadd (double 0.6) (fmul (double 0.4) genreOverlapRatio)
    else 0 in
  let candidateTokens := tokenize (candidateText c) in
  let finishedDetail :=
    maxSimilarityToShelfDetailed candidateTokens (finishedTokenSets ctx) in
  let toReadDetail :=
    maxSimilarityToShelfDetailed candidateTokens (toReadTokenSets ctx) in
  let finishedScore := sd_score finishedDetail in
  let toReadScore := sd_score toReadDetail in
  let weights := weightsUsed ctx in
  let score :=
    fadd (fadd (fmul (w_genre weights) genreScore)
               (fmul (w_finished weights) finishedScore))
         (fmul (w_toRead weights) toReadScore) in
  {| candidate := c; score := score; genreIds := effectiveGenreIds;
     genreScore := genreScore; genreOverlapRatio := genreOverlapRatio;
     finishedScore := finishedScore; toReadScore := toReadScore;
     weights := weights |}.

(** ** Selection: [scored.sort((a, b) => b.score - a.score)], then
    [scored.slice(0, 20)] *)

Definition byScoreDescending (a b : ScoredCandidate) : Q :=
  fsub (score b) (score a).

Definition rankTop (scored : list ScoredCandidate) : list ScoredCandidate :=
  slice0 20 (sort byScoreDescending scored).

(** ** The handlers *)

Section WithWorld.
Variable W : Type.
Variable sv : Services W.

Definition typeError : Error :=
  {| responseStatus := None;
     message := str "Cannot read properties of undefined" |}.

Definition isTruthyCover (d : Doc) : bool :=
  match cover_i d with
  | Some n => negb (n =? 0)%Z
  | None => false
  end.

(** Every error of the lookup, rate limiting included, ends in [null]. *)
Definition fetchOpenLibraryCover (title : option jsstring) (author : jsstring)
  : M W (option jsstring) :=
  tryCatch
    (docs <- perform sv (OpenLibrarySearch title author) ;;
     match docs with
     | None | Some [] => ret None
     | Some docs =>
         match find isTruthyCover docs with
         | Some bookWithCover =>
             ret (Some (str "https://covers.openlibrary.org/b/id/"
                        ++ numberToString
                             (match cover_i bookWithCover with
                              | Some n => n
                              | None => 0%Z
                              end)
                        ++ str "-L.jpg"))
         | None => ret None
         end
     end)
    (fun err => ret None).

(** [limit(() => fetchOpenLibraryCover(title, author))]: the limiter bounds
    how many lookups are in flight, not what they return. *)
Definition fetchCoverWithLimit := fetchOpenLibraryCover.

Definition firstAuthor (vi : VolumeInfo) : jsstring :=
  match vi_authors vi with
  | Some (a :: _) => if truthy a then a else []
  | _ => []
  end.

Definition orUnknown (s : jsstring) : jsstring :=
  if truthy s then s else str "Unknown".

Definition isbn13 (vi : VolumeInfo) : option jsstring :=
  match vi_industryIdentifiers vi with
  | None => None
  | Some ids =>
      match find (fun i => streqb (type_ i) (str "ISBN_13")) ids with
      | Some i => if truthy (identifier i) then Some (identifier i) else None
      | None => None
      end
  end.

Definition forbiddenTitle (title : jsstring) : bool :=
  existsb (fun word => includes word (toLowerCase rt title))
          [str "annotated"; str "illustrated"].

(** The callback of [res.data.items.map]: the candidate of one item, or
    [null]. *)
Definition bookOfItem (item : Item) : M W (option CandidateBook) :=
  match volumeInfo item with
  | None => throw typeError
  | Some vi =>
      coverUrl <- fetchCoverWithLimit (vi_title vi) (firstAuthor vi) ;;
      match coverUrl, vi_description vi with
      | Some coverUrl, Some description =>
          if negb (truthy coverUrl) || negb (truthy description) then ret None
          else
            let description := truncateDescription description 150 in
            let title := match vi_title vi with Some t => t | None => [] end in
            if forbiddenTitle title then ret None
            else
              ret (Some
                {| title := title;
                   authors :=
                     orUnknown (join (str ", ")
                       (match vi_authors vi with Some l => l | None => [] end));
                   publishedDate :=
                     match vi_publishedDate vi with
                     | Some d => if truthy d
                                 then Some (parseInt rt (slice0 4 d))
                                 else None
                     | None => None
                     end;
                   isbn := isbn13 vi;
                   coverUrl := coverUrl;
                   googleBooksId := item_id item;
                   description := description;
                   averageRating :=
                     match vi_averageRating vi with Some r => r | None => 0 end;
                   categories :=
                     match vi_categories vi with Some l => l | None => [] end;
                   sourceGenreIds := [];
                   sourceGenreNames := [] |})
      | _, _ => ret None
      end
  end.

Fixpoint filterSome {A} (l : list (option A)) : list A :=
  match l with
  | [] => []
  | Some x :: l' => x :: filterSome l'
  | None :: l' => filterSome l'
  end.

Definition fetchBooksFromGoogle (query : jsstring) (maxResults : Z)
  : M W (list CandidateBook) :=
  items <- perform sv (GoogleVolumes query maxResults) ;;
  books <- mapM bookOfItem (match items with Some l => l | None => [] end) ;;
  ret (filterSome books).

Definition getShelfBooks (userId : Z) (shelfName : jsstring)
  : M W (list ShelfBook) :=
  shelf <- perform sv (ShelfFindFirst userId shelfName) ;;
  match shelf with
  | None => ret []
  | Some books => ret books
  end.

Definition getToReadBooks (userId : Z) := getShelfBooks userId (str "To Read").
Definition getFinishedBooks (userId : Z) := getShelfBooks userId (str "Finished").

Definition liteOf (b : ShelfBook) : ShelfBookLite :=
  {| sl_googleBooksId := sb_googleBooksId b;
     sl_title := sb_title b;
     sl_description := sb_description b |}.

Definition shelfLite (books : list ShelfBook) : list ShelfBookLite :=
  filter (fun b => truthy (sl_googleBooksId b)) (map liteOf books).

(** 1. The candidates of every preferred genre, merged by key. *)
Definition aggregate (userGenres : list UserGenre)
  (excludeGoogleIds : list jsstring) : M W (list (jsstring * CandidateBook)) :=
  foldM (fun candidateMap ug =>
           rawBooks <- fetchBooksFromGoogle
                         (str "subject:" ++ name (genre ug)) 40 ;;
           ret (fold_left (mergeCandidate excludeGoogleIds ug)
                          rawBooks candidateMap))
        userGenres [].

(** What the handler has gathered when the candidates are in. *)
Record Gathered := {
  g_userGenres : list UserGenre;
  g_toReadLite : list ShelfBookLite;
  g_finishedLite : list ShelfBookLite;
  g_candidates : list CandidateBook
}.

Definition gather (userId : Z) (userGenres : list UserGenre) : M W Gathered :=
  toRead <- getToReadBooks userId ;;
  finished <- getFinishedBooks userId ;;
  let toReadLite := shelfLite toRead in
  let finishedLite := shelfLite finished in
  let excludeGoogleIds0 :=
    Set_of (map sl_googleBooksId toReadLite
            ++ map sl_googleBooksId finishedLite) in
  seen <- perform sv (UserBookFindMany userId) ;;
  let excludeGoogleIds :=
    fold_left (fun ids ub =>
                 match ub_book ub with
                 | Some gid => if truthy gid then Set_add ids gid else ids
                 | None => ids
                 end)
              seen excludeGoogleIds0 in
  candidateMap <- aggregate userGenres excludeGoogleIds ;;
  ret {| g_userGenres := userGenres;
         g_toReadLite := toReadLite;
         g_finishedLite := finishedLite;
         g_candidates := Map_values candidateMap |}.

(** 4. The genres of one returned recommendation are written back; a
    failure is logged and passed over. *)
Definition persistGenres (ctx : ScoringContext) (r : ScoredCandidate)
  : M W unit :=
  let dbGenreIds := dbGenreIdsOf ctx (candidate r) in
  let inferredGenreIds := inferredGenreIds ctx (candidate r) in
  let genreIdsToPersist :=
    fold_left Set_add inferredGenreIds (fold_left Set_add dbGenreIds []) in
  if (Set_size genreIdsToPersist =? 0)%nat then ret tt
  else
    tryCatch
      (upserted <- perform sv (BookUpsert (googleBooksId (candidate r))) ;;
       perform sv
         (BookGenreCreateMany
            (map (fun genreId => (book_id upserted, genreId))
                 genreIdsToPersist)))
      (fun e => ret tt).

Definition byNumber (a b : Z) : Q := inject_Z (a - b).

Definition responseBook (allGenres : list GenreLite) (r : ScoredCandidate)
  : CandidateBook :=
  let genreNameById :=
    fold_left (fun m g => Map_set m (id g) (name g)) allGenres [] in
  let sourceGenreIds := sort byNumber (Set_of (genreIds r)) in
  let sourceGenreNames :=
    flat_map (fun id => match Map_get genreNameById id with
                        | Some name => if truthy name then [name] else []
                        | None => []
                        end)
             sourceGenreIds in
  withSourceGenres (candidate r) sourceGenreIds sourceGenreNames.

(** What the scoring closure captures: the user's signals, the genres of
    the database, the token sets of the shelves and the weights. *)
Definition scoringContextOf (g : Gathered) (allGenres : list GenreLite)
  (existing : list BookGenres) : ScoringContext :=
  {| preferredGenreIds := Set_of (map genreId (g_userGenres g));
     existingGenreIdsByGoogleId :=
       fold_left (fun m b =>
                    Map_set m (bg_googleBooksId b)
                      (Set_of (map fst (bg_genres b))))
                 existing [];
     allGenres := allGenres;
     finishedTokenSets :=
       map (fun b => tokenize (shelfText b)) (g_finishedLite g);
     toReadTokenSets :=
       map (fun b => tokenize (shelfText b)) (g_toReadLite g);
     weightsUsed := weightsFor (length (g_finishedLite g)) |}.

(** 2, 3, 4 and the response, once there are candidates. *)
Definition recommend (g : Gathered) : M W (Response CandidateBook) :=
  allGenres <- perform sv GenreFindMany ;;
  existing <- perform sv
                (BookFindMany (map googleBooksId (g_candidates g))) ;;
  let ctx := scoringContextOf g allGenres existing in
  emit (Scoring (length (g_candidates g))) ;;;
  let scored := map (scoreCandidate ctx) (g_candidates g) in
  let top := rankTop scored in
  mapM (persistGenres ctx) top ;;;
  ret {| status := 200;
         body := JsonBooks (map (responseBook allGenres) top) |}.

Definition noGenres : Response CandidateBook :=
  {| status := 200;
     body := JsonMessage (str "User has no selected genres") |}.

Definition failed (err : Error) : Response CandidateBook :=
  {| status := 500;
     body := JsonError (str "Failed to fetch recommendations")
                       (Some (message err)) |}.

Definition invalidUserId : Response CandidateBook :=
  {| status := 400; body := JsonError (str "Invalid userId") None |}.

(** The state after the query for the user's genres. *)
Definition afterUserGenres (st : State W) (userId : Z) (w1 : W) : State W :=
  {| world := w1; trace := trace st ++ [Called (UserGenreFindMany userId)] |}.

(** [router.get("/fetch/:userId", ...)], ranked. *)
Definition fetchHandler (userIdParam : jsstring)
  : M W (Response CandidateBook) :=
  match parseInt rt userIdParam with
  | None | Some 0%Z => ret invalidUserId
  | Some userId =>
      tryCatch
        (userGenres <- perform sv (UserGenreFindMany userId) ;;
         match userGenres with
         | [] => ret noGenres
         | _ :: _ =>
             g <- gather userId userGenres ;;
             match g_candidates g with
             | [] => ret {| status := 200; body := JsonBooks [] |}
             | _ :: _ => recommend g
             end
         end)
        (fun err => ret (failed err))
  end.

End WithWorld.

End WithRuntime.
End Recommendations.

(* ================================================================== *)
(** * [src/routes/recommendations.ts]: the round-robin pipeline

    The second version of the route.  Its helpers ([fetchOpenLibraryCover],
    [fetchBooksFromGoogle], the shelf readers) are those of the ranked
    version, line for line. *)
(* ================================================================== *)

Module RoundRobin.
Import GenreMatch Effects Recommendations.
Local Open Scope monad_scope.

(** [a.splice(i, 1)] *)
Fixpoint removeAt {A} (i : nat) (l : list A) : list A :=
  match l, i with
  | [], _ => []
  | _ :: l', O => l'
  | x :: l', S i' => x :: removeAt i' l'
  end.

(** The [while] loop.  Every turn lengthens [finalRecommendations] or drops
    a genre from the rotation, so [20 + genreIds.length] turns are enough;
    [fuel] counts them.  [None] is the [TypeError] of reading [length] of
    a pool that does not exist. *)
Fixpoint rotate (fuel : nat) (finalRecommendations : list CandidateBook)
  (genreIds : list Z) (genreIndex : nat)
  (genreBookPool : list (Z * list CandidateBook))
  : option (list CandidateBook) :=
  match fuel with
  | O => Some finalRecommendations
  | S fuel' =>
      if (length finalRecommendations <? 20)%nat && (0 <? length genreIds)%nat
      then
        match nth_error genreIds genreIndex with
        | None => None
        | Some currentGenreId =>
            match Map_get genreBookPool currentGenreId with
            | None => None
            | Some pool =>
                let finalRecommendations' :=
                  match pool with
                  | x :: _ => finalRecommendations ++ [x]
                  | [] => finalRecommendations
                  end in
                let pool' := tl pool in
                let genreBookPool' := Map_set genreBookPool currentGenreId pool' in
                match pool' with
                | [] =>
                    let genreIds' := removeAt genreIndex genreIds in
                    match genreIds' with
                    | [] => Some finalRecommendations'
                    | _ :: _ =>
                        rotate fuel' finalRecommendations' genreIds'
                          (genreIndex mod length genreIds') genreBookPool'
                    end
                | _ :: _ =>
                    rotate fuel' finalRecommendations' genreIds
                      ((genreIndex + 1) mod length genreIds) genreBookPool'
                end
            end
        end
      else Some finalRecommendations
  end.

(** What is left to do: room in the result, and genres in the rotation. *)
Definition turnsLeft (finalRecommendations : list CandidateBook)
  (genreIds : list Z) : nat :=
  (20 - length finalRecommendations) + length genreIds.

Section WithWorld.
Variable rt : Runtime.
Variable W : Type.
Variable sv : Services W.

(** One raw book of a genre: kept unless it is already in the pool or the
    user has interacted with it. *)
Definition keepUnseen (userId : Z) (filtered : list CandidateBook)
  (book : CandidateBook) : M W (list CandidateBook) :=
  if existsb (fun b => streqb (googleBooksId b) (googleBooksId book)) filtered
  then ret filtered
  else
    bookRecord <- perform sv (BookFindUnique (googleBooksId book)) ;;
    match bookRecord with
    | Some bookRecord =>
        alreadyUserBook <-
          perform sv (UserBookFindUnique userId (book_id bookRecord)) ;;
        match alreadyUserBook with
        | Some _ => ret filtered
        | None => ret (filtered ++ [book])
        end
    | None => ret (filtered ++ [book])
    end.

Definition fillPools (userId : Z) (userGenres : list UserGenre)
  : M W (list (Z * list CandidateBook)) :=
  foldM (fun genreBookPool ug =>
           rawBooks <- fetchBooksFromGoogle rt sv
                         (str "subject:" ++ name (genre ug)) 40 ;;
           filtered <- foldM (keepUnseen userId) rawBooks [] ;;
           ret (Map_set genreBookPool (id (genre ug)) filtered))
        userGenres [].

(** [router.get("/fetch/:userId", ...)], round-robin. *)
Definition fetchHandler (userIdParam : jsstring)
  : M W (Response CandidateBook) :=
  match parseInt rt userIdParam with
  | None | Some 0%Z => ret invalidUserId
  | Some userId =>
      tryCatch
        (userGenres <- perform sv (UserGenreFindMany userId) ;;
         match userGenres with
         | [] => ret noGenres
         | _ :: _ =>
             genreBookPool <- fillPools userId userGenres ;;
             let genreIds := map (fun ug => id (genre ug)) userGenres in
             r <- random sv ;;
             let genreIndex :=
               Qfloor (fmul r (inject_Z (Z.of_nat (length genreIds)))) in
             match (if (genreIndex <? 0)%Z then None
                    else rotate (20 + length genreIds) [] genreIds
                           (Z.to_nat genreIndex) genreBookPool) with
             | None => throw typeError
             | Some finalRecommendations =>
                 ret {| status := 200;
                        body := JsonBooks finalRecommendations |}
             end
         end)
        (fun err => ret (failed err))
  end.

End WithWorld.
End RoundRobin.

(* ================================================================== *)
(** * [src/routes/search.ts] *)
(* ================================================================== *)

Module Search.
Import GenreMatch Effects.
Local Open Scope monad_scope.

(** [req.query.query] as the query-string parser of Express delivers it:
    absent, a string, an array ([?query=a&query=b]) or an object
    ([?query[k]=v]). *)
Inductive QueryValue : Type :=
| QueryAbsent
| QueryString (q : jsstring)
| QueryArray (items : list jsstring)
| QueryObject (fields : list (jsstring * jsstring)).

(** The [TypeError] of calling what is not a function. *)
Definition notAFunction : Error :=
  {| responseStatus := None; message := str "trim is not a function" |}.

Record SearchBook := {
  id : Z;
  title : jsstring;
  authors : jsstring;
  publishedDate : option (option Z);     (* [null], or a [Date] by its time value *)
  isbn : option jsstring;
  coverUrl : jsstring;
  googleBooksId : jsstring;
  description : jsstring;
  averageRating : Q;
  categories : list jsstring;
  sourceGenreIds : list Z;
  sourceGenreNames : list jsstring
}.

Record Metadata := {
  m_id : jsstring;
  m_title : jsstring;
  m_authorsList : list jsstring;
  m_publishedDate : option jsstring;
  m_description : jsstring;
  m_averageRating : Q;
  m_categories : list jsstring;
  m_isbn : option jsstring
}.

Definition truncateDescription (text : jsstring) (wordLimit : nat) : jsstring :=
  if negb (truthy text) then []
  else
    let words := splitWs text in
    if (length words <=? wordLimit)%nat then text
    else join (str " ") (slice0 wordLimit words) ++ str " ...".

Definition orEmpty (o : option jsstring) : jsstring :=
  match o with Some x => x | None => [] end.

Definition metadataOf (item : Item) : list Metadata :=
  match volumeInfo item with
  | None => []
  | Some vi =>
      [{| m_id := item_id item;
          m_title := orEmpty (vi_title vi);
          m_authorsList :=
            match vi_authors vi with Some l => l | None => [] end;
          m_publishedDate :=
            match vi_publishedDate vi with
            | Some d => if truthy d then Some d else None
            | None => None
            end;
          m_description := orEmpty (vi_description vi);
          m_averageRating :=
            match vi_averageRating vi with Some r => r | None => 0 end;
          m_categories :=
            match vi_categories vi with Some l => l | None => [] end;
          m_isbn := Recommendations.isbn13 vi |}]
  end.

Section WithRuntime.
Variable rt : Runtime.

(** [`${book.title.toLowerCase()}|${book.authors.toLowerCase()}`] *)
Definition dedupKey (book : SearchBook) : jsstring :=
  toLowerCase rt (title book) ++ str "|" ++ toLowerCase rt (authors book).

(** The loop that fills [uniqueBooksMap]: the first book of a key stays. *)
Definition uniqueBooksMap (filteredBooks : list SearchBook)
  : list (jsstring * SearchBook) :=
  fold_left (fun m book =>
               let key := dedupKey book in
               if Map_has m key then m else Map_set m key book)
            filteredBooks [].

Definition byTitleThenAuthors (a b : SearchBook) : Q :=
  let tCompare := localeCompare rt (title a) (title b) in
  if negb (tCompare =? 0)%Z then inject_Z tCompare
  else inject_Z (localeCompare rt (authors a) (authors b)).

(** "Filter out null + deduplicate", then "Sort consistently by title +
    authors": the closing lines of both versions of [fetchBooksFromGoogle]. *)
Definition dedupeAndSort (filteredBooks : list SearchBook) : list SearchBook :=
  sort byTitleThenAuthors (Map_values (uniqueBooksMap filteredBooks)).

Section WithWorld.
Variable W : Type.
Variable sv : Services W.

(** The cover lookup of this file is the one of the recommendations
    route, line for line. *)
Definition fetchOpenLibraryCover := Recommendations.fetchOpenLibraryCover sv.
Definition fetchCoverWithLimit := fetchOpenLibraryCover.

Definition fetchGoogleVolumeCategories (googleBooksId : jsstring)
  : M W (list jsstring) :=
  tryCatch
    (categories <- perform sv (GoogleVolume googleBooksId) ;;
     match categories with
     | Some categories => ret categories
     | None => ret []
     end)
    (fun err => ret []).

Definition fetchGoogleVolumeCategoriesWithLimit := fetchGoogleVolumeCategories.

Definition firstOrEmpty (l : list jsstring) : jsstring :=
  match l with
  | a :: _ => if truthy a then a else []
  | [] => []
  end.

Definition forbiddenTitle (title : jsstring) : bool :=
  existsb (fun w => includes w (toLowerCase rt title))
          [str "annotated"; str "illustrated"].

Definition publishedDateOf (meta : Metadata) : option (option Z) :=
  match m_publishedDate meta with
  | Some d => Some (dateOf rt d)
  | None => None
  end.

(** The callback of [metadata.map] in the current version. *)
Definition bookOfMetadata (genres : list GenreLite) (meta : Metadata)
  : M W (option SearchBook) :=
  coverUrl <- fetchCoverWithLimit (Some (m_title meta))
                (firstOrEmpty (m_authorsList meta)) ;;
  match coverUrl with
  | None => ret None
  | Some coverUrl =>
      if negb (truthy coverUrl) || negb (truthy (m_description meta))
      then ret None
      else if forbiddenTitle (m_title meta) then ret None
      else
        volumeCategories <- fetchGoogleVolumeCategoriesWithLimit (m_id meta) ;;
        let categoriesForMatching :=
          if (0 <? length volumeCategories)%nat then volumeCategories
          else m_categories meta in
        let matchedGenres :=
          matchGenresFromCategories rt categoriesForMatching genres in
        ret (Some
          {| id := 0;
             title := m_title meta;
             authors :=
               Recommendations.orUnknown (join (str ", ") (m_authorsList meta));
             publishedDate := publishedDateOf meta;
             isbn := m_isbn meta;
             coverUrl := coverUrl;
             googleBooksId := m_id meta;
             description := truncateDescription (m_description meta) 150;
             averageRating := m_averageRating meta;
             categories := categoriesForMatching;
             sourceGenreIds := map GenreMatch.id matchedGenres;
             sourceGenreNames := map GenreMatch.name matchedGenres |})
  end.

(** The callback of [metadata.map] in the first version: no genres. *)
Definition bookOfMetadata1 (meta : Metadata) : M W (option SearchBook) :=
  coverUrl <- fetchCoverWithLimit (Some (m_title meta))
                (firstOrEmpty (m_authorsList meta)) ;;
  match coverUrl with
  | None => ret None
  | Some coverUrl =>
      if negb (truthy coverUrl) || negb (truthy (m_description meta))
      then ret None
      else if forbiddenTitle (m_title meta) then ret None
      else
        ret (Some
          {| id := 0;
             title := m_title meta;
             authors :=
               Recommendations.orUnknown (join (str ", ") (m_authorsList meta));
             publishedDate := publishedDateOf meta;
             isbn := m_isbn meta;
             coverUrl := coverUrl;
             googleBooksId := m_id meta;
             description := truncateDescription (m_description meta) 150;
             averageRating := m_averageRating meta;
             categories := m_categories meta;
             sourceGenreIds := [];
             sourceGenreNames := [] |})
  end.

Definition fetchBooksWith (callback : Metadata -> M W (option SearchBook))
  (query : jsstring) (maxResults : Z) : M W (list SearchBook) :=
  items <- perform sv (GoogleVolumes query maxResults) ;;
  match items with
  | None => ret []
  | Some items =>
      let metadata := flat_map metadataOf items in
      books <- mapM callback metadata ;;
      ret (dedupeAndSort (Recommendations.filterSome books))
  end.

(** The current version, and the first one. *)
Definition fetchBooksFromGoogle (query : jsstring) (maxResults : Z)
  (genres : list GenreLite) : M W (list SearchBook) :=
  fetchBooksWith (bookOfMetadata genres) query maxResults.

Definition fetchBooksFromGoogle1 (query : jsstring) (maxResults : Z)
  : M W (list SearchBook) :=
  fetchBooksWith bookOfMetadata1 query maxResults.

(** Genres of the database take the place of the matched ones. *)
Definition overlay (existing : list BookGenres) (b : SearchBook) : SearchBook :=
  let existingByGoogleId :=
    fold_left (fun m db => Map_set m (bg_googleBooksId db) db) existing [] in
  match Map_get existingByGoogleId (googleBooksId b) with
  | None => b
  | Some db =>
      match bg_genres db with
      | [] => b
      | _ :: _ =>
          {| id := bg_id db;
             title := title b; authors := authors b;
             publishedDate := publishedDate b; isbn := isbn b;
             coverUrl := coverUrl b; googleBooksId := googleBooksId b;
             description := description b;
             averageRating := averageRating b;
             categories := categories b;
             sourceGenreIds := map fst (bg_genres db);
             sourceGenreNames := map snd (bg_genres db) |}
      end
  end.

Definition missingQuery : Response SearchBook :=
  {| status := 400; body := JsonError (str "Missing query") None |}.

Definition failed : Response SearchBook :=
  {| status := 500;
     body := JsonError (str "Failed to fetch search results") None |}.

(** [(req.query.query as string)?.trim()], before the [try]: an absent
    query is left [undefined]; an array or an object has no [trim], and the
    call throws a [TypeError]. *)
Definition trimmedQuery (queryParam : QueryValue) : M W (option jsstring) :=
  match queryParam with
  | QueryAbsent => ret None
  | QueryString q => ret (Some (trim q))
  | QueryArray _ | QueryObject _ => throw notAFunction
  end.

(** [!query] *)
Definition missing (query : option jsstring) : bool :=
  match query with Some q => negb (truthy q) | None => true end.

(** [router.get("/search", ...)] *)
Definition searchHandler (queryParam : QueryValue)
  : M W (Response SearchBook) :=
  query <- trimmedQuery queryParam ;;
  if missing query then ret missingQuery
  else
    tryCatch
      (genres <- perform sv GenreFindMany ;;
       books <- fetchBooksFromGoogle (orEmpty query) 20 genres ;;
       existing <- perform sv (BookFindMany (map googleBooksId books)) ;;
       ret {| status := 200; body := JsonBooks (map (overlay existing) books) |})
      (fun err => ret failed).

(** The handler of the first version. *)
Definition searchHandler1 (queryParam : QueryValue)
  : M W (Response SearchBook) :=
  query <- trimmedQuery queryParam ;;
  if missing query then ret missingQuery
  else
    tryCatch
      (books <- fetchBooksFromGoogle1 (orEmpty query) 20 ;;
       ret {| status := 200; body := JsonBooks books |})
      (fun err => ret failed).

End WithWorld.
End WithRuntime.
End Search.

(* ================================================================== *)
(** * Runs of characters

    Two functions that describe tokens directly, used to relate the two
    tokenizers of the repository. *)
(* ================================================================== *)

Module Runs.

Definition emit (cur : jsstring) : list jsstring :=
  match cur with [] => [] | _ :: _ => [rev cur] end.

(** The non-empty maximal runs of characters that satisfy [p]; [cur] is the
    run being read, reversed. *)
Fixpoint fields (p : codeUnit -> bool) (cur : jsstring) (s : jsstring)
  : list jsstring :=
  match s with
  | [] => emit cur
  | c :: s' =>
      if p c then fields p (c :: cur) s' else emit cur ++ fields p [] s'
  end.

(** Whether [s], read after [n] characters of [[a-z0-9]], holds a run of
    three or more of them. *)
Fixpoint longRun (n : nat) (s : jsstring) : bool :=
  match s with
  | [] => (3 <=? n)%nat
  | c :: s' =>
      if isAlnum c then longRun (S n) s' else (3 <=? n)%nat || longRun 0 s'
  end.

Definition long (t : jsstring) : bool := (3 <=? length t)%nat.

Definition notSpace (c : codeUnit) : bool := negb (isSpace c).

(** [q] occurs in [s] as a block of consecutive characters. *)
Definition infix (q s : jsstring) : Prop :=
  exists pre post, s = pre ++ q ++ post.

End Runs.


(* ================================================================== *)
(** * Data for worked examples *)
(* ================================================================== *)

Module Demo.
Import GenreMatch Effects Recommendations.

(** The case table restricted to ASCII; strings compared by code units. *)
Fixpoint compareUnits (a b : jsstring) : Z :=
  match a, b with
  | [], [] => 0
  | [], _ :: _ => -1
  | _ :: _, [] => 1
  | x :: a', y :: b' =>
      match N.compare x y with
      | Lt => -1
      | Gt => 1
      | Eq => compareUnits a' b'
      end
  end.

(** [parseInt] on a string of decimal digits. *)
Fixpoint parseDigits (acc : option Z) (s : jsstring) : option Z :=
  match s with
  | [] => acc
  | c :: s' =>
      if ((48 <=? c) && (c <=? 57))%N
      then parseDigits
             (Some (10 * match acc with Some n => n | None => 0 end
                    + Z.of_N (c - 48))%Z) s'
      else acc
  end.

Definition asciiRuntime : Runtime :=
  {| lowerCaseUnit :=
       fun c => [if ((65 <=? c) && (c <=? 90))%N then (c + 32)%N else c];
     localeCompare := compareUnits;
     parseInt := parseDigits None;
     dateOf := fun _ => None |}.

(** A world without data: every query answers, with nothing. *)
Definition quietWorld : Services unit :=
  {| respond := fun c w =>
       match c return Result (Answer c) * unit with
       | UserGenreFindMany _ => (Ok [], w)
       | ShelfFindFirst _ _ => (Ok None, w)
       | UserBookFindMany _ => (Ok [], w)
       | GenreFindMany => (Ok [], w)
       | BookFindMany _ => (Ok [], w)
       | BookFindUnique _ => (Ok None, w)
       | UserBookFindUnique _ _ => (Ok None, w)
       | BookUpsert _ => (Ok {| book_id := 1 |}, w)
       | BookGenreCreateMany _ => (Ok tt, w)
       | GoogleVolumes _ _ => (Ok None, w)
       | GoogleVolume _ => (Ok None, w)
       | OpenLibrarySearch _ _ => (Ok None, w)
       end;
     mathRandom := fun w => (0, w) |}.

Definition start : State unit := {| world := tt; trace := [] |}.

Definition fiction : GenreLite := {| id := 1; name := str "Fiction" |}.
Definition scienceFiction : GenreLite :=
  {| id := 2; name := str "Science Fiction" |}.

Definition ugFiction : UserGenre := {| genreId := 1; genre := fiction |}.
Definition ugScienceFiction : UserGenre :=
  {| genreId := 2; genre := scienceFiction |}.

Definition dune (gid description : string) (rating : Q) : CandidateBook :=
  {| title := str "Dune"; authors := str "Frank Herbert";
     publishedDate := None; isbn := None;
     coverUrl := str "https://covers.openlibrary.org/b/id/1-L.jpg";
     googleBooksId := str gid; description := str description;
     averageRating := rating; categories := [str "Science Fiction"];
     sourceGenreIds := []; sourceGenreNames := [] |}.

Definition searchBook (gid title authors : string) : Search.SearchBook :=
  {| Search.id := 0; Search.title := str title; Search.authors := str authors;
     Search.publishedDate := None; Search.isbn := None;
     Search.coverUrl := str "https://covers.openlibrary.org/b/id/1-L.jpg";
     Search.googleBooksId := str gid; Search.description := str "A novel.";
     Search.averageRating := 0; Search.categories := [];
     Search.sourceGenreIds := []; Search.sourceGenreNames := [] |}.

Definition foundBooks : list Search.SearchBook :=
  [searchBook "A" "Dune" "Frank Herbert";
   searchBook "B" "DUNE" "frank herbert";
   searchBook "C" "Children of Dune" "Frank Herbert"].





Definition ratedLow : CandidateBook := dune "A" "A desert planet." 3.5.
Definition ratedHigh : CandidateBook := dune "B" "Spice." 4.0.
Definition tiedA : CandidateBook := dune "A" "abc" 0.
Definition tiedB : CandidateBook := dune "B" "xyz" 0.

End Demo.

(* ================================================================== *)
(** * Notions used to state properties of the pipeline *)
(* ================================================================== *)

Module Notions.

(** What a token of [value] is: three or more characters of [[a-z0-9]]
    that stand together in the lower-cased text. *)
Definition isToken (rt : Runtime) (value t : jsstring) : Prop :=
  (3 <= length t)%nat
  /\ Forall (fun c => isAlnum c = true) t
  /\ Runs.infix t (toLowerCase rt value).

(** What a part of a genre name is: a non-empty block of the name, without
    white space at either end and without any of the separators [/,&]. *)
Definition isPart (genreName p : jsstring) : Prop :=
  truthy p = true
  /\ trim p = p
  /\ Forall (fun c => GenreMatch.isSepChar c = false) p
  /\ Runs.infix p genreName.

(** The number of effective genres that are preferred ones, the size of
    the intersection of the two sets. *)
Definition overlap (effectiveGenres preferredGenres : list Z) : nat :=
  length (filter (fun g =>
                    if in_dec Z.eq_dec g preferredGenres then true else false)
                 effectiveGenres).

(** What the aggregation loop keeps true of every candidate it holds, for
    a given set of excluded ids and a given list of preferred genres: the
    candidate is filed under its own key, has an id that is not excluded,
    and names each of its source genres once, all of them preferred, and at
    least one of them when no preferred genre has the id 0. *)
Definition wellFormed (rt : Runtime) (excl : list jsstring)
  (userGenres : list Effects.UserGenre) (k : jsstring)
  (c : Recommendations.CandidateBook) : Prop :=
  k = Recommendations.normalizedCandidateKey rt c
  /\ truthy (Recommendations.googleBooksId c) = true
  /\ ~ In (Recommendations.googleBooksId c) excl
  /\ NoDup (Recommendations.sourceGenreIds c)
  /\ (forall g, In g (Recommendations.sourceGenreIds c) ->
                g <> 0%Z
                /\ exists ug, In ug userGenres
                              /\ GenreMatch.id (Effects.genre ug) = g)
  /\ ((forall ug, In ug userGenres ->
                  GenreMatch.id (Effects.genre ug) <> 0%Z) ->
      Recommendations.sourceGenreIds c <> []).

(** A candidate map whose keys are all different and whose candidates are
    all well formed. *)
Definition candidateSet (rt : Runtime) (excl : list jsstring)
  (userGenres : list Effects.UserGenre)
  (m : list (jsstring * Recommendations.CandidateBook)) : Prop :=
  NoDup (Map_keys m)
  /\ forall k c, In (k, c) m -> wellFormed rt excl userGenres k c.


(** The books the pools hold for the genres in the rotation. *)
Definition available (genreBookPool : list (Z * list Recommendations.CandidateBook))
  (genreIds : list Z) : nat :=
  list_sum (map (fun gid => match Map_get genreBookPool gid with
                            | Some pool => length pool
                            | None => 0%nat
                            end) genreIds).

(** What the rotation returns: the books it had, and books of the pools
    of the genres in the rotation. *)
Definition drawnFrom (final : list Recommendations.CandidateBook)
  (genreBookPool : list (Z * list Recommendations.CandidateBook))
  (genreIds : list Z) (res : list Recommendations.CandidateBook) : Prop :=
  forall b, In b res ->
            In b final
            \/ exists gid pool, In gid genreIds
                                /\ Map_get genreBookPool gid = Some pool
                                /\ In b pool.

End Notions.

(* ================================================================== *)
(** * A small library, for worked examples *)
(* ================================================================== *)

Module Library.
Import GenreMatch Effects Recommendations.

Definition volume (title : string) (authors : list jsstring)
  (description : string) (rating : Q) (categories : list jsstring)
  : VolumeInfo :=
  {| vi_title := Some (str title);
     vi_authors := Some authors;
     vi_publishedDate := Some (str "1965-08-01");
     vi_description := Some (str description);
     vi_averageRating := Some rating;
     vi_categories := Some categories;
     vi_industryIdentifiers := None |}.

(** What Google Books answers to every query: two editions of one book,
    an illustrated edition, a book without description, and one more. *)
Definition items : list Item :=
  [ {| item_id := str "A";
       volumeInfo := Some (volume "Dune" [str "Frank Herbert"]
                             "A desert planet." 4
                             [str "Fiction / Science Fiction"]) |};
    {| item_id := str "B";
       volumeInfo := Some (volume "Dune (Illustrated)" [str "Frank Herbert"]
                             "A desert planet, with pictures." 5
                             [str "Fiction"]) |};
    {| item_id := str "C";
       volumeInfo := Some (volume "DUNE" [str "Frank Herbert"; str "Brian Herbert"]
                             "The spice must flow on Arrakis." 4.5
                             [str "Fiction"]) |};
    {| item_id := str "D";
       volumeInfo := Some (volume "Neuromancer" [str "William Gibson"]
                             "" 4 [str "Fiction"]) |};
    {| item_id := str "E";
       volumeInfo := Some (volume "Emma" [str "Jane Austen"]
                             "A novel of manners." 0 [str "Fiction"]) |};
    {| item_id := str "F";
       volumeInfo := Some (volume "Foundation" [str "Isaac Asimov"]
                             "The fall of a galactic empire." 4
                             [str "Science Fiction"]) |} ].

(** The user has finished [Emma]. *)
Definition finished : list ShelfBook :=
  [ {| sb_id := 1; sb_googleBooksId := str "E"; sb_title := str "Emma";
       sb_coverURL := str ""; sb_description := str "A novel of manners.";
       sb_status := Some (str "finished") |} ].

Definition library : Services unit :=
  {| respond := fun c w =>
       match c return Result (Answer c) * unit with
       | UserGenreFindMany _ =>
           (Ok [Demo.ugFiction; Demo.ugScienceFiction], w)
       | ShelfFindFirst _ shelfName =>
           (Ok (if streqb shelfName (str "Finished") then Some finished
                else None), w)
       | UserBookFindMany _ => (Ok [], w)
       | GenreFindMany => (Ok [Demo.fiction; Demo.scienceFiction], w)
       | BookFindMany _ => (Ok [], w)
       | BookFindUnique _ => (Ok None, w)
       | UserBookFindUnique _ _ => (Ok None, w)
       | BookUpsert _ => (Ok {| book_id := 1 |}, w)
       | BookGenreCreateMany _ => (Ok tt, w)
       | GoogleVolumes _ _ => (Ok (Some items), w)
       | GoogleVolume _ => (Ok None, w)
       | OpenLibrarySearch _ _ => (Ok (Some [ {| cover_i := Some 42%Z |} ]), w)
       end;
     mathRandom := fun w => (0.5, w) |}.

(** The value of a run that succeeds, and the state it ends in. *)
Definition valueOf {A} (fallback : A) (run : Result A * State unit) : A :=
  match fst run with Ok a => a | Throw _ => fallback end.

Definition preferred : list UserGenre :=
  [Demo.ugFiction; Demo.ugScienceFiction].

Definition aggregated : Result (list (jsstring * CandidateBook)) * State unit :=
  aggregate Demo.asciiRuntime library preferred [str "E"] Demo.start.

Definition gathered : Result Gathered * State unit :=
  gather Demo.asciiRuntime library 7 preferred Demo.start.

Definition nothingGathered : Gathered :=
  {| g_userGenres := []; g_toReadLite := []; g_finishedLite := [];
     g_candidates := [] |}.

(** The same library when the database refuses every write. *)
Definition readOnly : Services unit :=
  {| respond := fun c w =>
       match c return Result (Answer c) * unit with
       | BookUpsert _ =>
           (Throw {| responseStatus := None;
                     message := str "read-only transaction" |}, w)
       | BookGenreCreateMany _ =>
           (Throw {| responseStatus := None;
                     message := str "read-only transaction" |}, w)
       | c => respond library c w
       end;
     mathRandom := mathRandom library |}.

Definition found : Gathered := valueOf nothingGathered gathered.

(** The same library when the volume endpoint of Google Books is down. *)
Definition noVolumes : Services unit :=
  {| respond := fun c w =>
       match c return Result (Answer c) * unit with
       | GoogleVolume _ =>
           (Throw {| responseStatus := Some 503%Z;
                     message := str "Service Unavailable" |}, w)
       | c => respond library c w
       end;
     mathRandom := mathRandom library |}.

Definition fetched : Result (list CandidateBook) * State unit :=
  fetchBooksFromGoogle Demo.asciiRuntime library (str "subject:Fiction") 40
    Demo.start.

Definition searched : Result (list Search.SearchBook) * State unit :=
  Search.fetchBooksFromGoogle Demo.asciiRuntime noVolumes (str "dune") 20
    [Demo.fiction; Demo.scienceFiction] Demo.start.

Definition pooled : Result (list (Z * list CandidateBook)) * State unit :=
  RoundRobin.fillPools Demo.asciiRuntime library 7 preferred Demo.start.

Definition duneMetadata : Search.Metadata :=
  {| Search.m_id := str "A"; Search.m_title := str "Dune";
     Search.m_authorsList := [str "Frank Herbert"];
     Search.m_publishedDate := Some (str "1965-08-01");
     Search.m_description := str "A desert planet.";
     Search.m_averageRating := 4;
     Search.m_categories := [str "Fiction / Science Fiction"];
     Search.m_isbn := None |}.

End Library.

Unset Implicit Arguments.

(* ================================================================== *)
(** * Facts about the runtime model *)
(* ================================================================== *)

Module JSFacts.

#[export] Instance SameValueZeroSpec_Z : SameValueZeroSpec SameValueZero_Z.
Proof. exact Z.eqb_eq. Qed.

Lemma streqb_eq (a b : jsstring) : streqb a b = true <-> a = b.
Proof.
  revert b; induction a as [|x a IH]; intros [|y b]; simpl; split;
    try congruence; try reflexivity.
  - intros E. apply andb_true_iff in E as [E1 E2].
    apply N.eqb_eq in E1. apply IH in E2. congruence.
  - intros E. inversion E; subst. rewrite N.eqb_refl. simpl. now apply IH.
Qed.

#[export] Instance SameValueZeroSpec_string : SameValueZeroSpec SameValueZero_string.
Proof. exact streqb_eq. Qed.

Section SetFacts.
Context {A : Type} {EA : SameValueZero A} {ES : SameValueZeroSpec EA}.

Lemma sameValue_refl (x : A) : sameValue x x = true.
Proof. now apply sameValue_spec. Qed.

Lemma sameValue_false (x y : A) : sameValue x y = false <-> x <> y.
Proof.
  destruct (sameValue x y) eqn:E; split; try congruence.
  - apply sameValue_spec in E. congruence.
  - intros _ E'. apply sameValue_spec in E'. congruence.
Qed.

Lemma Set_has_In (s : list A) (x : A) : Set_has s x = true <-> In x s.
Proof.
  unfold Set_has. rewrite existsb_exists. split.
  - intros (y & Hy & E). apply sameValue_spec in E. now subst.
  - intros Hx. exists x. split; [assumption | apply sameValue_refl].
Qed.

Lemma Set_has_notIn (s : list A) (x : A) : Set_has s x = false <-> ~ In x s.
Proof.
  rewrite <- Set_has_In. destruct (Set_has s x); split; congruence.
Qed.

Lemma Set_add_In (s : list A) (x y : A) :
  In y (Set_add s x) <-> In y s \/ y = x.
Proof.
  unfold Set_add. destruct (Set_has s x) eqn:E.
  - apply Set_has_In in E. split; [tauto | intros [ ? | -> ]; assumption].
  - rewrite in_app_iff. simpl. intuition congruence.
Qed.

Lemma Set_add_NoDup (s : list A) (x : A) : NoDup s -> NoDup (Set_add s x).
Proof.
  intros Hs. unfold Set_add. destruct (Set_has s x) eqn:E; [assumption|].
  apply Set_has_notIn in E.
  apply NoDup_app; [assumption | repeat constructor; intros [] | ].
  intros a Ha [ -> | [] ]. contradiction.
Qed.

Lemma fold_Set_add_In (l acc : list A) (x : A) :
  In x (fold_left Set_add l acc) <-> In x acc \/ In x l.
Proof.
  revert acc; induction l as [|y l IH]; intros acc; simpl.
  - tauto.
  - rewrite IH, Set_add_In. intuition congruence.
Qed.

Lemma fold_Set_add_NoDup (l acc : list A) :
  NoDup acc -> NoDup (fold_left Set_add l acc).
Proof.
  revert acc; induction l as [|y l IH]; intros acc Hacc; simpl.
  - assumption.
  - apply IH. now apply Set_add_NoDup.
Qed.

Lemma Set_of_In (l : list A) (x : A) : In x (Set_of l) <-> In x l.
Proof. unfold Set_of. rewrite fold_Set_add_In. simpl. tauto. Qed.

Lemma Set_of_NoDup (l : list A) : NoDup (Set_of l).
Proof. apply fold_Set_add_NoDup. constructor. Qed.

Lemma Set_of_nil_iff (l : list A) : Set_of l = [] <-> l = [].
Proof.
  split; [|intros ->; reflexivity].
  destruct l as [|x l]; [reflexivity|]. intros E.
  assert (Hx : In x (Set_of (x :: l))) by (apply Set_of_In; now left).
  rewrite E in Hx. destruct Hx.
Qed.

Lemma Set_delete_In (s : list A) (x y : A) :
  In y (Set_delete s x) <-> In y s /\ y <> x.
Proof.
  unfold Set_delete. rewrite filter_In, negb_true_iff, sameValue_false.
  intuition congruence.
Qed.

Lemma Set_add_present (s : list A) (x : A) : In x s -> Set_add s x = s.
Proof. intros Hx. unfold Set_add. apply Set_has_In in Hx. now rewrite Hx. Qed.

Lemma fold_Set_add_fresh (l : list A) : forall acc,
  NoDup (acc ++ l) -> fold_left Set_add l acc = acc ++ l.
Proof.
  induction l as [|x l IH]; intros acc Hnd; cbn [fold_left].
  - now rewrite app_nil_r.
  - assert (Hx : ~ In x acc).
    { apply NoDup_remove_2 in Hnd. rewrite in_app_iff in Hnd. tauto. }
    unfold Set_add at 2. apply Set_has_notIn in Hx. rewrite Hx.
    rewrite IH; rewrite <- app_assoc; [reflexivity | exact Hnd].
Qed.

Lemma Set_of_NoDup_id (l : list A) : NoDup l -> Set_of l = l.
Proof. intros Hl. unfold Set_of. now rewrite fold_Set_add_fresh. Qed.

Lemma fold_Set_add_present (l : list A) : forall acc,
  incl l acc -> fold_left Set_add l acc = acc.
Proof.
  induction l as [|x l IH]; intros acc Hl; cbn [fold_left]; [reflexivity|].
  rewrite Set_add_present by (apply Hl; now left).
  apply IH. intros y Hy. apply Hl. now right.
Qed.

End SetFacts.

Section MapFacts.
Context {K V : Type} {EK : SameValueZero K} {ES : SameValueZeroSpec EK}.

Lemma Map_set_fresh (m : list (K * V)) (k : K) (v : V) :
  ~ In k (Map_keys m) -> Map_set m k v = m ++ [(k, v)].
Proof.
  induction m as [|[k' v'] m IH]; simpl; intros Hk; [reflexivity|].
  destruct (sameValue k k') eqn:E.
  - apply sameValue_spec in E. subst. tauto.
  - rewrite IH by tauto. reflexivity.
Qed.

Lemma Map_keys_set (m : list (K * V)) (k : K) (v : V) (x : K) :
  In x (Map_keys (Map_set m k v)) <-> In x (Map_keys m) \/ x = k.
Proof.
  induction m as [|[k' v'] m IH]; simpl.
  - intuition congruence.
  - destruct (sameValue k k') eqn:E; simpl.
    + apply sameValue_spec in E. subst. intuition congruence.
    + rewrite IH. tauto.
Qed.

Lemma Map_get_app_fresh (m m' : list (K * V)) (k : K) :
  ~ In k (Map_keys m) -> Map_get (m ++ m') k = Map_get m' k.
Proof.
  induction m as [|[k' v'] m IH]; simpl; intros Hk; [reflexivity|].
  destruct (sameValue k k') eqn:E.
  - apply sameValue_spec in E. subst. tauto.
  - apply IH. tauto.
Qed.

Lemma Map_get_None (m : list (K * V)) (k : K) :
  Map_get m k = None <-> ~ In k (Map_keys m).
Proof.
  induction m as [|[k' v'] m IH]; simpl; [tauto|].
  destruct (sameValue k k') eqn:E.
  - apply sameValue_spec in E. subst. split; [discriminate | tauto].
  - apply sameValue_false in E. rewrite IH. intuition congruence.
Qed.

Lemma Map_get_In (m : list (K * V)) (k : K) (v : V) :
  NoDup (Map_keys m) -> In (k, v) m -> Map_get m k = Some v.
Proof.
  induction m as [|[k' v'] m IH]; simpl; intros Hnd Hin; [destruct Hin|].
  inversion Hnd as [|? ? Hk' Hnd']; subst.
  destruct Hin as [E|Hin].
  - inversion E; subst. now rewrite sameValue_refl.
  - destruct (sameValue k k') eqn:E.
    + apply sameValue_spec in E. subst. exfalso. apply Hk'.
      change (In k' (map fst m)). apply in_map_iff. now exists (k', v).
    + now apply IH.
Qed.

Lemma Map_get_set_same (m : list (K * V)) (k : K) (v : V) :
  Map_get (Map_set m k v) k = Some v.
Proof.
  induction m as [|[k' v'] m IH]; simpl.
  - now rewrite sameValue_refl.
  - destruct (sameValue k k') eqn:E; simpl; now rewrite E.
Qed.

Lemma Map_set_same (m : list (K * V)) (k : K) (v : V) :
  Map_get m k = Some v -> Map_set m k v = m.
Proof.
  induction m as [|[k' v'] m IH]; simpl; [discriminate|].
  destruct (sameValue k k') eqn:E.
  - intros [= ->]. reflexivity.
  - intros Hget. now rewrite IH.
Qed.

Lemma Map_set_set (m : list (K * V)) (k : K) (v v' : V) :
  Map_set (Map_set m k v) k v' = Map_set m k v'.
Proof.
  induction m as [|[k0 v0] m IH]; simpl.
  - now rewrite sameValue_refl.
  - destruct (sameValue k k0) eqn:E; simpl; rewrite E; [reflexivity|].
    now rewrite IH.
Qed.

Lemma Map_set_app_fresh (m : list (K * V)) (k : K) (v v' : V) :
  ~ In k (Map_keys m) -> Map_set (m ++ [(k, v)]) k v' = m ++ [(k, v')].
Proof.
  intros Hk. rewrite <- (Map_set_fresh m k v Hk), Map_set_set.
  now apply Map_set_fresh.
Qed.

End MapFacts.

End JSFacts.

(* ================================================================== *)
(** * Rounding *)
(* ================================================================== *)

Module NumberFacts.

(** A comparison of two numbers without variables, by computation. *)
Ltac closed_number := vm_compute; first [reflexivity | discriminate].

(** ** Rounding to an integer *)

Lemma rne_floor (x : Q) : (Qfloor x <= rne x <= Qfloor x + 1)%Z.
Proof.
  unfold rne. destruct (_ ?= _); [destruct (Z.even _)|..]; lia.
Qed.

Lemma rne_Z (k : Z) : rne (inject_Z k) = k.
Proof.
  unfold rne. rewrite Qfloor_Z.
  destruct (Qcompare_spec (inject_Z k - inject_Z k) (1 # 2)) as [H|H|H];
    [exfalso; lra | reflexivity | exfalso; lra].
Qed.

Lemma rne_comp (x y : Q) : x == y -> rne x = rne y.
Proof.
  intros E. unfold rne. rewrite (Qfloor_comp _ _ E).
  assert (E' : x - inject_Z (Qfloor y) == y - inject_Z (Qfloor y))
    by (rewrite E; reflexivity).
  now rewrite (Qcompare_comp _ _ E' _ _ (Qeq_refl (1 # 2))).
Qed.

Lemma rne_le (x y : Q) : x <= y -> (rne x <= rne y)%Z.
Proof.
  intros Hxy.
  pose proof (Qfloor_resp_le _ _ Hxy) as Hf.
  destruct (Z.eq_dec (Qfloor x) (Qfloor y)) as [E|N].
  - unfold rne. rewrite E.
    destruct (Qcompare_spec (x - inject_Z (Qfloor y)) (1 # 2)) as [Hx|Hx|Hx];
    destruct (Qcompare_spec (y - inject_Z (Qfloor y)) (1 # 2)) as [Hy|Hy|Hy];
      try destruct (Z.even _); try lia; exfalso; lra.
  - pose proof (rne_floor x). pose proof (rne_floor y). lia.
Qed.

Lemma rne_ge_Z (x : Q) (k : Z) : inject_Z k <= x -> (k <= rne x)%Z.
Proof. intros H. rewrite <- (rne_Z k). now apply rne_le. Qed.

Lemma rne_le_Z (x : Q) (k : Z) : x <= inject_Z k -> (rne x <= k)%Z.
Proof. intros H. rewrite <- (rne_Z k). now apply rne_le. Qed.

Lemma two_gt_1 : 1 < 2. Proof. reflexivity. Qed.
Lemma two_ge_1 : 1 <= 2. Proof. discriminate. Qed.
Lemma two_neq_0 : ~ 2 == 0. Proof. discriminate. Qed.

Lemma pow2_pos (k : Z) : 0 < 2 ^ k.
Proof. now apply Qpower_0_lt. Qed.

Lemma pow2_inject (k : Z) : (0 <= k)%Z -> inject_Z (2 ^ k) == 2 ^ k.
Proof. intros H. now rewrite Zpower_Qpower. Qed.

Lemma ilog2_spec (x : Q) : 0 < x -> 2 ^ ilog2 x <= x /\ x < 2 ^ (ilog2 x + 1).
Proof.
  intros Hx. unfold ilog2.
  destruct x as [n d]. cbn [Qnum Qden].
  assert (Hn : (0 < n)%Z) by (unfold Qlt in Hx; cbn in Hx; lia).
  destruct (Z.log2_spec n Hn) as [Ha1 Ha2].
  destruct (Z.log2_spec (Zpos d) eq_refl) as [Hb1 Hb2].
  pose proof (Z.log2_nonneg n) as Ha0.
  pose proof (Z.log2_nonneg (Zpos d)) as Hb0.
  set (a := Z.log2 n) in *. set (b := Z.log2 (Zpos d)) in *.
  assert (Hd : 0 < inject_Z (Zpos d)) by reflexivity.
  assert (E : n # d == inject_Z n / inject_Z (Zpos d)) by apply Qmake_Qdiv.
  assert (Qa1 : 2 ^ a <= inject_Z n).
  { rewrite <- pow2_inject by assumption. now rewrite <- Zle_Qle. }
  assert (Qa2 : inject_Z n < 2 ^ (a + 1)).
  { rewrite <- pow2_inject by lia. rewrite <- Zlt_Qlt.
    now rewrite <- Z.add_1_r in Ha2. }
  assert (Qb1 : 2 ^ b <= inject_Z (Zpos d)).
  { rewrite <- pow2_inject by assumption. now rewrite <- Zle_Qle. }
  assert (Qb2 : inject_Z (Zpos d) < 2 ^ (b + 1)).
  { rewrite <- pow2_inject by lia. rewrite <- Zlt_Qlt.
    now rewrite <- Z.add_1_r in Hb2. }
  (* x < 2^(a-b+1) and 2^(a-b-1) < x *)
  assert (Hhi : n # d < 2 ^ (a - b + 1)).
  { rewrite E. apply Qlt_shift_div_r; [assumption|].
    eapply Qlt_le_trans; [exact Qa2|].
    replace (a + 1)%Z with ((a - b + 1) + b)%Z by lia.
    rewrite Qpower_plus by apply two_neq_0.
    apply Qmult_le_l; [apply pow2_pos | assumption]. }
  assert (Hlo : 2 ^ (a - b - 1) < n # d).
  { rewrite E. apply Qlt_shift_div_l; [assumption|].
    eapply Qlt_le_trans; [|exact Qa1].
    replace a with ((a - b - 1) + (b + 1))%Z at 2 by lia.
    rewrite Qpower_plus by apply two_neq_0.
    apply Qmult_lt_l; [apply pow2_pos | assumption]. }
  destruct (Qle_bool (2 ^ (a - b)) (n # d)) eqn:Hc.
  - apply Qle_bool_iff in Hc. split; assumption.
  - assert (Hlt : n # d < 2 ^ (a - b)).
    { apply Qnot_le_lt. intros H. apply Qle_bool_iff in H. congruence. }
    split; [now apply Qlt_le_weak|].
    now replace (a - b - 1 + 1)%Z with (a - b)%Z by lia.
Qed.

Lemma ilog2_unique (x : Q) (e : Z) :
  2 ^ e <= x -> x < 2 ^ (e + 1) -> ilog2 x = e.
Proof.
  intros H1 H2.
  assert (Hx : 0 < x) by (eapply Qlt_le_trans; [apply (pow2_pos e)|exact H1]).
  destruct (ilog2_spec x Hx) as [G1 G2].
  assert (A : (ilog2 x < e + 1)%Z).
  { apply (Qpower_lt_compat_l_inv 2); [|apply two_gt_1].
    eapply Qle_lt_trans; eassumption. }
  assert (B : (e < ilog2 x + 1)%Z).
  { apply (Qpower_lt_compat_l_inv 2); [|apply two_gt_1].
    eapply Qle_lt_trans; eassumption. }
  lia.
Qed.

Lemma ilog2_comp (x y : Q) : 0 < x -> x == y -> ilog2 x = ilog2 y.
Proof.
  intros Hx E. symmetry. destruct (ilog2_spec x Hx) as [G1 G2].
  apply ilog2_unique; rewrite <- E; assumption.
Qed.

Lemma ilog2_le (x y : Q) : 0 < x -> x <= y -> (ilog2 x <= ilog2 y)%Z.
Proof.
  intros Hx Hxy.
  assert (Hy : 0 < y) by (eapply Qlt_le_trans; eassumption).
  destruct (ilog2_spec x Hx) as [G1 _].
  destruct (ilog2_spec y Hy) as [_ G2].
  assert (A : (ilog2 x < ilog2 y + 1)%Z).
  { apply (Qpower_lt_compat_l_inv 2); [|apply two_gt_1].
    eapply Qle_lt_trans; [exact G1|]. eapply Qle_lt_trans; eassumption. }
  lia.
Qed.

Lemma round64_0 : round64 0 == 0.
Proof. closed_number. Qed.

Lemma round64_zero (x : Q) : x == 0 -> round64 x == 0.
Proof.
  intros E. unfold round64. cbv zeta.
  set (s := (52 - ilog2 (Qabs x))%Z).
  assert (E0 : x * 2 ^ s == inject_Z 0) by (rewrite E; ring).
  rewrite (rne_comp _ _ E0), rne_Z. ring.
Qed.

(** The rounded value of a positive number, by its exponent. *)
Lemma round64_positive (x : Q) :
  0 < x ->
  round64 x == inject_Z (rne (x * 2 ^ (52 - ilog2 x))) * 2 ^ (- (52 - ilog2 x)).
Proof.
  intros Hx. unfold round64. cbv zeta.
  assert (E : Qabs x == x) by (apply Qabs_pos; now apply Qlt_le_weak).
  assert (Ha : 0 < Qabs x) by now rewrite E.
  now rewrite (ilog2_comp (Qabs x) x Ha E).
Qed.

Lemma scaled_bounds (x : Q) :
  0 < x ->
  inject_Z (2 ^ 52) <= x * 2 ^ (52 - ilog2 x)
  /\ x * 2 ^ (52 - ilog2 x) <= inject_Z (2 ^ 53).
Proof.
  intros Hx. destruct (ilog2_spec x Hx) as [G1 G2].
  set (e := ilog2 x) in *.
  rewrite !pow2_inject by lia. split.
  - replace 52%Z with (e + (52 - e))%Z at 1 by lia.
    rewrite Qpower_plus by apply two_neq_0.
    apply Qmult_le_compat_r; [assumption|]. apply Qlt_le_weak, pow2_pos.
  - replace 53%Z with ((e + 1) + (52 - e))%Z at 1 by lia.
    rewrite Qpower_plus by apply two_neq_0.
    apply Qmult_le_compat_r; [now apply Qlt_le_weak|].
    apply Qlt_le_weak, pow2_pos.
Qed.

Lemma round64_bounds (x : Q) :
  0 < x -> 2 ^ ilog2 x <= round64 x /\ round64 x <= 2 ^ (ilog2 x + 1).
Proof.
  intros Hx. rewrite (round64_positive x Hx).
  destruct (scaled_bounds x Hx) as [B1 B2].
  apply rne_ge_Z in B1. apply rne_le_Z in B2.
  set (e := ilog2 x) in *. set (m := rne _) in *.
  rewrite Zle_Qle in B1, B2. rewrite !pow2_inject in B1, B2 by lia.
  split.
  - replace e with (52 + - (52 - e))%Z at 1 by lia.
    rewrite Qpower_plus by apply two_neq_0.
    apply Qmult_le_compat_r; [assumption|]. apply Qlt_le_weak, pow2_pos.
  - replace (e + 1)%Z with (53 + - (52 - e))%Z by lia.
    rewrite Qpower_plus by apply two_neq_0.
    apply Qmult_le_compat_r; [assumption|]. apply Qlt_le_weak, pow2_pos.
Qed.

Lemma round64_pos (x : Q) : 0 < x -> 0 < round64 x.
Proof.
  intros Hx. destruct (round64_bounds x Hx) as [H _].
  eapply Qlt_le_trans; [apply (pow2_pos (ilog2 x))|exact H].
Qed.

Lemma round64_neg (x : Q) : x < 0 -> round64 x < 0.
Proof.
  intros Hx. unfold round64. cbv zeta.
  assert (Ha : 0 < Qabs x).
  { rewrite (Qabs_neg x) by now apply Qlt_le_weak. lra. }
  destruct (ilog2_spec _ Ha) as [G1 _].
  set (e := ilog2 (Qabs x)) in *.
  assert (B : x * 2 ^ (52 - e) <= inject_Z (- 2 ^ 52)).
  { rewrite inject_Z_opp, pow2_inject by lia.
    replace 52%Z with (e + (52 - e))%Z at 2 by lia.
    rewrite Qpower_plus by apply two_neq_0.
    rewrite (Qabs_neg x) in G1 by now apply Qlt_le_weak.
    pose proof (pow2_pos (52 - e)) as Hp.
    assert (H : 2 ^ e * 2 ^ (52 - e) <= - x * 2 ^ (52 - e)).
    { apply Qmult_le_compat_r; [assumption | now apply Qlt_le_weak]. }
    lra. }
  apply rne_le_Z in B. set (m := rne _) in *.
  assert (Hm : inject_Z m < 0).
  { change 0 with (inject_Z 0). rewrite <- Zlt_Qlt.
    assert (0 < 2 ^ 52)%Z by reflexivity. lia. }
  pose proof (pow2_pos (- (52 - e))) as Hp.
  assert (H : inject_Z m * 2 ^ (- (52 - e)) < 0 * 2 ^ (- (52 - e))).
  { now apply Qmult_lt_compat_r. }
  lra.
Qed.

Lemma round64_sign (x : Q) :
  (0 < round64 x <-> 0 < x) /\ (round64 x < 0 <-> x < 0)
  /\ (round64 x == 0 <-> x == 0).
Proof.
  destruct (Q_dec x 0) as [[H|H]|H].
  - pose proof (round64_neg x H). repeat split; intros; try lra; assumption.
  - pose proof (round64_pos x H). repeat split; intros; try lra; assumption.
  - pose proof (round64_zero x H). repeat split; intros; try lra; assumption.
Qed.

Lemma round64_comp (x y : Q) : x == y -> round64 x == round64 y.
Proof.
  intros E. unfold round64. cbv zeta.
  destruct (Qeq_dec x 0) as [Z|NZ].
  - pose proof (round64_zero x Z) as H1.
    assert (Zy : y == 0) by now rewrite <- E.
    pose proof (round64_zero y Zy) as H2.
    unfold round64 in H1, H2. cbv zeta in H1, H2. now rewrite H1, H2.
  - assert (Ha : 0 < Qabs x).
    { destruct (Q_dec x 0) as [[H|H]|H]; [| |contradiction].
      - rewrite (Qabs_neg x) by now apply Qlt_le_weak. lra.
      - rewrite (Qabs_pos x) by now apply Qlt_le_weak. assumption. }
    assert (Ea : Qabs x == Qabs y) by now rewrite E.
    rewrite (ilog2_comp _ _ Ha Ea).
    rewrite (rne_comp (x * 2 ^ (52 - ilog2 (Qabs y)))
                      (y * 2 ^ (52 - ilog2 (Qabs y)))); [reflexivity|].
    now rewrite E.
Qed.

#[export] Instance round64_Proper : Proper (Qeq ==> Qeq) round64.
Proof. intros x y E. now apply round64_comp. Qed.

Lemma round64_le_pos (x y : Q) : 0 < x -> x <= y -> round64 x <= round64 y.
Proof.
  intros Hx Hxy.
  assert (Hy : 0 < y) by (eapply Qlt_le_trans; eassumption).
  pose proof (ilog2_le x y Hx Hxy) as He.
  destruct (Z.eq_dec (ilog2 x) (ilog2 y)) as [E|N].
  - rewrite (round64_positive x Hx), (round64_positive y Hy), E.
    apply Qmult_le_compat_r; [|apply Qlt_le_weak, pow2_pos].
    rewrite <- Zle_Qle. apply rne_le.
    apply Qmult_le_compat_r; [assumption|apply Qlt_le_weak, pow2_pos].
  - destruct (round64_bounds x Hx) as [_ B1].
    destruct (round64_bounds y Hy) as [B2 _].
    eapply Qle_trans; [exact B1|]. eapply Qle_trans; [|exact B2].
    apply Qpower_le_compat_l; [lia | apply two_ge_1].
Qed.

Lemma round64_le (x y : Q) : 0 <= x -> x <= y -> round64 x <= round64 y.
Proof.
  intros Hx Hxy. destruct (Qeq_dec x 0) as [Z|NZ].
  - rewrite (round64_zero x Z).
    destruct (Qeq_dec y 0) as [Zy|NZy].
    + rewrite (round64_zero y Zy). apply Qle_refl.
    + apply Qlt_le_weak, round64_pos. lra.
  - apply round64_le_pos; [lra|assumption].
Qed.

Lemma round64_nonneg (x : Q) : 0 <= x -> 0 <= round64 x.
Proof.
  intros H. rewrite <- round64_0. now apply round64_le; [apply Qle_refl|].
Qed.

(** ** The operations *)

Lemma fdiv_bounds (m n : nat) :
  (m <= n)%nat -> (0 < n)%nat ->
  0 <= fdiv (inject_Z (Z.of_nat m)) (inject_Z (Z.of_nat n)) <= 1.
Proof.
  intros Hmn Hn.
  assert (Hn' : 0 < inject_Z (Z.of_nat n)).
  { change 0 with (inject_Z 0). rewrite <- Zlt_Qlt. lia. }
  assert (H0 : 0 <= inject_Z (Z.of_nat m) / inject_Z (Z.of_nat n)).
  { apply Qle_shift_div_l; [assumption|]. rewrite Qmult_0_l.
    change 0 with (inject_Z 0). rewrite <- Zle_Qle. lia. }
  assert (H1 : inject_Z (Z.of_nat m) / inject_Z (Z.of_nat n) <= 1).
  { apply Qle_shift_div_r; [assumption|]. rewrite Qmult_1_l.
    rewrite <- Zle_Qle. lia. }
  unfold fdiv. split; [now apply round64_nonneg|].
  assert (E1 : round64 1 == 1) by closed_number.
  rewrite <- E1. now apply round64_le.
Qed.

Lemma fdiv_nonneg (m n : nat) :
  (0 < n)%nat -> 0 <= fdiv (inject_Z (Z.of_nat m)) (inject_Z (Z.of_nat n)).
Proof.
  intros Hn. apply round64_nonneg. apply Qle_shift_div_l.
  - change 0 with (inject_Z 0). rewrite <- Zlt_Qlt. lia.
  - rewrite Qmult_0_l. change 0 with (inject_Z 0). rewrite <- Zle_Qle. lia.
Qed.

Lemma fmul_nonneg (x y : Q) : 0 <= x -> 0 <= y -> 0 <= fmul x y.
Proof.
  intros Hx Hy. apply round64_nonneg. now apply Qmult_le_0_compat.
Qed.

Lemma fadd_nonneg (x y : Q) : 0 <= x -> 0 <= y -> 0 <= fadd x y.
Proof. intros Hx Hy. apply round64_nonneg. lra. Qed.

Lemma fmul_le (x y x' y' : Q) :
  0 <= x -> x <= x' -> 0 <= y -> y <= y' -> fmul x y <= fmul x' y'.
Proof.
  intros Hx Hxx Hy Hyy. apply round64_le; [now apply Qmult_le_0_compat|].
  apply Qle_trans with (x' * y).
  - apply Qmult_le_compat_r; assumption.
  - rewrite (Qmult_comm x' y), (Qmult_comm x' y').
    apply Qmult_le_compat_r; [assumption|]. lra.
Qed.

Lemma fadd_le (x y x' y' : Q) :
  0 <= x -> x <= x' -> 0 <= y -> y <= y' -> fadd x y <= fadd x' y'.
Proof. intros Hx Hxx Hy Hyy. apply round64_le; lra. Qed.

(** The sign of a rounded difference is the sign of the difference. *)
Lemma fsub_sign (x y : Q) :
  (fsub x y <= 0 <-> x <= y) /\ (0 < fsub x y <-> y < x).
Proof.
  unfold fsub. destruct (round64_sign (x - y)) as (Hp & Hn & Hz).
  split; split; intros H.
  - destruct (Qlt_le_dec y x) as [L|L]; [|assumption].
    assert (0 < round64 (x - y)) by (apply Hp; lra). lra.
  - destruct (Qlt_le_dec 0 (round64 (x - y))) as [L|L]; [|assumption].
    apply Hp in L. lra.
  - apply Hp in H. lra.
  - apply Hp. lra.
Qed.

(** ** Against the arithmetic of the processor

    The constants of the scorer, a sum, a weighted total, a product that
    falls half way between two values, a negative difference and a
    quotient, as the processor computes them and as [round64] does. *)
Remark round64_agrees_with_the_processor :
  map (fun q => option_map Qred (rational (binary64 q)))
      [0.35; 0.40; 0.25; 0.70; 0.20; 0.10; 0.6; 0.4; 1 # 3; 2 # 7]
  = map (fun q => Some (Qred (double q)))
      [0.35; 0.40; 0.25; 0.70; 0.20; 0.10; 0.6; 0.4; 1 # 3; 2 # 7]
  /\ option_map Qred
       (rational
          (PrimFloat.add
             (PrimFloat.add (binary64 0.70) (binary64 0.20)) (binary64 0.10)))
     = Some (Qred (fadd (fadd (double 0.70) (double 0.20)) (double 0.10)))
  /\ option_map Qred
       (rational
          (PrimFloat.add
             (PrimFloat.add
                (PrimFloat.mul (binary64 0.70) (binary64 0.8))
                (PrimFloat.mul (binary64 0.20) (binary64 0)))
             (PrimFloat.mul (binary64 0.10) (binary64 0.8))))
     = Some (Qred (fadd (fadd (fmul (double 0.70) (double 0.8))
                              (fmul (double 0.20) 0))
                        (fmul (double 0.10) (double 0.8))))
  /\ option_map Qred
       (rational (PrimFloat.mul (binary64 (1 # 3)) (binary64 3)))
     = Some (Qred (fmul (double (1 # 3)) 3))
  /\ fmul (double (1 # 3)) 3 == 1
  /\ option_map Qred
       (rational (PrimFloat.sub (binary64 0.1) (binary64 0.3)))
     = Some (Qred (fsub (double 0.1) (double 0.3)))
  /\ option_map Qred
       (rational (PrimFloat.div (binary64 0.1) (binary64 0.3)))
     = Some (Qred (fdiv (double 0.1) (double 0.3))).
Proof. repeat split; vm_compute; reflexivity. Qed.

End NumberFacts.

(* ================================================================== *)
(** * Tokens are the long runs of [[a-z0-9]] *)
(* ================================================================== *)

Module RunsFacts.
Import Runs JSFacts.

Lemma alnum_notSpace (c : codeUnit) : isAlnum c = true -> notSpace c = true.
Proof.
  unfold isAlnum, notSpace, isSpace. intros Hc.
  assert (Hr : (48 <= c <= 122)%N).
  { apply orb_true_iff in Hc as [Hc|Hc];
      apply andb_true_iff in Hc as [H1 H2];
      apply N.leb_le in H1, H2; lia. }
  replace (c <=? 13)%N with false by (symmetry; apply N.leb_gt; lia).
  replace (8192 <=? c)%N with false by (symmetry; apply N.leb_gt; lia).
  repeat match goal with
  | |- context [(c =? ?k)%N] =>
      replace (c =? k)%N with false by (symmetry; apply N.eqb_neq; lia)
  end.
  now rewrite andb_false_r.
Qed.

Lemma SPACE_isSpace : isSpace SPACE = true.
Proof. reflexivity. Qed.

Lemma SPACE_notAlnum : isAlnum SPACE = false.
Proof. reflexivity. Qed.

Lemma filter_cons_app {A} (f : A -> bool) (x : A) (l : list A) :
  filter f (x :: l) = filter f [x] ++ filter f l.
Proof. simpl. now destruct (f x). Qed.

Lemma filter_long_emit (cur : jsstring) :
  filter long (emit cur) = filter long [rev cur].
Proof. destruct cur; reflexivity. Qed.

(** [split(/\s+/)] and the runs of characters that are not white space
    differ by empty pieces only. *)
Lemma splitWs_from_fields (s : jsstring) : forall inSep cur,
  (inSep = true -> cur = []) ->
  filter long (splitWs_from inSep cur s)
  = filter long (fields notSpace cur s).
Proof.
  induction s as [|c s IH]; intros inSep cur Hsep.
  - simpl. now rewrite filter_long_emit.
  - simpl. unfold notSpace at 1. destruct (isSpace c); simpl.
    + rewrite filter_app, filter_long_emit. destruct inSep.
      * rewrite (Hsep eq_refl). simpl. now apply IH.
      * rewrite (filter_cons_app long (rev cur)).
        f_equal. now apply IH.
    + apply IH. discriminate.
Qed.

Lemma fields_dropWhile (s : jsstring) :
  fields notSpace [] (dropWhile isSpace s) = fields notSpace [] s.
Proof.
  induction s as [|c s IH]; [reflexivity|].
  simpl. unfold notSpace at 2. destruct (isSpace c) eqn:E; simpl.
  - exact IH.
  - unfold notSpace. now rewrite E.
Qed.

Lemma fields_app_spaces (t s : jsstring) : forall cur,
  Forall (fun c => isSpace c = true) t ->
  fields notSpace cur (s ++ t) = fields notSpace cur s.
Proof.
  induction s as [|c s IH]; intros cur Ht; simpl.
  - induction Ht as [|c t Hc Ht IHt]; [reflexivity|].
    simpl. unfold notSpace at 1. rewrite Hc. simpl.
    destruct cur; simpl.
    + clear IHt. induction Ht as [|c' t' Hc' Ht' IHt']; [reflexivity|].
      simpl. unfold notSpace at 1. now rewrite Hc'.
    + f_equal. clear IHt. induction Ht as [|c' t' Hc' Ht' IHt']; [reflexivity|].
      simpl. unfold notSpace at 1. now rewrite Hc'.
  - destruct (notSpace c); [now apply IH | f_equal; now apply IH].
Qed.

Lemma dropWhile_split {A} (p : A -> bool) (l : list A) :
  exists t, l = t ++ dropWhile p l /\ Forall (fun c => p c = true) t.
Proof.
  induction l as [|x l (t & E & Ht)]; simpl.
  - exists []. split; [reflexivity | constructor].
  - destruct (p x) eqn:Hx.
    + exists (x :: t). split; [simpl; congruence | now constructor].
    + exists []. split; [reflexivity | constructor].
Qed.

Lemma trimEnd_split (s : jsstring) :
  exists t, s = trimEnd s ++ t /\ Forall (fun c => isSpace c = true) t.
Proof.
  unfold trimEnd. destruct (dropWhile_split isSpace (rev s)) as (t & E & Ht).
  exists (rev t). split.
  - rewrite <- rev_app_distr, <- E. now rewrite rev_involutive.
  - apply Forall_rev. exact Ht.
Qed.

Lemma fields_trim (s : jsstring) :
  fields notSpace [] (trim s) = fields notSpace [] s.
Proof.
  unfold trim. rewrite <- (fields_dropWhile s). fold (trimStart s).
  destruct (trimEnd_split (trimStart s)) as (t & E & Ht).
  rewrite E at 2. symmetry. now apply fields_app_spaces.
Qed.

Section WithRuntime.
Variable rt : Runtime.
Import GenreMatch.

Lemma fields_replaceNonAlnumRuns (s : jsstring) : forall inRun cur,
  (inRun = true -> cur = []) ->
  fields notSpace cur (replaceNonAlnumRuns inRun s) = fields isAlnum cur s.
Proof.
  induction s as [|c s IH]; intros inRun cur Hrun; [reflexivity|].
  simpl. destruct (isAlnum c) eqn:Hc.
  - simpl. rewrite (alnum_notSpace _ Hc). apply IH. discriminate.
  - destruct inRun.
    + rewrite (Hrun eq_refl). simpl. now apply IH.
    + simpl. f_equal. now apply IH.
Qed.

(** The tokens of [tokenizeWords] are the runs of three or more characters
    of [[a-z0-9]] in the lower-cased string, in order. *)
Lemma tokenizeWords_fields (value : jsstring) :
  tokenizeWords rt value
  = filter long (fields isAlnum [] (toLowerCase rt value)).
Proof.
  unfold tokenizeWords, splitWs.
  change (fun t : list N => (3 <=? length t)%nat) with long.
  rewrite splitWs_from_fields by discriminate.
  rewrite fields_trim.
  now rewrite fields_replaceNonAlnumRuns by discriminate.
Qed.

End WithRuntime.
End RunsFacts.

(* ================================================================== *)
(** * The Genre Taxonomy Matcher *)
(* ================================================================== *)

Module GenreMatchFacts.
Import Runs JSFacts RunsFacts GenreMatch.

Lemma longRun_enough (s : jsstring) : forall n,
  (3 <= n)%nat -> longRun n s = true.
Proof.
  induction s as [|c s IH]; intros n Hn; cbn [longRun app].
  - now apply Nat.leb_le.
  - destruct (isAlnum c).
    + apply IH. lia.
    + apply orb_true_iff. left. now apply Nat.leb_le.
Qed.

Lemma longRun_mono (s : jsstring) : forall n m,
  (n <= m)%nat -> longRun n s = true -> longRun m s = true.
Proof.
  induction s as [|c s IH]; intros n m Hnm; cbn [longRun app].
  - rewrite !Nat.leb_le. lia.
  - destruct (isAlnum c).
    + apply IH. lia.
    + rewrite !orb_true_iff, !Nat.leb_le. intros [?|?]; [left; lia | now right].
Qed.

Lemma longRun_app_r (s t : jsstring) : forall n,
  longRun n s = true -> longRun n (s ++ t) = true.
Proof.
  induction s as [|c s IH]; intros n; cbn [longRun app].
  - intros Hn. apply longRun_enough. now apply Nat.leb_le.
  - destruct (isAlnum c).
    + apply IH.
    + rewrite !orb_true_iff. intros [?|?]; [now left | right; now apply IH].
Qed.

Lemma longRun_app_l (s t : jsstring) : forall n,
  longRun 0 t = true -> longRun n (s ++ t) = true.
Proof.
  induction s as [|c s IH]; intros n Ht; cbn [longRun app].
  - apply longRun_mono with (n := 0%nat); [lia | assumption].
  - destruct (isAlnum c).
    + now apply IH.
    + apply orb_true_iff. right. now apply IH.
Qed.

Lemma longRun_infix (q s : jsstring) :
  infix q s -> longRun 0 q = true -> longRun 0 s = true.
Proof.
  intros (pre & post & ->) Hq.
  apply longRun_app_l. now apply longRun_app_r.
Qed.

Lemma longRun_fields (s : jsstring) : forall cur,
  longRun (length cur) s = true
  <-> filter long (fields isAlnum cur s) <> [].
Proof.
  induction s as [|c s IH]; intros cur; cbn [longRun fields].
  - rewrite filter_long_emit. cbn [filter]. unfold long. rewrite length_rev.
    destruct (3 <=? length cur)%nat; split; congruence.
  - destruct (isAlnum c).
    + apply (IH (c :: cur)).
    + rewrite filter_app, filter_long_emit. cbn [filter].
      unfold long at 1. rewrite length_rev.
      destruct (3 <=? length cur)%nat; cbn [orb app].
      * split; [discriminate | reflexivity].
      * apply (IH []).
Qed.

Lemma infix_refl (s : jsstring) : infix s s.
Proof. exists [], []. now rewrite app_nil_r. Qed.

Lemma infix_trans (a b c : jsstring) : infix a b -> infix b c -> infix a c.
Proof.
  intros (p1 & q1 & ->) (p2 & q2 & ->).
  exists (p2 ++ p1), (q1 ++ q2). now rewrite <- !app_assoc.
Qed.

Lemma infix_cons (q s : jsstring) (c : codeUnit) : infix q s -> infix q (c :: s).
Proof. intros (pre & post & ->). now exists (c :: pre), post. Qed.

Lemma infix_app_l (q s t : jsstring) : infix q s -> infix q (t ++ s).
Proof.
  intros (pre & post & ->). exists (t ++ pre), post. now rewrite <- app_assoc.
Qed.

Lemma trim_infix (s : jsstring) : infix (trim s) s.
Proof.
  unfold trim.
  destruct (dropWhile_split isSpace s) as (t1 & E1 & _).
  destruct (trimEnd_split (trimStart s)) as (t2 & E2 & _).
  exists t1, t2. unfold trimStart in *. now rewrite <- E2.
Qed.

(** Every piece of the split is a block of the genre name. *)
Lemma splitSeparators_infix (s : jsstring) : forall skip prev cur q,
  (skip <> 0%nat -> cur = []) ->
  In q (splitSeparators skip prev cur s) -> infix q (rev cur ++ s).
Proof.
  induction s as [|c s IH]; intros skip prev cur q Hskip; simpl.
  - intros [<-|[]]. rewrite app_nil_r. apply infix_refl.
  - destruct skip as [|k].
    + destruct (isSepChar c); [|destruct (andAt prev (c :: s))].
      * intros [<-|Hq].
        -- exists [], (c :: s). reflexivity.
        -- apply infix_app_l, infix_cons.
           apply (IH _ _ _ _ (fun _ => eq_refl) Hq).
      * intros [<-|Hq].
        -- exists [], (c :: s). reflexivity.
        -- apply infix_app_l, infix_cons.
           apply (IH _ _ _ _ (fun _ => eq_refl) Hq).
      * intros Hq. apply IH in Hq; [|intros; congruence].
        simpl in Hq. now rewrite <- app_assoc in Hq.
    + rewrite (Hskip (Nat.neq_succ_0 k)). intros Hq.
      apply infix_cons. apply (IH _ _ _ _ (fun _ => eq_refl) Hq).
Qed.

Lemma splitGenreParts_infix (genreName part : jsstring) :
  In part (splitGenreParts genreName) -> infix part genreName.
Proof.
  unfold splitGenreParts. rewrite filter_In, in_map_iff.
  intros ((q & <- & Hq) & _).
  apply infix_trans with (b := q); [apply trim_infix|].
  apply splitSeparators_infix in Hq; [exact Hq | reflexivity].
Qed.

Lemma isTokenSubset_incl (a b : list jsstring) :
  isTokenSubset a b = true <-> incl a b.
Proof.
  unfold isTokenSubset, incl. rewrite forallb_forall.
  split; intros Hab t Ht; apply Set_has_In; now apply Hab.
Qed.

Section WithRuntime.
Variable rt : Runtime.

Lemma toLowerCase_infix (q s : jsstring) :
  infix q s -> infix (toLowerCase rt q) (toLowerCase rt s).
Proof.
  intros (pre & post & ->). exists (toLowerCase rt pre), (toLowerCase rt post).
  unfold toLowerCase. now rewrite !flat_map_app.
Qed.

Lemma tokenSet_nonEmpty (value : jsstring) :
  nonEmptySet (tokenSet rt value) = true
  <-> longRun 0 (toLowerCase rt value) = true.
Proof.
  unfold nonEmptySet, tokenSet, Set_size.
  rewrite (longRun_fields _ []), <- tokenizeWords_fields.
  rewrite Nat.ltb_lt. split.
  - intros Hlen E. rewrite E in Hlen. simpl in Hlen. lia.
  - intros Hne. destruct (Set_of (tokenizeWords rt value)) eqn:E.
    + apply (proj1 (Set_of_nil_iff _)) in E. congruence.
    + cbn [length]. lia.
Qed.

(** A genre name one of whose parts has a token has a token itself. *)
Lemma part_tokens_full_tokens (genreName part : jsstring) :
  In part (splitGenreParts genreName) ->
  nonEmptySet (tokenSet rt part) = true ->
  nonEmptySet (tokenSet rt genreName) = true.
Proof.
  intros Hpart. rewrite !tokenSet_nonEmpty.
  apply longRun_infix, toLowerCase_infix, splitGenreParts_infix, Hpart.
Qed.

Lemma tokenizeWords_long (value t : jsstring) :
  In t (tokenizeWords rt value) -> (3 <= length t)%nat.
Proof.
  unfold tokenizeWords. rewrite filter_In. intros [_ Ht].
  now apply Nat.leb_le.
Qed.

Lemma size_zero_hasTokens (g : GenreLite) :
  (Set_size (tokenSet rt (name g)) =? 0)%nat = negb (hasTokens rt g).
Proof.
  unfold hasTokens, nonEmptySet, Set_size.
  now destruct (tokenSet rt (name g)).
Qed.

Lemma Map_keys_app {V} (m m' : list (Z * V)) :
  Map_keys (m ++ m') = Map_keys m ++ Map_keys m'.
Proof. apply map_app. Qed.

(** With pairwise distinct ids no entry of the two maps is ever overwritten:
    the loop appends the matched genres, and the token sets, in order. *)
Lemma matchAll_from (cats : list (list jsstring)) (genres : list GenreLite) :
  forall st,
  NoDup (map id genres) ->
  (forall g, In g genres ->
     ~ In (id g) (Map_keys (matchedById st))
     /\ ~ In (id g) (Map_keys (genreTokensById st))) ->
  fold_left (matchGenre rt cats) genres st
  = {| matchedById :=
         matchedById st ++ map idEntry (filter (isMatched rt cats) genres);
       genreTokensById :=
         genreTokensById st ++ map (tokenEntry rt) (filter (hasTokens rt) genres) |}.
Proof.
  induction genres as [|g genres IH]; intros st Hnd Hfresh.
  - simpl. rewrite !app_nil_r. now destruct st.
  - inversion Hnd as [|? ? Hg Hnd']; subst.
    destruct (Hfresh g (or_introl eq_refl)) as [Hg1 Hg2].
    cbn [fold_left filter]. unfold matchGenre at 2, isMatched at 1.
    rewrite size_zero_hasTokens.
    destruct (hasTokens rt g) eqn:Ht; cbn [negb andb].
    + rewrite (Map_set_fresh _ _ _ Hg2).
      assert (Hrest : forall V (m : list (Z * V)) (v : V) g',
                 In g' genres -> ~ In (id g') (Map_keys m) ->
                 ~ In (id g') (Map_keys (m ++ [(id g, v)]))).
      { intros V m v g' Hg' Hm. rewrite Map_keys_app, in_app_iff.
        intros [?|[E|[]]]; [contradiction|]. simpl in E.
        apply Hg. rewrite E. now apply in_map. }
      destruct (matchesSomeCategory rt cats g).
      * rewrite (Map_set_fresh _ _ _ Hg1). rewrite IH; [|assumption|].
        -- cbn [matchedById genreTokensById map].
           now rewrite <- !app_assoc.
        -- intros g' Hg'. cbn [matchedById genreTokensById].
           destruct (Hfresh g' (or_intror Hg')). split; now apply Hrest.
      * rewrite IH; [|assumption|].
        -- cbn [matchedById genreTokensById map].
           now rewrite <- !app_assoc.
        -- intros g' Hg'. cbn [matchedById genreTokensById].
           destruct (Hfresh g' (or_intror Hg')). split; [assumption|].
           now apply Hrest.
    + apply IH; [assumption|]. intros g' Hg'. apply Hfresh. now right.
Qed.

Lemma matchAll_distinct (categories : list jsstring) (genres : list GenreLite) :
  NoDup (map id genres) ->
  matchAll rt categories genres
  = {| matchedById :=
         map idEntry
           (filter (isMatched rt (categoryTokenSets rt categories)) genres);
       genreTokensById := map (tokenEntry rt) (filter (hasTokens rt) genres) |}.
Proof.
  intros Hnd. unfold matchAll. rewrite matchAll_from; [reflexivity|assumption|].
  intros g _. split; intros [].
Qed.

Lemma filter_keeps_distinct {X Y} (key : X -> Y) (keep : X -> bool)
  (xs : list X) (Hnd : NoDup (map key xs)) :
  NoDup (map key (filter keep xs)).
Proof.
  induction xs as [|x xs IH]; simpl in *; [constructor|].
  inversion Hnd as [|? ? Hx Hnd']; subst. destruct (keep x); simpl.
  - constructor; [|now apply IH]. rewrite in_map_iff.
    intros (y & E & Hy). apply filter_In in Hy as [Hy _].
    apply Hx. rewrite <- E. now apply in_map.
  - now apply IH.
Qed.

Lemma tokens_of_genre (genres : list GenreLite) (g : GenreLite) :
  NoDup (map id genres) -> In g genres -> hasTokens rt g = true ->
  Map_get (map (tokenEntry rt) (filter (hasTokens rt) genres)) (id g)
  = Some (tokenSet rt (name g)).
Proof.
  intros Hnd Hg Ht. apply Map_get_In.
  - unfold Map_keys. rewrite map_map. cbn [tokenEntry fst].
    now apply filter_keeps_distinct.
  - apply in_map_iff. exists g. split; [reflexivity|]. now apply filter_In.
Qed.

(** The set left by the pruning loop. *)
Lemma prune_fold_In (tokensById : list (Z * list jsstring))
  (matchedIds l : list Z) (x : Z) : forall acc,
  In x (fold_left (fun prunedIds a =>
                     if moreSpecificExists tokensById matchedIds a
                     then Set_delete prunedIds a else prunedIds) l acc)
  <-> In x acc
      /\ ~ (In x l /\ moreSpecificExists tokensById matchedIds x = true).
Proof.
  induction l as [|a l IH]; intros acc; cbn [fold_left].
  - simpl. tauto.
  - rewrite IH. destruct (moreSpecificExists tokensById matchedIds a) eqn:Ha.
    + rewrite Set_delete_In. simpl. split.
      * intros [[Hx Hne] Hl]. split; [assumption|].
        intros [[E|Hin] Hm]; [congruence | tauto].
      * intros [Hx Hl]. split; [split; [assumption|]|].
        -- intros ->. apply Hl. split; [now left | assumption].
        -- intros [Hin Hm]. apply Hl. split; [now right | assumption].
    + simpl. split.
      * intros [Hx Hl]. split; [assumption|].
        intros [[E|Hin] Hm]; [congruence | tauto].
      * intros [Hx Hl]. split; [assumption|].
        intros [Hin Hm]. apply Hl. split; [now right | assumption].
Qed.

Lemma prune_In (tokensById : list (Z * list jsstring))
  (matchedIds : list Z) (x : Z) :
  In x (prune tokensById matchedIds)
  <-> In x matchedIds /\ moreSpecificExists tokensById matchedIds x = false.
Proof.
  unfold prune. rewrite prune_fold_In, Set_of_In.
  destruct (moreSpecificExists tokensById matchedIds x); intuition congruence.
Qed.

Lemma isMatched_hasTokens (cats : list (list jsstring)) (g : GenreLite) :
  isMatched rt cats g = true -> hasTokens rt g = true.
Proof. unfold isMatched. intros H. now apply andb_true_iff in H. Qed.

(** When the inner loop of the pruning pass deletes a matched genre. *)
Lemma moreSpecificExists_iff (cats : list (list jsstring))
  (genres : list GenreLite) (a : GenreLite) :
  NoDup (map id genres) ->
  In a (filter (isMatched rt cats) genres) ->
  moreSpecificExists (map (tokenEntry rt) (filter (hasTokens rt) genres))
    (map id (filter (isMatched rt cats) genres)) (id a) = true
  <-> exists b, In b (filter (isMatched rt cats) genres)
                /\ b <> a /\ moreGeneral rt a b.
Proof.
  intros Hnd Ha. apply filter_In in Ha as [Ha Hma].
  unfold moreSpecificExists.
  rewrite (tokens_of_genre _ _ Hnd Ha (isMatched_hasTokens _ _ Hma)).
  rewrite existsb_exists. split.
  - intros (bid & Hb & Hcond). apply in_map_iff in Hb as (b & <- & Hb).
    pose proof Hb as Hb'. apply filter_In in Hb' as [Hbg Hmb].
    rewrite (tokens_of_genre _ _ Hnd Hbg (isMatched_hasTokens _ _ Hmb)) in Hcond.
    apply andb_true_iff in Hcond as [Hne Hcond].
    apply andb_true_iff in Hcond as [Hsize Hsub].
    exists b. split; [assumption|]. split.
    + intros ->. rewrite Z.eqb_refl in Hne. discriminate.
    + split; [|now apply isTokenSubset_incl].
      apply negb_true_iff, Nat.leb_gt in Hsize. exact Hsize.
  - intros (b & Hb & Hne & Hsize & Hsub). exists (id b).
    split; [now apply in_map|].
    pose proof Hb as Hb'. apply filter_In in Hb' as [Hbg Hmb].
    rewrite (tokens_of_genre _ _ Hnd Hbg (isMatched_hasTokens _ _ Hmb)).
    apply andb_true_iff. split; [|apply andb_true_iff; split].
    + apply negb_true_iff, Z.eqb_neq. intros E.
      assert (Heq : a = b); [|congruence].
      clear - Hnd Ha Hbg E. induction genres as [|g gs IH]; [destruct Ha|].
      simpl in Hnd. inversion Hnd as [|? ? Hg Hnd']; subst.
      destruct Ha as [->|Ha], Hbg as [->|Hbg]; try reflexivity.
      * exfalso. apply Hg. rewrite E. now apply in_map.
      * exfalso. apply Hg. rewrite <- E. now apply in_map.
      * now apply IH.
    + now apply negb_true_iff, Nat.leb_gt.
    + now apply isTokenSubset_incl.
Qed.

Lemma map_id_idEntry (l : list GenreLite) : Map_values (map idEntry l) = l.
Proof. unfold Map_values. rewrite map_map. apply map_id. Qed.

(** The matcher on a taxonomy with pairwise distinct ids. *)
Lemma rawMatched_distinct (categories : list jsstring)
  (genres : list GenreLite) :
  NoDup (map id genres) ->
  rawMatched rt categories genres
  = match categories with
    | [] => []
    | _ => filter (isMatched rt (categoryTokenSets rt categories)) genres
    end.
Proof.
  intros Hnd. unfold rawMatched.
  destruct categories as [|c cs]; [reflexivity|].
  destruct genres as [|g gs]; [reflexivity|].
  rewrite (matchAll_distinct _ _ Hnd). cbn [matchedById].
  apply map_id_idEntry.
Qed.

Lemma matchGenresFromCategories_distinct (categories : list jsstring)
  (genres : list GenreLite) (a : GenreLite) :
  NoDup (map id genres) ->
  In a (matchGenresFromCategories rt categories genres)
  <-> In a (rawMatched rt categories genres)
      /\ ~ exists b, In b (rawMatched rt categories genres)
                     /\ b <> a /\ moreGeneral rt a b.
Proof.
  intros Hnd. rewrite (rawMatched_distinct _ _ Hnd).
  unfold matchGenresFromCategories.
  destruct categories as [|c cs]; [simpl; tauto|].
  destruct genres as [|g gs]; [simpl; tauto|].
  rewrite (matchAll_distinct _ _ Hnd).
  cbn [matchedById genreTokensById]. rewrite map_id_idEntry.
  set (cats := categoryTokenSets rt (c :: cs)).
  set (genres := g :: gs) in *.
  rewrite filter_In, Set_has_In, prune_In. split.
  - intros (Ha & _ & Hms). split; [assumption|]. intros Hex.
    apply (moreSpecificExists_iff cats genres a Hnd Ha) in Hex. congruence.
  - intros (Ha & Hno). split; [assumption|]. split; [now apply in_map|].
    destruct (moreSpecificExists _ _ (id a)) eqn:Hms; [|reflexivity].
    exfalso. apply Hno.
    now apply (moreSpecificExists_iff cats genres a Hnd Ha).
Qed.

(** C1.  On a taxonomy whose genres have pairwise distinct ids, the result
    of the matcher is the raw match set without the pruned genres: a matched
    genre [a] is left out exactly when another matched genre [b] has a
    strictly larger full token set that contains the full token set of [a].
    Genres whose full token sets have the same size do not prune each other
    (the size comparison is strict), and the result never holds a genre
    together with a strictly more general one. *)
Theorem C1_pruning_law (categories : list jsstring) (genres : list GenreLite) :
  NoDup (map id genres) ->
  (forall a, In a (matchGenresFromCategories rt categories genres) ->
             In a (rawMatched rt categories genres))
  /\ (forall a, In a (rawMatched rt categories genres) ->
        (~ In a (matchGenresFromCategories rt categories genres)
         <-> exists b, In b (rawMatched rt categories genres) /\ b <> a
                       /\ (Set_size (tokenSet rt (name a))
                            < Set_size (tokenSet rt (name b)))%nat
                       /\ incl (tokenSet rt (name a)) (tokenSet rt (name b))))
  /\ (forall a b, In a (rawMatched rt categories genres) ->
        In b (rawMatched rt categories genres) ->
        Set_size (tokenSet rt (name a)) = Set_size (tokenSet rt (name b)) ->
        ~ moreGeneral rt a b)
  /\ (forall a b, In a (matchGenresFromCategories rt categories genres) ->
        In b (matchGenresFromCategories rt categories genres) ->
        ~ moreGeneral rt a b).
Proof.
  intros Hnd. repeat split.
  - intros a Ha. now apply (matchGenresFromCategories_distinct _ _ _ Hnd) in Ha.
  - intros Hout.
    destruct (moreSpecificExists
                (map (tokenEntry rt) (filter (hasTokens rt) genres))
                (map id (rawMatched rt categories genres)) (id a)) eqn:Hms.
    + rewrite (rawMatched_distinct _ _ Hnd) in *.
      destruct categories as [|c cs]; [destruct H|].
      apply (moreSpecificExists_iff _ _ _ Hnd H) in Hms. exact Hms.
    + exfalso. apply Hout.
      apply (matchGenresFromCategories_distinct _ _ _ Hnd).
      split; [assumption|]. intros Hex.
      rewrite (rawMatched_distinct _ _ Hnd) in *.
      destruct categories as [|c cs]; [destruct H|].
      apply (moreSpecificExists_iff _ _ _ Hnd H) in Hex. congruence.
  - intros Hex Hin.
    apply (matchGenresFromCategories_distinct _ _ _ Hnd) in Hin as [_ Hno].
    now apply Hno.
  - intros a b _ _ Hsize [Hlt _]. lia.
  - intros a b Ha Hb Hgen.
    apply (matchGenresFromCategories_distinct _ _ _ Hnd) in Ha as [_ Hno].
    apply (matchGenresFromCategories_distinct _ _ _ Hnd) in Hb as [Hb _].
    apply Hno. exists b. split; [assumption|]. split; [|assumption].
    intros ->. destruct Hgen as [Hlt _]. lia.
Qed.

(** Without any assumption on the ids: a key of [matchedById] stays, and
    every entry is filed under the id of its genre. *)
Lemma matchGenre_keys (cats : list (list jsstring)) (st : Matching)
  (g : GenreLite) (k : Z) :
  In k (Map_keys (matchedById st)) ->
  In k (Map_keys (matchedById (matchGenre rt cats st g))).
Proof.
  intros Hk. unfold matchGenre.
  destruct (Set_size (tokenSet rt (name g)) =? 0)%nat; [assumption|].
  destruct (matchesSomeCategory rt cats g); cbn [matchedById]; [|assumption].
  apply Map_keys_set. now left.
Qed.

Lemma matchAll_keys (cats : list (list jsstring)) (genres : list GenreLite) :
  forall st k,
  In k (Map_keys (matchedById st)) ->
  In k (Map_keys (matchedById (fold_left (matchGenre rt cats) genres st))).
Proof.
  induction genres as [|g genres IH]; intros st k Hk; cbn [fold_left].
  - assumption.
  - apply IH. now apply matchGenre_keys.
Qed.

Lemma matchAll_matched_key (cats : list (list jsstring))
  (genres : list GenreLite) (g : GenreLite) : forall st,
  In g genres -> isMatched rt cats g = true ->
  In (id g) (Map_keys (matchedById (fold_left (matchGenre rt cats) genres st))).
Proof.
  induction genres as [|g' genres IH]; intros st Hg Hm; [destruct Hg|].
  cbn [fold_left]. destruct Hg as [->|Hg]; [|now apply IH].
  apply matchAll_keys. unfold matchGenre. rewrite size_zero_hasTokens.
  unfold isMatched in Hm. apply andb_true_iff in Hm as [-> ->].
  cbn [negb matchedById]. apply Map_keys_set. now right.
Qed.

Lemma Map_set_filedById (m : list (Z * GenreLite)) (g : GenreLite) :
  filedById m -> filedById (Map_set m (id g) g).
Proof.
  unfold filedById. induction m as [|[k' g'] m IH]; intros Hm k g0; simpl.
  - intros [E|[]]. now inversion E.
  - destruct (sameValue (id g) k') eqn:E.
    + apply (sameValue_spec (A := Z)) in E. intros [E'|Hin].
      * inversion E'. congruence.
      * apply Hm. now right.
    + intros [E'|Hin].
      * apply Hm. now left.
      * apply IH; [|assumption]. intros k1 g1 H1. apply Hm. now right.
Qed.

Lemma matchAll_filedById (cats : list (list jsstring))
  (genres : list GenreLite) : forall st,
  filedById (matchedById st) ->
  filedById (matchedById (fold_left (matchGenre rt cats) genres st)).
Proof.
  induction genres as [|g genres IH]; intros st Hst; cbn [fold_left].
  - assumption.
  - apply IH. unfold matchGenre.
    destruct (Set_size (tokenSet rt (name g)) =? 0)%nat; [assumption|].
    destruct (matchesSomeCategory rt cats g); cbn [matchedById]; [|assumption].
    now apply Map_set_filedById.
Qed.

Lemma filedById_keys (m : list (Z * GenreLite)) :
  filedById m -> map id (Map_values m) = Map_keys m.
Proof.
  unfold filedById, Map_values, Map_keys.
  induction m as [|[k g] m IH]; intros Hm; [reflexivity|].
  simpl. rewrite IH by (intros k1 g1 H1; apply Hm; now right).
  f_equal. symmetry. apply Hm. now left.
Qed.

Lemma nonEmptySet_iff (s : list jsstring) : nonEmptySet s = true <-> s <> [].
Proof.
  destruct s; cbv; split; congruence.
Qed.

(** A part whose tokens all occur in a category makes the genre match. *)
Lemma part_subset_isMatched (categories : list jsstring) (g : GenreLite)
  (part c : jsstring) :
  In part (splitGenreParts (name g)) -> In c categories ->
  tokenSet rt part <> [] -> incl (tokenSet rt part) (tokenSet rt c) ->
  isMatched rt (categoryTokenSets rt categories) g = true.
Proof.
  intros Hpart Hc Hne Hsub. unfold isMatched. apply andb_true_iff. split.
  - apply (part_tokens_full_tokens _ _ Hpart). now apply nonEmptySet_iff.
  - unfold matchesSomeCategory. apply existsb_exists.
    exists (tokenSet rt c). split.
    + unfold categoryTokenSets. apply filter_In. split; [now apply in_map|].
      apply nonEmptySet_iff. intros E. rewrite E in Hsub.
      destruct (tokenSet rt part) as [|t ts]; [congruence|].
      apply (Hsub t). now left.
    + apply existsb_exists. exists (tokenSet rt part). split.
      * unfold partTokenSets. apply filter_In. split; [now apply in_map|].
        now apply nonEmptySet_iff.
      * now apply isTokenSubset_incl.
Qed.

(** C2.  A genre of the supplied list one of whose decomposed parts has a
    non-empty token set contained in the token set of a supplied category
    is in the raw match set (its id is, and with pairwise distinct ids the
    genre itself); every token that takes part in matching has three
    characters or more; an empty category list or an empty genre list gives
    an empty result. *)
Theorem C2_raw_match (categories : list jsstring) (genres : list GenreLite) :
  (forall g part c,
      In g genres ->
      In part (splitGenreParts (name g)) -> In c categories ->
      tokenSet rt part <> [] ->
      incl (tokenSet rt part) (tokenSet rt c) ->
      In (id g) (map id (rawMatched rt categories genres))
      /\ (NoDup (map id genres) -> In g (rawMatched rt categories genres)))
  /\ (forall value t, In t (tokenSet rt value) -> (3 <= length t)%nat)
  /\ rawMatched rt [] genres = []
  /\ rawMatched rt categories [] = []
  /\ matchGenresFromCategories rt [] genres = []
  /\ matchGenresFromCategories rt categories [] = [].
Proof.
  split; [|split; [|repeat split; now destruct categories]].
  - intros g part c Hg Hpart Hc Hne Hsub.
    pose proof (part_subset_isMatched _ _ _ _ Hpart Hc Hne Hsub) as Hm.
    split.
    + unfold rawMatched.
      destruct categories as [|c0 cs]; [destruct Hc|].
      destruct genres as [|g0 gs]; [destruct Hg|].
      rewrite filedById_keys.
      * now apply matchAll_matched_key.
      * apply matchAll_filedById. intros k g1 [].
    + intros Hnd. rewrite (rawMatched_distinct _ _ Hnd).
      destruct categories as [|c0 cs]; [destruct Hc|].
      apply filter_In. split; assumption.
  - intros value t Ht. apply (proj1 (Set_of_In _ _)) in Ht.
    now apply (tokenizeWords_long value).
Qed.

End WithRuntime.
(** C1, witness: the scenario of the specification.  Against the category
    "Science Fiction" both genres match, and "Fiction" is pruned. *)
Lemma C1_pruning_law_witness :
  NoDup (map id [Demo.fiction; Demo.scienceFiction])
  /\ rawMatched Demo.asciiRuntime [str "Science Fiction"]
       [Demo.fiction; Demo.scienceFiction]
     = [Demo.fiction; Demo.scienceFiction]
  /\ matchGenresFromCategories Demo.asciiRuntime [str "Science Fiction"]
       [Demo.fiction; Demo.scienceFiction]
     = [Demo.scienceFiction]
  /\ (forall a b,
        In a (matchGenresFromCategories Demo.asciiRuntime
                [str "Science Fiction"]
                [Demo.fiction; Demo.scienceFiction]) ->
        In b (matchGenresFromCategories Demo.asciiRuntime
                [str "Science Fiction"]
                [Demo.fiction; Demo.scienceFiction]) ->
        ~ moreGeneral Demo.asciiRuntime a b).
Proof.
  assert (Hnd : NoDup (map id [Demo.fiction; Demo.scienceFiction])).
  { repeat constructor; simpl; intuition discriminate. }
  split; [exact Hnd|]. split; [reflexivity|]. split; [reflexivity|].
  exact (proj2 (proj2 (proj2
           (C1_pruning_law Demo.asciiRuntime [str "Science Fiction"]
              [Demo.fiction; Demo.scienceFiction] Hnd)))).
Defined.

(** C2, witness: the one part of "Fiction" has the token [fiction], which
    the category "Science Fiction" holds too. *)
Lemma C2_raw_match_witness :
  In Demo.fiction [Demo.fiction; Demo.scienceFiction]
  /\ In (str "Fiction") (splitGenreParts (name Demo.fiction))
  /\ tokenSet Demo.asciiRuntime (str "Fiction") = [str "fiction"]
  /\ tokenSet Demo.asciiRuntime (str "Science Fiction")
     = [str "science"; str "fiction"]
  /\ In (id Demo.fiction)
       (map id (rawMatched Demo.asciiRuntime [str "Science Fiction"]
                  [Demo.fiction; Demo.scienceFiction])).
Proof.
  assert (Hg : In Demo.fiction [Demo.fiction; Demo.scienceFiction])
    by (left; reflexivity).
  assert (Hp : In (str "Fiction") (splitGenreParts (name Demo.fiction)))
    by (left; reflexivity).
  assert (Hc : In (str "Science Fiction") [str "Science Fiction"])
    by (left; reflexivity).
  assert (Hne : tokenSet Demo.asciiRuntime (str "Fiction") <> [])
    by discriminate.
  assert (Hsub : incl (tokenSet Demo.asciiRuntime (str "Fiction"))
                      (tokenSet Demo.asciiRuntime (str "Science Fiction"))).
  { intros t [<-|[]]. right. left. reflexivity. }
  split; [exact Hg|]. split; [exact Hp|].
  split; [reflexivity|]. split; [reflexivity|].
  exact (proj1 (proj1 (C2_raw_match Demo.asciiRuntime
                         [str "Science Fiction"]
                         [Demo.fiction; Demo.scienceFiction])
                  Demo.fiction (str "Fiction") (str "Science Fiction")
                  Hg Hp Hc Hne Hsub)).
Defined.

End GenreMatchFacts.

(* ================================================================== *)
(** * The tokenizer of the Shelf Similarity Index *)
(* ================================================================== *)

Module TokenizeFacts.
Import Runs JSFacts RunsFacts.

Lemma splitWs_from_notSpace (s : jsstring) : forall inSep cur piece,
  Forall (fun c => notSpace c = true) cur ->
  In piece (splitWs_from inSep cur s) ->
  Forall (fun c => notSpace c = true) piece.
Proof.
  induction s as [|c s IH]; intros inSep cur piece Hcur; simpl.
  - intros [<-|[]]. now apply Forall_rev.
  - destruct (isSpace c) eqn:Hc.
    + destruct inSep.
      * apply IH. constructor.
      * intros [<-|Hin]; [now apply Forall_rev|].
        revert Hin. apply IH. constructor.
    + apply IH. constructor; [|assumption]. unfold notSpace. now rewrite Hc.
Qed.

Lemma dropWhile_notSpace (s : jsstring) :
  Forall (fun c => notSpace c = true) s -> dropWhile isSpace s = s.
Proof.
  intros Hs. destruct Hs as [|c s Hc Hs]; [reflexivity|].
  simpl. unfold notSpace in Hc. apply negb_true_iff in Hc. now rewrite Hc.
Qed.

Lemma trim_notSpace (s : jsstring) :
  Forall (fun c => notSpace c = true) s -> trim s = s.
Proof.
  intros Hs. unfold trim, trimStart, trimEnd.
  rewrite (dropWhile_notSpace s Hs).
  rewrite (dropWhile_notSpace (rev s)) by now apply Forall_rev.
  apply rev_involutive.
Qed.

Lemma fields_replaceOther (s : jsstring) : forall cur,
  fields notSpace cur (Recommendations.replaceOther s) = fields isAlnum cur s.
Proof.
  unfold Recommendations.replaceOther.
  induction s as [|c s IH]; intros cur; [reflexivity|].
  cbn [map fields]. destruct (isAlnum c) eqn:Hc; cbn [orb].
  - rewrite (alnum_notSpace c Hc). apply IH.
  - unfold notSpace at 1. destruct (isSpace c) eqn:Hs.
    + rewrite Hs. cbn [negb]. f_equal. apply IH.
    + rewrite SPACE_isSpace. cbn [negb]. f_equal. apply IH.
Qed.

Section WithRuntime.
Variable rt : Runtime.

Lemma tokenize_fields (text : jsstring) :
  Recommendations.tokenize rt text
  = Set_of (filter long (fields isAlnum [] (toLowerCase rt text))).
Proof.
  unfold Recommendations.tokenize. f_equal.
  change (fun t : list N => (3 <=? length t)%nat) with long.
  rewrite <- fields_replaceOther.
  rewrite <- (splitWs_from_fields _ false []) by discriminate.
  fold (splitWs (Recommendations.replaceOther (toLowerCase rt text))).
  f_equal. rewrite <- (map_id (splitWs _)) at 2.
  apply map_ext_in. intros piece Hpiece. apply trim_notSpace.
  apply (splitWs_from_notSpace _ false [] piece (Forall_nil _) Hpiece).
Qed.

(** C7.  On every string the tokenizer of the recommendations route
    ([tokenize]) builds the token set that [new Set(tokenizeWords(s))]
    builds: the same tokens, in the same insertion order. *)
Theorem C7_tokenizers_agree (text : jsstring) :
  Recommendations.tokenize rt text = Set_of (GenreMatch.tokenizeWords rt text)
  /\ (forall t, In t (Recommendations.tokenize rt text)
                <-> In t (GenreMatch.tokenizeWords rt text)).
Proof.
  assert (E : Recommendations.tokenize rt text
              = Set_of (GenreMatch.tokenizeWords rt text)).
  { now rewrite tokenize_fields, tokenizeWords_fields. }
  split; [exact E|]. intros t. rewrite E. apply Set_of_In.
Qed.

End WithRuntime.
End TokenizeFacts.

(* ================================================================== *)
(** * Merge on collision *)
(* ================================================================== *)

Module MergeFacts.
Import JSFacts GenreMatch Effects Recommendations.

Lemma withSourceGenres_same (c : CandidateBook) :
  withSourceGenres c (sourceGenreIds c) (sourceGenreNames c) = c.
Proof. now destruct c. Qed.

Lemma addSourceGenre_fixed (e : CandidateBook) (gid : Z) (gname : jsstring) :
  hasGenre e gid gname -> addSourceGenre e gid gname = e.
Proof.
  intros [->|(Hin & Hids & Hnames & Hname)]; [reflexivity|].
  unfold addSourceGenre. destruct (gid =? 0)%Z; [reflexivity|].
  rewrite (Set_of_NoDup_id _ Hids), (Set_of_NoDup_id _ Hnames).
  rewrite (Set_add_present _ _ Hin).
  destruct (truthy gname).
  - rewrite (Set_add_present _ _ (Hname eq_refl)). apply withSourceGenres_same.
  - apply withSourceGenres_same.
Qed.

Lemma addSourceGenre_ids (e : CandidateBook) (gid : Z) (gname : jsstring) :
  NoDup (sourceGenreIds (addSourceGenre e gid gname)) \/ gid = 0%Z.
Proof.
  unfold addSourceGenre. destruct (gid =? 0)%Z eqn:E.
  - right. now apply Z.eqb_eq.
  - left. cbn. apply Set_add_NoDup, Set_of_NoDup.
Qed.

Lemma addSourceGenre_hasGenre (e : CandidateBook) (gid : Z) (gname : jsstring) :
  hasGenre (addSourceGenre e gid gname) gid gname.
Proof.
  unfold hasGenre, addSourceGenre. destruct (gid =? 0)%Z eqn:E.
  - left. now apply Z.eqb_eq.
  - right. cbn. repeat split.
    + apply Set_add_In. now right.
    + apply Set_add_NoDup, Set_of_NoDup.
    + destruct (truthy gname); [apply Set_add_NoDup|]; apply Set_of_NoDup.
    + intros ->. apply Set_add_In. now right.
Qed.

Lemma addSourceGenre_keeps (e : CandidateBook) (gid gid' : Z)
  (gname gname' : jsstring) :
  hasGenre e gid gname -> hasGenre (addSourceGenre e gid' gname') gid gname.
Proof.
  intros [->|(Hin & Hids & Hnames & Hname)]; [now left|].
  unfold addSourceGenre. destruct (gid' =? 0)%Z.
  - right. repeat split; assumption.
  - right. cbn. repeat split.
    + apply Set_add_In. left. now apply Set_of_In.
    + apply Set_add_NoDup, Set_of_NoDup.
    + destruct (truthy gname'); [apply Set_add_NoDup|]; apply Set_of_NoDup.
    + intros Ht. specialize (Hname Ht).
      destruct (truthy gname'); [apply Set_add_In; left|]; now apply Set_of_In.
Qed.

Lemma merged_keeps (e c : CandidateBook) (gid : Z) (gname : jsstring) :
  hasGenre e gid gname ->
  hasGenre
    (withSourceGenres c
       (fold_left Set_add (sourceGenreIds c) (Set_of (sourceGenreIds e)))
       (fold_left Set_add (sourceGenreNames c) (Set_of (sourceGenreNames e))))
    gid gname.
Proof.
  intros [->|(Hin & Hids & Hnames & Hname)]; [now left|].
  right. cbn. repeat split.
  - apply fold_Set_add_In. left. now apply Set_of_In.
  - apply fold_Set_add_NoDup, Set_of_NoDup.
  - apply fold_Set_add_NoDup, Set_of_NoDup.
  - intros Ht. apply fold_Set_add_In. left. apply Set_of_In. now apply Hname.
Qed.

(** [shouldReplace] reads the rating and the description only. *)
Lemma shouldReplace_ext (e e' c c' : CandidateBook) :
  averageRating e = averageRating e' -> description e = description e' ->
  averageRating c = averageRating c' -> description c = description c' ->
  shouldReplace e c = shouldReplace e' c'.
Proof. unfold shouldReplace. now intros -> -> -> ->. Qed.

Lemma shouldReplace_true (e c : CandidateBook) :
  shouldReplace e c = true
  <-> averageRating e < averageRating c
      \/ (averageRating c == averageRating e
          /\ (length (description e) < length (description c))%nat).
Proof.
  unfold shouldReplace.
  rewrite orb_true_iff, andb_true_iff, negb_true_iff, Nat.ltb_lt, Qeq_bool_iff.
  rewrite <- not_true_iff_false, Qle_bool_iff.
  split; (intros [H|H]; [left | now right]).
  - now apply Qnot_le_lt.
  - now apply Qlt_not_le.
Qed.

Lemma shouldReplace_irrefl (e c : CandidateBook) :
  averageRating c = averageRating e -> description c = description e ->
  shouldReplace e c = false.
Proof.
  intros Hr Hd. apply not_true_iff_false. rewrite shouldReplace_true, Hr, Hd.
  intros [H|[_ H]]; [now apply Qlt_irrefl in H | lia].
Qed.

(** What loses against [e] also loses against what replaces [e]. *)
Lemma shouldReplace_trans (e y b : CandidateBook) :
  shouldReplace e b = false -> shouldReplace e y = true ->
  shouldReplace y b = false.
Proof.
  intros Hb Hy. apply not_true_iff_false in Hb. apply not_true_iff_false.
  rewrite shouldReplace_true in *. intros Hyb. apply Hb.
  destruct Hy as [Hy|[Hy1 Hy2]], Hyb as [Hyb|[Hyb1 Hyb2]].
  - left. now apply Qlt_trans with (y := averageRating y).
  - left. now rewrite <- Hyb1 in Hy.
  - left. now rewrite Hy1 in Hyb.
  - right. split; [now rewrite Hyb1|lia].
Qed.

Section WithRuntime.
Variable rt : Runtime.
Variable excl : list jsstring.

Lemma candidateOf_fields (ug : UserGenre) (b : CandidateBook) :
  title (candidateOf ug b) = title b
  /\ authors (candidateOf ug b) = authors b
  /\ googleBooksId (candidateOf ug b) = googleBooksId b
  /\ averageRating (candidateOf ug b) = averageRating b
  /\ description (candidateOf ug b) = description b
  /\ descriptive (candidateOf ug b) = descriptive b.
Proof.
  unfold candidateOf, addSourceGenre.
  destruct (id (genre ug) =? 0)%Z; repeat split; reflexivity.
Qed.

Lemma addSourceGenre_fields (e : CandidateBook) (gid : Z) (gname : jsstring) :
  averageRating (addSourceGenre e gid gname) = averageRating e
  /\ description (addSourceGenre e gid gname) = description e
  /\ descriptive (addSourceGenre e gid gname) = descriptive e.
Proof.
  unfold addSourceGenre. destruct (gid =? 0)%Z; repeat split; reflexivity.
Qed.

Lemma key_candidateOf (ug : UserGenre) (b : CandidateBook) :
  normalizedCandidateKey rt (candidateOf ug b) = normalizedCandidateKey rt b.
Proof.
  destruct (candidateOf_fields ug b) as (Ht & Ha & Hg & _).
  unfold normalizedCandidateKey. now rewrite Ht, Ha, Hg.
Qed.

(** The body of the loop on a book that is not skipped. *)
Lemma mergeCandidate_accepted (ug : UserGenre)
  (m : list (jsstring * CandidateBook)) (b : CandidateBook) :
  accepted excl b ->
  mergeCandidate rt excl ug m b
  = let key := normalizedCandidateKey rt b in
    match Map_get m key with
    | None => Map_set m key (candidateOf ug b)
    | Some e0 =>
        let e := addSourceGenre e0 (id (genre ug)) (name (genre ug)) in
        if shouldReplace e b
        then Map_set m key (mergedWith e (candidateOf ug b))
        else Map_set m key e
    end.
Proof.
  intros [Hid Hex]. unfold mergeCandidate. rewrite Hid, Hex. cbn [negb].
  fold (candidateOf ug b). rewrite key_candidateOf. cbv zeta.
  destruct (Map_get m (normalizedCandidateKey rt b)) as [e0|]; [|reflexivity].
  destruct (candidateOf_fields ug b) as (_ & _ & _ & Hr & Hd & _).
  rewrite (shouldReplace_ext _ _ (candidateOf ug b) b eq_refl eq_refl Hr Hd).
  destruct (shouldReplace _ b); [|reflexivity].
  apply Map_set_set.
Qed.

Lemma mergeCandidate_skipped (ug : UserGenre)
  (m : list (jsstring * CandidateBook)) (b : CandidateBook) :
  ~ accepted excl b -> mergeCandidate rt excl ug m b = m.
Proof.
  unfold accepted, mergeCandidate. intros Hno.
  destruct (truthy (googleBooksId b)); [|reflexivity]. cbn [negb].
  destruct (Set_has excl (googleBooksId b)); [reflexivity|]. tauto.
Qed.

Lemma absorbed_fixed (m : list (jsstring * CandidateBook)) (ug : UserGenre)
  (b : CandidateBook) :
  absorbed rt m ug b -> mergeCandidate rt excl ug m b = m.
Proof.
  intros (e & Hget & Hg & Hr).
  destruct (Bool.bool_dec (truthy (googleBooksId b)) true) as [Hid|Hid];
    [|apply mergeCandidate_skipped; unfold accepted; tauto].
  destruct (Bool.bool_dec (Set_has excl (googleBooksId b)) false) as [Hex|Hex];
    [|apply mergeCandidate_skipped; unfold accepted; tauto].
  rewrite mergeCandidate_accepted by (split; assumption). cbv zeta.
  rewrite Hget, (addSourceGenre_fixed _ _ _ Hg), Hr.
  now apply Map_set_same.
Qed.

Lemma mergedWith_fields (e c : CandidateBook) :
  averageRating (mergedWith e c) = averageRating c
  /\ description (mergedWith e c) = description c
  /\ descriptive (mergedWith e c) = descriptive c.
Proof. repeat split; reflexivity. Qed.

Lemma merge_absorbs (m : list (jsstring * CandidateBook)) (ug : UserGenre)
  (b : CandidateBook) :
  accepted excl b -> absorbed rt (mergeCandidate rt excl ug m b) ug b.
Proof.
  intros Hb. rewrite (mergeCandidate_accepted ug m b Hb). cbv zeta.
  unfold absorbed.
  destruct (candidateOf_fields ug b) as (_ & _ & _ & Hr & Hd & _).
  destruct (Map_get m (normalizedCandidateKey rt b)) as [e0|] eqn:Hget.
  - destruct (addSourceGenre_fields e0 (id (genre ug)) (name (genre ug)))
      as (Hr0 & Hd0 & _).
    destruct (shouldReplace _ b) eqn:Hrep.
    + eexists. split; [apply Map_get_set_same|]. split.
      * apply merged_keeps, addSourceGenre_hasGenre.
      * apply shouldReplace_irrefl; cbn; congruence.
    + eexists. split; [apply Map_get_set_same|]. split.
      * apply addSourceGenre_hasGenre.
      * exact Hrep.
  - eexists. split; [apply Map_get_set_same|]. split.
    + apply addSourceGenre_hasGenre.
    + apply shouldReplace_irrefl; congruence.
Qed.

Lemma merge_keeps_absorbed (m : list (jsstring * CandidateBook))
  (ug ugy : UserGenre) (b y : CandidateBook) :
  normalizedCandidateKey rt y = normalizedCandidateKey rt b ->
  absorbed rt m ug b -> absorbed rt (mergeCandidate rt excl ugy m y) ug b.
Proof.
  intros Hkey Hab.
  destruct (Bool.bool_dec (truthy (googleBooksId y)) true) as [Hid|Hid];
    [|rewrite mergeCandidate_skipped; [assumption | unfold accepted; tauto]].
  destruct (Bool.bool_dec (Set_has excl (googleBooksId y)) false) as [Hex|Hex];
    [|rewrite mergeCandidate_skipped; [assumption | unfold accepted; tauto]].
  rewrite mergeCandidate_accepted by (split; assumption). cbv zeta.
  destruct Hab as (e & Hget & Hg & Hr). rewrite Hkey, Hget. unfold absorbed.
  destruct (addSourceGenre_fields e (id (genre ugy)) (name (genre ugy)))
    as (Hr0 & Hd0 & _).
  destruct (candidateOf_fields ugy y) as (_ & _ & _ & Hry & Hdy & _).
  destruct (shouldReplace _ y) eqn:Hrep.
  - eexists. split; [apply Map_get_set_same|]. split.
    + apply merged_keeps. now apply addSourceGenre_keeps.
    + assert (Hrep' : shouldReplace e y = true).
      { rewrite <- Hrep. apply shouldReplace_ext; congruence. }
      rewrite <- (shouldReplace_trans e y b Hr Hrep').
      apply shouldReplace_ext; cbn; congruence.
  - eexists. split; [apply Map_get_set_same|]. split.
    + now apply addSourceGenre_keeps.
    + rewrite <- Hr. apply shouldReplace_ext; congruence.
Qed.

(** Merging the same two books again leaves the map as it is. *)
Lemma mergeTwo_idempotent (m : list (jsstring * CandidateBook))
  (ugx ugy : UserGenre) (x y : CandidateBook) :
  accepted excl x -> accepted excl y ->
  normalizedCandidateKey rt x = normalizedCandidateKey rt y ->
  mergeTwo rt excl ugx x ugy y (mergeTwo rt excl ugx x ugy y m)
  = mergeTwo rt excl ugx x ugy y m.
Proof.
  intros Hx Hy Hkey. unfold mergeTwo.
  set (m1 := mergeCandidate rt excl ugx m x).
  set (m2 := mergeCandidate rt excl ugy m1 y).
  assert (Hax : absorbed rt m2 ugx x).
  { apply merge_keeps_absorbed; [now symmetry|]. now apply merge_absorbs. }
  assert (Hay : absorbed rt m2 ugy y) by now apply merge_absorbs.
  rewrite (absorbed_fixed _ _ _ Hax). apply (absorbed_fixed _ _ _ Hay).
Qed.

Lemma addSourceGenre_In_ids (e : CandidateBook) (gid : Z) (gname : jsstring)
  (g : Z) :
  In g (sourceGenreIds (addSourceGenre e gid gname))
  <-> In g (sourceGenreIds e) \/ (g = gid /\ gid <> 0%Z).
Proof.
  unfold addSourceGenre. destruct (gid =? 0)%Z eqn:E.
  - apply Z.eqb_eq in E. intuition congruence.
  - apply Z.eqb_neq in E. cbn. rewrite Set_add_In, Set_of_In. intuition congruence.
Qed.

Lemma addSourceGenre_In_names (e : CandidateBook) (gid : Z)
  (gname n : jsstring) :
  In n (sourceGenreNames (addSourceGenre e gid gname))
  <-> In n (sourceGenreNames e)
      \/ (n = gname /\ gid <> 0%Z /\ truthy gname = true).
Proof.
  unfold addSourceGenre. destruct (gid =? 0)%Z eqn:E.
  - apply Z.eqb_eq in E. intuition congruence.
  - apply Z.eqb_neq in E. cbn. destruct (truthy gname).
    + rewrite Set_add_In, Set_of_In. intuition congruence.
    + rewrite Set_of_In. intuition congruence.
Qed.

Lemma mergeTwo_fresh (m : list (jsstring * CandidateBook))
  (ugx ugy : UserGenre) (x y : CandidateBook) :
  accepted excl x -> accepted excl y ->
  normalizedCandidateKey rt x = normalizedCandidateKey rt y ->
  Map_get m (normalizedCandidateKey rt x) = None ->
  mergeTwo rt excl ugx x ugy y m
  = m ++ [(normalizedCandidateKey rt x, keptOf ugx x ugy y)].
Proof.
  intros Hx Hy Hkey Hget. unfold mergeTwo.
  rewrite (mergeCandidate_accepted ugx m x Hx). cbv zeta. rewrite Hget.
  apply Map_get_None in Hget.
  rewrite (Map_set_fresh _ _ _ Hget).
  rewrite (mergeCandidate_accepted ugy _ y Hy). cbv zeta. rewrite <- Hkey.
  rewrite (Map_get_app_fresh _ _ _ Hget). cbn [Map_get].
  rewrite (sameValue_refl (A := jsstring)).
  destruct (candidateOf_fields ugx x) as (_ & _ & _ & Hr & Hd & _).
  destruct (addSourceGenre_fields (candidateOf ugx x)
              (id (genre ugy)) (name (genre ugy))) as (Hr0 & Hd0 & _).
  unfold keptOf.
  rewrite (shouldReplace_ext _ x y y) by congruence.
  destruct (shouldReplace x y); now apply Map_set_app_fresh.
Qed.

Lemma keptOf_ids (ugx ugy : UserGenre) (x y : CandidateBook) (g : Z) :
  In g (sourceGenreIds (keptOf ugx x ugy y))
  <-> (g = id (genre ugx) \/ g = id (genre ugy)) /\ g <> 0%Z.
Proof.
  unfold keptOf. destruct (shouldReplace x y).
  - cbn [mergedWith withSourceGenres sourceGenreIds].
    rewrite fold_Set_add_In, Set_of_In.
    unfold candidateOf. rewrite !addSourceGenre_In_ids. cbn. intuition congruence.
  - unfold candidateOf. rewrite !addSourceGenre_In_ids. cbn. intuition congruence.
Qed.

Lemma keptOf_names_iff (ugx ugy : UserGenre) (x y : CandidateBook)
  (n : jsstring) :
  In n (sourceGenreNames (keptOf ugx x ugy y))
  <-> ((n = name (genre ugx) /\ id (genre ugx) <> 0%Z)
       \/ (n = name (genre ugy) /\ id (genre ugy) <> 0%Z))
      /\ truthy n = true.
Proof.
  unfold keptOf. destruct (shouldReplace x y).
  - cbn [mergedWith withSourceGenres sourceGenreNames].
    rewrite fold_Set_add_In, Set_of_In.
    unfold candidateOf. rewrite !addSourceGenre_In_names. cbn.
    intuition (subst; tauto || congruence).
  - unfold candidateOf. rewrite !addSourceGenre_In_names. cbn.
    intuition (subst; tauto || congruence).
Qed.

Lemma keptOf_descriptive (ugx ugy : UserGenre) (x y : CandidateBook) :
  descriptive (keptOf ugx x ugy y)
  = if shouldReplace x y then descriptive y else descriptive x.
Proof.
  unfold keptOf.
  destruct (candidateOf_fields ugx x) as (_ & _ & _ & _ & _ & Hx).
  destruct (candidateOf_fields ugy y) as (_ & _ & _ & _ & _ & Hy).
  destruct (shouldReplace x y).
  - now destruct (mergedWith_fields
                    (addSourceGenre (candidateOf ugx x) (id (genre ugy))
                       (name (genre ugy))) (candidateOf ugy y)) as (_ & _ & ->).
  - now destruct (addSourceGenre_fields (candidateOf ugx x) (id (genre ugy))
                    (name (genre ugy))) as (_ & _ & ->).
Qed.

Lemma shouldReplace_tie (x y : CandidateBook) :
  tie x y -> shouldReplace x y = false /\ shouldReplace y x = false.
Proof.
  intros [Hr Hd]. split; apply not_true_iff_false; rewrite shouldReplace_true;
    rewrite Hd; intros [H|[_ H]]; try lia; rewrite Hr in H;
    now apply Qlt_irrefl in H.
Qed.

Lemma shouldReplace_total (x y : CandidateBook) :
  ~ tie x y -> shouldReplace x y = negb (shouldReplace y x).
Proof.
  intros Hno.
  destruct (shouldReplace x y) eqn:Hxy, (shouldReplace y x) eqn:Hyx;
    try reflexivity; exfalso.
  - apply shouldReplace_true in Hxy, Hyx.
    destruct Hxy as [Hxy|[Hxy1 Hxy2]], Hyx as [Hyx|[Hyx1 Hyx2]].
    + apply (Qlt_irrefl (averageRating x)).
      now apply Qlt_trans with (y := averageRating y).
    + rewrite Hyx1 in Hxy. now apply Qlt_irrefl in Hxy.
    + rewrite Hxy1 in Hyx. now apply Qlt_irrefl in Hyx.
    + lia.
  - apply not_true_iff_false in Hxy, Hyx. rewrite shouldReplace_true in *.
    apply Hno. unfold tie.
    destruct (Q_dec (averageRating x) (averageRating y)) as [[Hlt|Hgt]|Heq].
    + tauto.
    + tauto.
    + split; [assumption|].
      destruct (Nat.lt_trichotomy (length (description x))
                  (length (description y))) as [H|[H|H]];
        [exfalso; apply Hxy; right; split; [now symmetry | assumption]
        | assumption
        | exfalso; apply Hyx; right; split; assumption].
Qed.

(** C3 (as amended).  Two raw books with the same canonical key, neither
    skipped, merged into a map that does not hold the key yet.  In both
    orders the map gains one entry under the key; its source-genre ids are
    the ids of the two genres (the same set in both orders), and so for the
    names; its descriptive fields are those of the second book when the
    second has the higher rating, or the same rating and the longer
    description, and those of the first book otherwise.  Hence both orders
    keep the same descriptive fields unless the books tie on rating and on
    description length, when each order keeps the book it saw first.
    Merging the two books a second time, in either order, changes
    nothing. *)
Theorem C3_merge_two (m : list (jsstring * CandidateBook))
  (ugx ugy : UserGenre) (x y : CandidateBook) :
  accepted excl x -> accepted excl y ->
  normalizedCandidateKey rt x = normalizedCandidateKey rt y ->
  Map_get m (normalizedCandidateKey rt x) = None ->
  exists kxy kyx,
    mergeTwo rt excl ugx x ugy y m = m ++ [(normalizedCandidateKey rt x, kxy)]
    /\ mergeTwo rt excl ugy y ugx x m = m ++ [(normalizedCandidateKey rt x, kyx)]
    /\ (forall g, In g (sourceGenreIds kxy)
                  <-> (g = id (genre ugx) \/ g = id (genre ugy)) /\ g <> 0%Z)
    /\ (forall g, In g (sourceGenreIds kxy) <-> In g (sourceGenreIds kyx))
    /\ (forall n, In n (sourceGenreNames kxy) <-> In n (sourceGenreNames kyx))
    /\ descriptive kxy
       = (if shouldReplace x y then descriptive y else descriptive x)
    /\ descriptive kyx
       = (if shouldReplace y x then descriptive x else descriptive y)
    /\ (~ tie x y -> descriptive kxy = descriptive kyx)
    /\ (tie x y -> descriptive kxy = descriptive x
                   /\ descriptive kyx = descriptive y)
    /\ mergeTwo rt excl ugx x ugy y (mergeTwo rt excl ugx x ugy y m)
       = mergeTwo rt excl ugx x ugy y m
    /\ mergeTwo rt excl ugy y ugx x (mergeTwo rt excl ugy y ugx x m)
       = mergeTwo rt excl ugy y ugx x m.
Proof.
  intros Hx Hy Hkey Hget.
  exists (keptOf ugx x ugy y), (keptOf ugy y ugx x).
  split; [now apply mergeTwo_fresh|].
  split; [rewrite Hkey; apply mergeTwo_fresh; congruence|].
  split; [apply keptOf_ids|].
  split; [intros g; rewrite !keptOf_ids; tauto|].
  split; [intros n; rewrite !keptOf_names_iff; tauto|].
  split; [apply keptOf_descriptive|].
  split; [apply keptOf_descriptive|].
  split.
  { intros Hno. rewrite !keptOf_descriptive.
    rewrite (shouldReplace_total x y Hno).
    now destruct (shouldReplace y x). }
  split.
  { intros Ht. rewrite !keptOf_descriptive.
    destruct (shouldReplace_tie x y Ht) as [-> ->]. now split. }
  split; apply mergeTwo_idempotent; congruence.
Qed.

End WithRuntime.

(** C3, witness: the scenario of the specification.  The first book has
    rating 3.5, the second 4.0; the merged record is the second one, with
    the genres of both. *)
Lemma C3_merge_two_witness :
  accepted [] Demo.ratedLow /\ accepted [] Demo.ratedHigh
  /\ normalizedCandidateKey Demo.asciiRuntime Demo.ratedLow
     = normalizedCandidateKey Demo.asciiRuntime Demo.ratedHigh
  /\ exists kxy kyx,
       mergeTwo Demo.asciiRuntime [] Demo.ugFiction Demo.ratedLow
         Demo.ugScienceFiction Demo.ratedHigh []
       = [(str "dune|frank herbert", kxy)]
       /\ mergeTwo Demo.asciiRuntime [] Demo.ugScienceFiction
            Demo.ratedHigh Demo.ugFiction Demo.ratedLow []
          = [(str "dune|frank herbert", kyx)]
       /\ descriptive kxy = descriptive Demo.ratedHigh
       /\ descriptive kyx = descriptive Demo.ratedHigh
       /\ (forall g, In g (sourceGenreIds kxy) <-> In g (sourceGenreIds kyx)).
Proof.
  assert (Hx : accepted [] Demo.ratedLow) by (split; reflexivity).
  assert (Hy : accepted [] Demo.ratedHigh) by (split; reflexivity).
  assert (Hkey : normalizedCandidateKey Demo.asciiRuntime Demo.ratedLow
                 = normalizedCandidateKey Demo.asciiRuntime
                     Demo.ratedHigh)
    by reflexivity.
  split; [exact Hx|]. split; [exact Hy|]. split; [exact Hkey|].
  destruct (C3_merge_two Demo.asciiRuntime [] []
              Demo.ugFiction Demo.ugScienceFiction
              Demo.ratedLow Demo.ratedHigh Hx Hy Hkey eq_refl)
    as (kxy & kyx & E1 & E2 & _ & Hids & _ & D1 & D2 & _).
  exists kxy, kyx.
  split; [exact E1|]. split; [exact E2|].
  split; [exact D1|]. split; [exact D2|]. exact Hids.
Defined.

(** C3, counterexample to the claim as stated: two editions under the same
    key, no rating, descriptions of the same length.  Merged in one order
    the first edition is kept, merged in the other order the second. *)
Lemma C3_order_matters_on_ties :
  normalizedCandidateKey Demo.asciiRuntime Demo.tiedA
  = normalizedCandidateKey Demo.asciiRuntime Demo.tiedB
  /\ map (fun e => googleBooksId (snd e))
       (mergeTwo Demo.asciiRuntime [] Demo.ugFiction Demo.tiedA
          Demo.ugFiction Demo.tiedB [])
     = [str "A"]
  /\ map (fun e => googleBooksId (snd e))
       (mergeTwo Demo.asciiRuntime [] Demo.ugFiction Demo.tiedB
          Demo.ugFiction Demo.tiedA [])
     = [str "B"]
  /\ map (fun e => descriptive (snd e))
       (mergeTwo Demo.asciiRuntime [] Demo.ugFiction Demo.tiedA
          Demo.ugFiction Demo.tiedB [])
     <> map (fun e => descriptive (snd e))
          (mergeTwo Demo.asciiRuntime [] Demo.ugFiction Demo.tiedB
             Demo.ugFiction Demo.tiedA []).
Proof.
  repeat split; try reflexivity.
  vm_compute. discriminate.
Qed.

End MergeFacts.

(* ================================================================== *)
(** * Sorting *)
(* ================================================================== *)

Module SortFacts.

Section Sort.
Context {A : Type}.
Variable cmp : A -> A -> Q.

Lemma insert_perm (x : A) (l : list A) : Permutation (insert cmp x l) (x :: l).
Proof.
  induction l as [|y l IH]; simpl; [reflexivity|].
  destruct (Qle_bool (cmp x y) 0); [reflexivity|].
  rewrite IH. apply perm_swap.
Qed.

Lemma sort_perm (l : list A) : Permutation (sort cmp l) l.
Proof.
  induction l as [|x l IH]; simpl; [reflexivity|].
  rewrite insert_perm. now constructor.
Qed.

Lemma sort_length (l : list A) : length (sort cmp l) = length l.
Proof. apply Permutation_length, sort_perm. Qed.

(** Elements that the comparator never puts after one another keep their
    order: the sort is stable. *)
Lemma insert_filter (p : A -> bool) (x : A) (l : list A) :
  (forall y, In y l -> p x = true -> p y = true -> cmp x y <= 0) ->
  filter p (insert cmp x l) = filter p (x :: l).
Proof.
  induction l as [|y l IH]; intros Hp; [reflexivity|].
  cbn [insert]. destruct (Qle_bool (cmp x y) 0) eqn:E; [reflexivity|].
  cbn [filter]. rewrite IH by (intros z Hz; apply Hp; now right).
  cbn [filter]. destruct (p x) eqn:Hx, (p y) eqn:Hy; try reflexivity.
  exfalso. apply not_true_iff_false in E. apply E, Qle_bool_iff.
  apply Hp; [now left | reflexivity | assumption].
Qed.

Lemma sort_filter (p : A -> bool) (l : list A) :
  (forall x y, p x = true -> p y = true -> cmp x y <= 0) ->
  filter p (sort cmp l) = filter p l.
Proof.
  intros Hp. induction l as [|x l IH]; [reflexivity|].
  cbn [sort]. rewrite insert_filter by (intros; now apply Hp).
  cbn [filter]. now rewrite IH.
Qed.

(** With a consistent comparator the result is sorted. *)
Hypothesis cmp_total : forall x y, 0 < cmp x y -> cmp y x <= 0.
Hypothesis cmp_trans : forall x y z, cmp x y <= 0 -> cmp y z <= 0 -> cmp x z <= 0.

Lemma insert_sorted (x : A) (l : list A) :
  StronglySorted (notAfter cmp) l -> StronglySorted (notAfter cmp) (insert cmp x l).
Proof.
  induction l as [|y l IH]; intros Hl; simpl.
  - repeat constructor.
  - inversion Hl as [|? ? Hl' Hy]; subst.
    destruct (Qle_bool (cmp x y) 0) eqn:E.
    + apply Qle_bool_iff in E. constructor; [assumption|].
      constructor; [exact E|].
      apply Forall_forall. intros z Hz.
      apply cmp_trans with (y := y); [exact E|].
      now apply (proj1 (Forall_forall _ _) Hy).
    + constructor; [now apply IH|].
      assert (Hyx : cmp y x <= 0).
      { apply cmp_total. apply Qnot_le_lt. intros H.
        apply Qle_bool_iff in H. congruence. }
      apply Forall_forall. intros z Hz.
      apply (Permutation_in _ (insert_perm x l)) in Hz.
      destruct Hz as [<-|Hz]; [exact Hyx|].
      now apply (proj1 (Forall_forall _ _) Hy).
Qed.

Lemma sort_sorted (l : list A) : StronglySorted (notAfter cmp) (sort cmp l).
Proof.
  induction l as [|x l IH]; simpl; [constructor | now apply insert_sorted].
Qed.

End Sort.

(** In a strongly sorted list an earlier element is related to every
    later one. *)
Lemma StronglySorted_nth {A} (R : A -> A -> Prop) (l : list A) :
  StronglySorted R l ->
  forall i j x y, (i < j)%nat -> nth_error l i = Some x ->
                  nth_error l j = Some y -> R x y.
Proof.
  induction 1 as [|a l Hl IH Ha]; intros i j x y Hij Hi Hj.
  - destruct i; discriminate.
  - destruct j as [|j]; [lia|]. cbn in Hj. destruct i as [|i]; cbn in Hi.
    + inversion Hi; subst.
      apply (proj1 (Forall_forall _ _) Ha). now apply nth_error_In with (n := j).
    + apply (IH i j); [lia | assumption | assumption].
Qed.

End SortFacts.

(* ================================================================== *)
(** * Running the handlers *)
(* ================================================================== *)

Module EffectsFacts.
Import Effects.

Section Monad.
Variable W : Type.

Lemma total_ret {A} (a : A) : total (W := W) (ret a).
Proof. intros st. now exists a, st. Qed.

Lemma total_bind {A B} (m : M W A) (k : A -> M W B) :
  total m -> (forall a, total (k a)) -> total (bind m k).
Proof.
  intros Hm Hk st. destruct (Hm st) as (a & st1 & E).
  unfold bind. rewrite E. apply Hk.
Qed.

Lemma total_tryCatch {A} (m : M W A) (h : Error -> M W A) :
  (forall e, total (h e)) -> total (tryCatch m h).
Proof.
  intros Hh st. unfold tryCatch.
  destruct (m st) as [[a|e] st1]; [now exists a, st1 | apply Hh].
Qed.

Lemma total_mapM {A B} (f : A -> M W B) (l : list A) :
  (forall x, total (f x)) -> total (mapM f l).
Proof.
  intros Hf. induction l as [|x l IH]; cbn [mapM].
  - apply total_ret.
  - apply total_bind; [apply Hf|]. intros y.
    apply total_bind; [apply IH|]. intros ys. apply total_ret.
Qed.

Lemma mapM_Runs {A B} (f : A -> M W B) (l : list A) : forall st ys st',
  mapM f l st = (Ok ys, st') <-> Runs f l st ys st'.
Proof.
  induction l as [|x l IH]; intros st ys st'; cbn [mapM].
  - unfold ret. split.
    + intros [= <- <-]. constructor.
    + intros H. inversion H; subst. reflexivity.
  - unfold bind at 1. split.
    + destruct (f x st) as [[y|e] st1] eqn:E; [|discriminate].
      unfold bind. destruct (mapM f l st1) as [[ys1|e] st2] eqn:E2;
        [|discriminate].
      unfold ret. intros [= <- <-].
      econstructor; [exact E|]. now apply IH.
    + intros H. inversion H as [|? ? y ys1 ? st1 st2 Hx Hl]; subst.
      rewrite Hx. unfold bind. apply IH in Hl. rewrite Hl. reflexivity.
Qed.

End Monad.

End EffectsFacts.

(* ================================================================== *)
(** * The Affinity Scorer and the Selector *)
(* ================================================================== *)

Module ScoringFacts.
Import JSFacts NumberFacts SortFacts Effects EffectsFacts Recommendations.

Lemma countIntersection_le (a b : list Z) :
  (countIntersection a b <= Set_size a)%nat.
Proof. apply filter_length_le. Qed.

(** The loop of [countIntersection] counts the elements of [a] that are
    elements of [b]. *)
Lemma countIntersection_overlap (a b : list Z) :
  countIntersection a b = Notions.overlap a b.
Proof.
  unfold countIntersection, Notions.overlap. f_equal.
  apply filter_ext. intros g.
  destruct (in_dec Z.eq_dec g b) as [H|H].
  - now apply Set_has_In.
  - now apply Set_has_notIn.
Qed.

Lemma overlap_none (a b : list Z) :
  Notions.overlap a b = 0%nat <-> forall g, In g a -> ~ In g b.
Proof.
  unfold Notions.overlap. induction a as [|x a IH]; cbn [filter length].
  - split; [intros _ g []|reflexivity].
  - destruct (in_dec Z.eq_dec x b) as [H|H]; cbn [length].
    + split; [discriminate|]. intros Hn. exfalso.
      apply (Hn x); [now left|assumption].
    + rewrite IH. split.
      * intros Hn g [<-|Hg]; [assumption|now apply Hn].
      * intros Hn g Hg. apply Hn. now right.
Qed.

Lemma overlap_all (a b : list Z) :
  (forall g, In g a -> In g b) -> Notions.overlap a b = length a.
Proof.
  unfold Notions.overlap. induction a as [|x a IH]; intros Hall;
    cbn [filter length]; [reflexivity|].
  destruct (in_dec Z.eq_dec x b) as [H|H].
  - cbn [length]. f_equal. apply IH. intros g Hg. apply Hall. now right.
  - exfalso. apply H, Hall. now left.
Qed.

Lemma ratio_zero (m n : nat) :
  (0 < n)%nat ->
  (fdiv (inject_Z (Z.of_nat m)) (inject_Z (Z.of_nat n)) == 0 <-> m = 0%nat).
Proof.
  intros Hn.
  assert (Hn' : 0 < inject_Z (Z.of_nat n)).
  { change 0 with (inject_Z 0). rewrite <- Zlt_Qlt. lia. }
  unfold fdiv.
  rewrite (proj2 (proj2 (round64_sign
             (inject_Z (Z.of_nat m) / inject_Z (Z.of_nat n))))).
  split.
  - intros E. destruct m as [|m]; [reflexivity|exfalso].
    assert (Hm : 0 < inject_Z (Z.of_nat (S m))).
    { change 0 with (inject_Z 0). rewrite <- Zlt_Qlt. lia. }
    assert (H : 0 < inject_Z (Z.of_nat (S m)) / inject_Z (Z.of_nat n)).
    { apply Qlt_shift_div_l; [assumption|]. now rewrite Qmult_0_l. }
    rewrite E in H. now apply Qlt_irrefl in H.
  - intros ->. cbn [Z.of_nat]. unfold Qdiv. apply Qmult_0_l.
Qed.

Lemma ratio_one (n : nat) :
  (0 < n)%nat ->
  fdiv (inject_Z (Z.of_nat n)) (inject_Z (Z.of_nat n)) == 1.
Proof.
  intros Hn.
  assert (Hn' : ~ inject_Z (Z.of_nat n) == 0).
  { intros E. change 0 with (inject_Z 0) in E.
    apply (proj1 (inject_Z_injective _ _)) in E. lia. }
  unfold fdiv. rewrite (round64_comp _ 1); [reflexivity|].
  now apply Qmult_inv_r.
Qed.

(** The genre score, by the ratio. *)
Lemma genreScore_bounds (q : Q) :
  0 <= q <= 1 ->
  double 0.6 <= fadd (double 0.6) (fmul (double 0.4) q) <= 1.
Proof.
  intros [H0 H1].
  assert (D4 : 0 <= double 0.4) by closed_number.
  assert (D6 : 0 <= double 0.6) by closed_number.
  assert (P0 : 0 <= fmul (double 0.4) q) by now apply fmul_nonneg.
  assert (P1 : fmul (double 0.4) q <= double 0.4).
  { apply Qle_trans with (fmul (double 0.4) 1).
    - apply fmul_le; try assumption. apply Qle_refl.
    - closed_number. }
  split.
  - apply Qle_trans with (fadd (double 0.6) 0).
    + closed_number.
    + apply fadd_le; try assumption; try apply Qle_refl.
  - apply Qle_trans with (fadd (double 0.6) (double 0.4)).
    + apply fadd_le; try assumption; apply Qle_refl.
    + closed_number.
Qed.

Section WithRuntime.
Variable rt : Runtime.

Lemma genreScore_range (ctx : ScoringContext) (c : CandidateBook) :
  (genreIds (scoreCandidate rt ctx c) = [] ->
   genreScore (scoreCandidate rt ctx c) = 0)
  /\ (genreIds (scoreCandidate rt ctx c) <> [] ->
      double 0.6 <= genreScore (scoreCandidate rt ctx c) <= 1).
Proof.
  unfold scoreCandidate. cbv zeta. cbn [genreIds genreScore].
  set (eff := effectiveGenreIds rt ctx c).
  pose proof (countIntersection_le eff (preferredGenreIds ctx)) as Hle.
  unfold Set_size in *.
  destruct eff as [|g eff'] eqn:Heff.
  - split; [reflexivity|congruence].
  - split; [discriminate|]. intros _.
    assert (Hn : (0 < length (g :: eff'))%nat) by (cbn; lia).
    apply Nat.ltb_lt in Hn as Hb. rewrite Hb.
    apply genreScore_bounds. now apply fdiv_bounds.
Qed.

(** C4.  The genre score of a scored candidate is 0 exactly when its
    effective genre set is empty.  Otherwise it is 0.6 + 0.4 x the overlap
    ratio, and the overlap ratio is the number of effective genres that are
    preferred ones, divided by the number of effective genres: it lies
    between 0 and 1, is 0 exactly when no effective genre is preferred, and
    is 1 when all are.  So the genre score is 0, or lies between 0.6 and 1,
    with 0.6 when no effective genre is preferred and 1 when all are.  The
    numbers are those of the program: 0.6 and 0.4 are the binary64
    constants, and each operation rounds. *)
Theorem C4_genre_score (ctx : ScoringContext) (c : CandidateBook) :
  let r := scoreCandidate rt ctx c in
  let shared := Notions.overlap (genreIds r) (preferredGenreIds ctx) in
  genreIds r = effectiveGenreIds rt ctx c
  /\ (genreScore r == 0 <-> genreIds r = [])
  /\ (genreIds r = [] -> genreScore r = 0 /\ genreOverlapRatio r = 0)
  /\ (genreIds r <> [] ->
      genreScore r
      = fadd (double 0.6) (fmul (double 0.4) (genreOverlapRatio r))
      /\ genreOverlapRatio r
         = fdiv (inject_Z (Z.of_nat shared))
                (inject_Z (Z.of_nat (length (genreIds r))))
      /\ (shared <= length (genreIds r))%nat
      /\ (genreOverlapRatio r == 0
          <-> forall g, In g (genreIds r) -> ~ In g (preferredGenreIds ctx))
      /\ ((forall g, In g (genreIds r) -> ~ In g (preferredGenreIds ctx)) ->
          genreScore r == double 0.6)
      /\ ((forall g, In g (genreIds r) -> In g (preferredGenreIds ctx)) ->
          genreOverlapRatio r == 1 /\ genreScore r == 1))
  /\ 0 <= genreOverlapRatio r <= 1
  /\ (genreScore r == 0 \/ double 0.6 <= genreScore r <= 1).
Proof.
  cbv zeta. unfold scoreCandidate. cbv zeta.
  cbn [genreIds genreScore genreOverlapRatio].
  set (eff := effectiveGenreIds rt ctx c).
  pose proof (countIntersection_le eff (preferredGenreIds ctx)) as Hle.
  rewrite (countIntersection_overlap eff (preferredGenreIds ctx)) in *.
  pose proof (overlap_none eff (preferredGenreIds ctx)) as Hnone.
  pose proof (overlap_all eff (preferredGenreIds ctx)) as Hall.
  set (k := Notions.overlap eff (preferredGenreIds ctx)) in *.
  unfold Set_size in *.
  destruct eff as [|g eff'] eqn:Heff.
  - cbn [length Nat.ltb Nat.leb].
    repeat split; try reflexivity; try discriminate; try congruence.
    left. reflexivity.
  - set (n := length (g :: eff')) in *.
    assert (Hn : (0 < n)%nat) by (subst n; cbn; lia).
    apply Nat.ltb_lt in Hn as Hb. rewrite Hb.
    pose proof (fdiv_bounds k n Hle Hn) as Hq.
    pose proof (ratio_zero k n Hn) as Hz.
    set (q := fdiv (inject_Z (Z.of_nat k)) (inject_Z (Z.of_nat n))) in *.
    pose proof (genreScore_bounds q Hq) as [G0 G1].
    assert (D : 0 < double 0.6) by closed_number.
    split; [reflexivity|]. split.
    { split; [|discriminate]. intros E. exfalso. rewrite E in G0.
      apply (Qlt_irrefl 0). eapply Qlt_le_trans; eassumption. }
    split; [discriminate|].
    split.
    { intros _. split; [reflexivity|]. split; [reflexivity|].
      split; [exact Hle|]. split; [now rewrite Hz, Hnone|]. split.
      - intros Hno. apply Hnone, Hz in Hno. unfold fadd, fmul.
        rewrite (round64_comp (double 0.6 + round64 (double 0.4 * q))
                              (double 0.6)); [reflexivity|].
        rewrite (round64_comp (double 0.4 * q) 0); [reflexivity|].
        rewrite Hno. ring.
      - intros Hyes. apply Hall in Hyes. fold n in Hyes.
        assert (E1 : q == 1).
        { subst q. rewrite Hyes. now apply ratio_one. }
        split; [exact E1|]. unfold fadd, fmul.
        rewrite (round64_comp (double 0.6 + round64 (double 0.4 * q)) 1);
          [reflexivity|].
        rewrite (round64_comp (double 0.4 * q) (double 0.4));
          [reflexivity|].
        rewrite E1. ring. }
    split; [exact Hq|].
    right. split; assumption.
Qed.

End WithRuntime.

(** The sum of the three weights, as the total score adds its terms: from
    left to right, each sum rounded. *)
Lemma weightsFor_nonneg (finishedCount : nat) :
  0 <= w_genre (weightsFor finishedCount)
  /\ 0 <= w_finished (weightsFor finishedCount)
  /\ 0 <= w_toRead (weightsFor finishedCount).
Proof.
  unfold weightsFor, weightLiterals.
  destruct (0 <? finishedCount)%nat; cbn [w_genre w_finished w_toRead];
    repeat split; closed_number.
Qed.

(** C5 (as amended).  The decimals that the source writes for the weights
    sum to 1 in both regimes (0.35, 0.40 and 0.25 when the finished shelf
    holds a book, 0.70, 0.20 and 0.10 when it is empty), and each weight is
    the binary64 value of its decimal.  Added as numbers of the program,
    from left to right, the weights sum to 1 when the finished shelf holds
    a book, and to 1 - 2^-53 (printed 0.9999999999999999) when it is
    empty. *)
Theorem C5_weights_sum (finishedCount : nat) :
  let literals := weightLiterals finishedCount in
  let w := weightsFor finishedCount in
  let sum := fadd (fadd (w_genre w) (w_finished w)) (w_toRead w) in
  w_genre literals + w_finished literals + w_toRead literals == 1
  /\ w = {| w_genre := double (w_genre literals);
            w_finished := double (w_finished literals);
            w_toRead := double (w_toRead literals) |}
  /\ ((0 < finishedCount)%nat ->
      literals = {| w_genre := 0.35; w_finished := 0.40; w_toRead := 0.25 |}
      /\ sum == 1)
  /\ (finishedCount = 0%nat ->
      literals = {| w_genre := 0.70; w_finished := 0.20; w_toRead := 0.10 |}
      /\ sum == 1 - (1 # 9007199254740992))
  /\ 1 - (1 # 9007199254740992) <= sum <= 1.
Proof.
  cbv zeta. unfold weightsFor, weightLiterals.
  destruct finishedCount as [|n]; cbn [Nat.ltb Nat.leb w_genre w_finished
    w_toRead].
  - split; [reflexivity|]. split; [reflexivity|].
    split; [intros H; inversion H|].
    split; [intros _; split; [reflexivity|closed_number]|].
    split; closed_number.
  - split; [reflexivity|]. split; [reflexivity|].
    split; [intros _; split; [reflexivity|closed_number]|].
    split; [discriminate|].
    split; closed_number.
Qed.

(** C5, counterexample to the claim as stated: with an empty finished
    shelf the three weights do not sum to 1.0.  The sum of the program is
    below 1, in the arithmetic of the model and in that of the processor,
    and so is the exact sum of the three binary64 values. *)
Lemma C5_weights_sum_below_one :
  fadd (fadd (w_genre (weightsFor 0)) (w_finished (weightsFor 0)))
       (w_toRead (weightsFor 0))
  < 1
  /\ w_genre (weightsFor 0) + w_finished (weightsFor 0)
     + w_toRead (weightsFor 0)
     < 1
  /\ PrimFloat.ltb
       (PrimFloat.add
          (PrimFloat.add (binary64 0.70) (binary64 0.20)) (binary64 0.10))
       (binary64 1)
     = true
  /\ rational
       (PrimFloat.add
          (PrimFloat.add (binary64 0.70) (binary64 0.20)) (binary64 0.10))
     = Some (9007199254740991 # 9007199254740992).
Proof. repeat split; vm_compute; reflexivity. Qed.

Lemma byScoreDescending_le (a b : ScoredCandidate) :
  byScoreDescending a b <= 0 <-> score b <= score a.
Proof. unfold byScoreDescending. apply (proj1 (fsub_sign _ _)). Qed.

Lemma byScoreDescending_gt (a b : ScoredCandidate) :
  0 < byScoreDescending a b <-> score a < score b.
Proof. unfold byScoreDescending. apply (proj2 (fsub_sign _ _)). Qed.

Lemma byScoreDescending_total (a b : ScoredCandidate) :
  0 < byScoreDescending a b -> byScoreDescending b a <= 0.
Proof.
  rewrite byScoreDescending_gt, byScoreDescending_le. apply Qlt_le_weak.
Qed.

Lemma byScoreDescending_trans (a b c : ScoredCandidate) :
  byScoreDescending a b <= 0 -> byScoreDescending b c <= 0 ->
  byScoreDescending a c <= 0.
Proof.
  rewrite !byScoreDescending_le. intros H1 H2. eapply Qle_trans; eassumption.
Qed.

Section WithWorld.
Variable rt : Runtime.
Variable W : Type.
Variable sv : Services W.

(** A response of the scoring path is the ranked selection, in order. *)
Lemma recommend_response (g : Gathered) (st st' : State W)
  (resp : Response CandidateBook) :
  recommend rt sv g st = (Ok resp, st') ->
  exists allGenres existing,
    resp = {| status := 200;
              body := JsonBooks
                (map (responseBook allGenres)
                   (rankTop
                      (map (scoreCandidate rt
                              (scoringContextOf rt g allGenres existing))
                           (g_candidates g)))) |}.
Proof.
  unfold recommend, bind, perform, emit, ret.
  destruct (respond sv GenreFindMany (world st)) as [[allGenres|e] w1];
    [|discriminate].
  cbn [world trace].
  destruct (respond sv (BookFindMany _) w1) as [[existing|e] w2];
    [|discriminate].
  cbn [world trace].
  destruct (mapM _ _ _) as [[done|e] st2]; [|discriminate].
  intros [= <- _]. now exists allGenres, existing.
Qed.

(** C6.  The ranked selector: the sorted sequence is a rearrangement of the
    scored candidates in which every candidate has a total score at least
    that of each later one, and candidates with the same total score stand
    in the order they had (the aggregator's); the selection is its first
    20 elements, all of them when there are no more than 20, and the
    response lists the selection in that order. *)
Theorem C6_ranked_selection (scored : list ScoredCandidate) :
  let sorted := sort byScoreDescending scored in
  Permutation sorted scored
  /\ StronglySorted (fun a b => score b <= score a) sorted
  /\ (forall i j a b, (i < j)%nat -> nth_error sorted i = Some a ->
        nth_error sorted j = Some b -> score b <= score a)
  /\ (forall v, filter (fun c => Qeq_bool (score c) v) sorted
                = filter (fun c => Qeq_bool (score c) v) scored)
  /\ rankTop scored = firstn 20 sorted
  /\ length (rankTop scored) = Nat.min 20 (length scored)
  /\ ((length scored <= 20)%nat -> rankTop scored = sorted)
  /\ (forall g st st' resp,
        recommend rt sv g st = (Ok resp, st') ->
        exists allGenres existing,
          body resp
          = JsonBooks
              (map (responseBook allGenres)
                 (rankTop
                    (map (scoreCandidate rt
                            (scoringContextOf rt g allGenres existing))
                         (g_candidates g))))).
Proof.
  cbv zeta.
  assert (Hs : StronglySorted (fun a b => score b <= score a)
                 (sort byScoreDescending scored)).
  { pose proof (sort_sorted byScoreDescending byScoreDescending_total
                  byScoreDescending_trans scored) as H.
    induction H as [|a l Hl IH Ha]; constructor; [assumption|].
    apply Forall_forall. intros b Hb.
    apply (proj1 (Forall_forall _ _) Ha) in Hb.
    unfold notAfter in Hb. now apply byScoreDescending_le in Hb. }
  split; [apply sort_perm|]. split; [exact Hs|].
  split; [apply (StronglySorted_nth _ _ Hs)|].
  split.
  { intros v. apply sort_filter. intros x y Hx Hy.
    apply Qeq_bool_iff in Hx, Hy. apply byScoreDescending_le. lra. }
  split; [reflexivity|].
  split.
  { unfold rankTop, slice0. now rewrite length_firstn, sort_length. }
  split.
  { intros Hlen. unfold rankTop, slice0. apply firstn_all2.
    now rewrite sort_length. }
  intros g st st' resp Hrun.
  destruct (recommend_response g st st' resp Hrun) as (ag & ex & ->).
  now exists ag, ex.
Qed.

End WithWorld.

End ScoringFacts.

(* ================================================================== *)
(** * Cover lookups *)
(* ================================================================== *)

Module CoverFacts.
Import JSFacts SortFacts Effects EffectsFacts.

Lemma filterSome_In {A} (l : list (option A)) (x : A) :
  In x (Recommendations.filterSome l) <-> In (Some x) l.
Proof.
  induction l as [|[y|] l IH]; simpl.
  - tauto.
  - rewrite IH. intuition congruence.
  - rewrite IH. intuition congruence.
Qed.

Section WithWorld.
Variable rt : Runtime.
Variable W : Type.
Variable sv : Services W.

Lemma fetchOpenLibraryCover_total (title : option jsstring)
  (author : jsstring) :
  total (Recommendations.fetchOpenLibraryCover sv title author).
Proof. apply total_tryCatch. intros e. apply total_ret. Qed.

Lemma fetchOpenLibraryCover_failure (title : option jsstring)
  (author : jsstring) (st : State W) (e : Error) (w' : W) :
  respond sv (OpenLibrarySearch title author) (world st) = (Throw e, w') ->
  Recommendations.fetchOpenLibraryCover sv title author st
  = (Ok None,
     {| world := w';
        trace := trace st ++ [Called (OpenLibrarySearch title author)] |}).
Proof.
  intros Hr. unfold Recommendations.fetchOpenLibraryCover, tryCatch, bind,
    perform. now rewrite Hr.
Qed.

Lemma fetchOpenLibraryCover_no_cover (title : option jsstring)
  (author : jsstring) (st : State W) (docs : option (list Doc)) (w' : W) :
  respond sv (OpenLibrarySearch title author) (world st) = (Ok docs, w') ->
  match docs with
  | None => True
  | Some docs => find Recommendations.isTruthyCover docs = None
  end ->
  Recommendations.fetchOpenLibraryCover sv title author st
  = (Ok None,
     {| world := w';
        trace := trace st ++ [Called (OpenLibrarySearch title author)] |}).
Proof.
  intros Hr Hdocs. unfold Recommendations.fetchOpenLibraryCover, tryCatch,
    bind, perform. rewrite Hr.
  destruct docs as [[|d docs]|]; try reflexivity.
  now rewrite Hdocs.
Qed.

(** ** The recommendations route *)

Lemma bookOfItem_no_cover (item : Item) (vi : VolumeInfo) (st st' : State W) :
  volumeInfo item = Some vi ->
  Recommendations.fetchOpenLibraryCover sv (vi_title vi)
    (Recommendations.firstAuthor vi) st = (Ok None, st') ->
  Recommendations.bookOfItem rt sv item st = (Ok None, st').
Proof.
  intros Hvi Hcover. unfold Recommendations.bookOfItem. rewrite Hvi.
  unfold bind, Recommendations.fetchCoverWithLimit. now rewrite Hcover.
Qed.

Lemma bookOfItem_total (item : Item) :
  volumeInfo item <> None -> total (Recommendations.bookOfItem rt sv item).
Proof.
  intros Hvi. unfold Recommendations.bookOfItem.
  destruct (volumeInfo item) as [vi|]; [|congruence].
  apply total_bind; [apply fetchOpenLibraryCover_total|].
  intros [coverUrl|]; [|apply total_ret].
  destruct (vi_description vi) as [description|]; [|apply total_ret].
  destruct (negb (truthy coverUrl) || negb (truthy description));
    [apply total_ret|].
  destruct (Recommendations.forbiddenTitle _ _); apply total_ret.
Qed.

Lemma bookOfItem_cover (item : Item) (st st' : State W)
  (b : Recommendations.CandidateBook) :
  Recommendations.bookOfItem rt sv item st = (Ok (Some b), st') ->
  truthy (Recommendations.coverUrl b) = true
  /\ exists vi,
       volumeInfo item = Some vi
       /\ Recommendations.fetchOpenLibraryCover sv (vi_title vi)
            (Recommendations.firstAuthor vi) st
          = (Ok (Some (Recommendations.coverUrl b)), st').
Proof.
  unfold Recommendations.bookOfItem.
  destruct (volumeInfo item) as [vi|]; [|discriminate].
  unfold bind, Recommendations.fetchCoverWithLimit.
  destruct (Recommendations.fetchOpenLibraryCover sv _ _ st)
    as [[[coverUrl|]|e] st1] eqn:Ecover; try discriminate.
  destruct (vi_description vi) as [description|]; [|discriminate].
  destruct (truthy coverUrl) eqn:Hc; [|discriminate]. cbn [negb orb].
  destruct (negb (truthy description)); [discriminate|].
  destruct (Recommendations.forbiddenTitle _ _); [discriminate|].
  unfold ret. intros [= <- <-]. split; [exact Hc|].
  exists vi. split; [reflexivity | exact Ecover].
Qed.

Lemma mapM_total_on {A B} (f : A -> M W B) (l : list A) :
  (forall x, In x l -> total (f x)) -> total (mapM f l).
Proof.
  induction l as [|x l IH]; intros Hf; cbn [mapM].
  - apply total_ret.
  - apply total_bind; [apply Hf; now left|]. intros y.
    apply total_bind; [apply IH; intros z Hz; apply Hf; now right|].
    intros ys. apply total_ret.
Qed.

Lemma Runs_In {A B} (f : A -> M W B) (l : list A) (st st' : State W)
  (ys : list B) (y : B) :
  Runs f l st ys st' -> In y ys ->
  exists x s s', In x l /\ f x s = (Ok y, s').
Proof.
  induction 1 as [|x l y0 ys st st1 st2 Hx Hl IH]; intros Hy; [destruct Hy|].
  destruct Hy as [->|Hy].
  - exists x, st, st1. split; [now left | assumption].
  - destruct (IH Hy) as (x' & s & s' & Hin & E).
    exists x', s, s'. split; [now right | assumption].
Qed.

Lemma fetchBooksFromGoogle_ok (query : jsstring) (maxResults : Z)
  (st : State W) (items : option (list Item)) (w1 : W) :
  respond sv (GoogleVolumes query maxResults) (world st) = (Ok items, w1) ->
  (forall item, In item (match items with Some l => l | None => [] end) ->
                volumeInfo item <> None) ->
  exists books st',
    Recommendations.fetchBooksFromGoogle rt sv query maxResults st
    = (Ok books, st')
    /\ forall b, In b books -> truthy (Recommendations.coverUrl b) = true.
Proof.
  intros Hr Hitems. unfold Recommendations.fetchBooksFromGoogle.
  unfold bind at 1, perform. rewrite Hr.
  set (st1 := {| world := w1; trace := _ |}).
  destruct (mapM_total_on (Recommendations.bookOfItem rt sv) _
              (fun item Hin => bookOfItem_total item (Hitems item Hin)) st1)
    as (results & st2 & Hrun).
  unfold bind. rewrite Hrun. unfold ret.
  exists (Recommendations.filterSome results), st2. split; [reflexivity|].
  intros b Hb. apply filterSome_In in Hb. apply mapM_Runs in Hrun.
  destruct (Runs_In _ _ _ _ _ _ Hrun Hb) as (item & s & s' & _ & E).
  now apply bookOfItem_cover in E.
Qed.

(** ** The search route *)

Lemma fetchGoogleVolumeCategories_total (googleBooksId : jsstring) :
  total (Search.fetchGoogleVolumeCategories sv googleBooksId).
Proof. apply total_tryCatch. intros e. apply total_ret. Qed.

Lemma bookOfMetadata_no_cover (genres : list GenreMatch.GenreLite)
  (meta : Search.Metadata) (st st' : State W) :
  Search.fetchOpenLibraryCover sv (Some (Search.m_title meta))
    (Search.firstOrEmpty (Search.m_authorsList meta)) st = (Ok None, st') ->
  Search.bookOfMetadata rt sv genres meta st = (Ok None, st')
  /\ Search.bookOfMetadata1 rt sv meta st = (Ok None, st').
Proof.
  intros Hcover. unfold Search.bookOfMetadata, Search.bookOfMetadata1, bind,
    Search.fetchCoverWithLimit. now rewrite Hcover.
Qed.

Lemma bookOfMetadata_total (genres : list GenreMatch.GenreLite)
  (meta : Search.Metadata) :
  total (Search.bookOfMetadata rt sv genres meta).
Proof.
  unfold Search.bookOfMetadata.
  apply total_bind; [apply fetchOpenLibraryCover_total|].
  intros [coverUrl|]; [|apply total_ret].
  destruct (negb (truthy coverUrl) || negb (truthy (Search.m_description meta)));
    [apply total_ret|].
  destruct (Search.forbiddenTitle _ _); [apply total_ret|].
  apply total_bind; [apply fetchGoogleVolumeCategories_total|].
  intros cats. apply total_ret.
Qed.

Lemma bookOfMetadata1_total (meta : Search.Metadata) :
  total (Search.bookOfMetadata1 rt sv meta).
Proof.
  unfold Search.bookOfMetadata1.
  apply total_bind; [apply fetchOpenLibraryCover_total|].
  intros [coverUrl|]; [|apply total_ret].
  destruct (negb (truthy coverUrl) || negb (truthy (Search.m_description meta)));
    [apply total_ret|].
  destruct (Search.forbiddenTitle _ _); apply total_ret.
Qed.

Lemma bookOfMetadata_cover (genres : list GenreMatch.GenreLite)
  (meta : Search.Metadata) (st st' : State W) (b : Search.SearchBook) :
  Search.bookOfMetadata rt sv genres meta st = (Ok (Some b), st') ->
  truthy (Search.coverUrl b) = true.
Proof.
  unfold Search.bookOfMetadata, bind, Search.fetchCoverWithLimit.
  destruct (Search.fetchOpenLibraryCover sv _ _ st)
    as [[[coverUrl|]|e] st1]; try discriminate.
  destruct (truthy coverUrl) eqn:Hc; [|discriminate]. cbn [negb orb].
  destruct (negb (truthy (Search.m_description meta))); [discriminate|].
  destruct (Search.forbiddenTitle _ _); [discriminate|].
  destruct (Search.fetchGoogleVolumeCategoriesWithLimit sv _ st1)
    as [[cats|e] st2]; [|discriminate].
  unfold ret. intros [= <- _]. exact Hc.
Qed.

Lemma bookOfMetadata1_cover (meta : Search.Metadata) (st st' : State W)
  (b : Search.SearchBook) :
  Search.bookOfMetadata1 rt sv meta st = (Ok (Some b), st') ->
  truthy (Search.coverUrl b) = true.
Proof.
  unfold Search.bookOfMetadata1, bind, Search.fetchCoverWithLimit.
  destruct (Search.fetchOpenLibraryCover sv _ _ st)
    as [[[coverUrl|]|e] st1]; try discriminate.
  destruct (truthy coverUrl) eqn:Hc; [|discriminate]. cbn [negb orb].
  destruct (negb (truthy (Search.m_description meta))); [discriminate|].
  destruct (Search.forbiddenTitle _ _); [discriminate|].
  unfold ret. intros [= <- _]. exact Hc.
Qed.

(** The books that survive deduplication are among the given ones. *)
Lemma uniqueBooksMap_In (filteredBooks : list Search.SearchBook)
  (b : Search.SearchBook) :
  In b (Map_values (Search.uniqueBooksMap rt filteredBooks)) ->
  In b filteredBooks.
Proof.
  unfold Search.uniqueBooksMap.
  assert (H : forall l m,
             In b (Map_values
                     (fold_left
                        (fun m book =>
                           if Map_has m (Search.dedupKey rt book) then m
                           else Map_set m (Search.dedupKey rt book) book)
                        l m)) ->
             In b (Map_values m) \/ In b l).
  { induction l as [|x l IH]; intros m Hb; cbn [fold_left] in Hb.
    - now left.
    - apply IH in Hb. destruct Hb as [Hb|Hb]; [|right; now right].
      unfold Map_has in Hb.
      destruct (Map_get m (Search.dedupKey rt x)) eqn:Hget; [now left|].
      apply Map_get_None in Hget.
      rewrite (Map_set_fresh _ _ _ Hget) in Hb.
      unfold Map_values in Hb. rewrite map_app, in_app_iff in Hb.
      destruct Hb as [Hb|[<-|[]]]; [now left | right; now left]. }
  intros Hb. apply H in Hb. destruct Hb as [[]|Hb]. exact Hb.
Qed.

Lemma dedupeAndSort_In (filteredBooks : list Search.SearchBook)
  (b : Search.SearchBook) :
  In b (Search.dedupeAndSort rt filteredBooks) -> In b filteredBooks.
Proof.
  unfold Search.dedupeAndSort. intros Hb.
  apply (Permutation_in _ (sort_perm _ _)) in Hb.
  now apply uniqueBooksMap_In.
Qed.

Lemma fetchBooksWith_ok (callback : Search.Metadata -> M W (option Search.SearchBook))
  (query : jsstring) (maxResults : Z) (st : State W)
  (items : option (list Item)) (w1 : W) :
  (forall meta, total (callback meta)) ->
  (forall meta s s' b, callback meta s = (Ok (Some b), s') ->
                       truthy (Search.coverUrl b) = true) ->
  respond sv (GoogleVolumes query maxResults) (world st) = (Ok items, w1) ->
  exists books st',
    Search.fetchBooksWith rt sv callback query maxResults st = (Ok books, st')
    /\ forall b, In b books -> truthy (Search.coverUrl b) = true.
Proof.
  intros Htotal Hcover Hr. unfold Search.fetchBooksWith.
  unfold bind at 1, perform. rewrite Hr.
  set (st1 := {| world := w1; trace := _ |}).
  destruct items as [items|].
  - destruct (total_mapM _ callback (flat_map Search.metadataOf items)
                Htotal st1) as (results & st2 & Hrun).
    unfold bind. rewrite Hrun. unfold ret.
    eexists _, st2. split; [reflexivity|].
    intros b Hb. apply dedupeAndSort_In, filterSome_In in Hb.
    apply mapM_Runs in Hrun.
    destruct (Runs_In _ _ _ _ _ _ Hrun Hb) as (meta & s & s' & _ & E).
    now apply Hcover in E.
  - exists [], st1. split; [reflexivity|]. intros b [].
Qed.

(** C8.  A cover lookup never throws, and a failed upstream call, whatever
    its status, is a lookup without cover.  In both routes an item whose
    lookup yields no cover becomes [null], at no other cost, and [null]s
    are filtered out of the result.  Whatever the cover service does, once
    the metadata fetch has answered, [fetchBooksFromGoogle] returns (in the
    recommendations route for items that carry [volumeInfo], which the
    callback reads unguarded), and every book it returns has a cover. *)
Theorem C8_cover_failure :
  (forall title author, total (Recommendations.fetchOpenLibraryCover sv title author))
  /\ (forall title author st e w',
        respond sv (OpenLibrarySearch title author) (world st) = (Throw e, w') ->
        Recommendations.fetchOpenLibraryCover sv title author st
        = (Ok None,
           {| world := w';
              trace := trace st ++ [Called (OpenLibrarySearch title author)] |}))
  /\ (forall item vi st st',
        volumeInfo item = Some vi ->
        Recommendations.fetchOpenLibraryCover sv (vi_title vi)
          (Recommendations.firstAuthor vi) st = (Ok None, st') ->
        Recommendations.bookOfItem rt sv item st = (Ok None, st'))
  /\ (forall genres meta st st',
        Search.fetchOpenLibraryCover sv (Some (Search.m_title meta))
          (Search.firstOrEmpty (Search.m_authorsList meta)) st
        = (Ok None, st') ->
        Search.bookOfMetadata rt sv genres meta st = (Ok None, st')
        /\ Search.bookOfMetadata1 rt sv meta st = (Ok None, st'))
  /\ (forall A (results : list (option A)) x,
        In x (Recommendations.filterSome results) <-> In (Some x) results)
  /\ (forall query maxResults st items w1,
        respond sv (GoogleVolumes query maxResults) (world st) = (Ok items, w1) ->
        (forall item, In item (match items with Some l => l | None => [] end) ->
                      volumeInfo item <> None) ->
        exists books st',
          Recommendations.fetchBooksFromGoogle rt sv query maxResults st
          = (Ok books, st')
          /\ forall b, In b books -> truthy (Recommendations.coverUrl b) = true)
  /\ (forall query maxResults genres st items w1,
        respond sv (GoogleVolumes query maxResults) (world st) = (Ok items, w1) ->
        (exists books st',
           Search.fetchBooksFromGoogle rt sv query maxResults genres st
           = (Ok books, st')
           /\ forall b, In b books -> truthy (Search.coverUrl b) = true)
        /\ (exists books st',
              Search.fetchBooksFromGoogle1 rt sv query maxResults st
              = (Ok books, st')
              /\ forall b, In b books -> truthy (Search.coverUrl b) = true)).
Proof.
  split; [exact fetchOpenLibraryCover_total|].
  split; [exact fetchOpenLibraryCover_failure|].
  split; [exact bookOfItem_no_cover|].
  split; [exact bookOfMetadata_no_cover|].
  split; [intros A results x; apply filterSome_In|].
  split; [exact fetchBooksFromGoogle_ok|].
  intros query maxResults genres st items w1 Hr. split.
  - apply fetchBooksWith_ok with (items := items) (w1 := w1);
      [apply bookOfMetadata_total | apply bookOfMetadata_cover | exact Hr].
  - apply fetchBooksWith_ok with (items := items) (w1 := w1);
      [apply bookOfMetadata1_total | apply bookOfMetadata1_cover | exact Hr].
Qed.

End WithWorld.
End CoverFacts.

(* ================================================================== *)
(** * The search results *)
(* ================================================================== *)

Module SearchFacts.
Import JSFacts SortFacts Effects EffectsFacts Search.


Section WithRuntime.
Variable rt : Runtime.

(** The map of the deduplication loop files every book under its key, and
    holds no key twice. *)
Lemma uniqueBooksMap_keys (filteredBooks : list SearchBook) :
  NoDup (Map_keys (uniqueBooksMap rt filteredBooks))
  /\ map (dedupKey rt) (Map_values (uniqueBooksMap rt filteredBooks))
     = Map_keys (uniqueBooksMap rt filteredBooks).
Proof.
  unfold uniqueBooksMap.
  assert (H : forall l m,
             NoDup (Map_keys m) ->
             map (dedupKey rt) (Map_values m) = Map_keys m ->
             let m' := fold_left
                         (fun m book =>
                            if Map_has m (dedupKey rt book) then m
                            else Map_set m (dedupKey rt book) book) l m in
             NoDup (Map_keys m')
             /\ map (dedupKey rt) (Map_values m') = Map_keys m').
  { induction l as [|x l IH]; intros m Hnd Hk; cbn [fold_left].
    - now split.
    - apply IH.
      + unfold Map_has.
        destruct (Map_get m (dedupKey rt x)) eqn:Hget; [assumption|].
        apply Map_get_None in Hget. rewrite (Map_set_fresh _ _ _ Hget).
        unfold Map_keys in *. rewrite map_app. cbn [map fst].
        apply NoDup_app; [assumption | repeat constructor; intros [] |].
        intros a Ha [ <- |[]]. contradiction.
      + unfold Map_has.
        destruct (Map_get m (dedupKey rt x)) eqn:Hget; [assumption|].
        apply Map_get_None in Hget. rewrite (Map_set_fresh _ _ _ Hget).
        unfold Map_keys, Map_values in *. rewrite !map_app. cbn [map fst snd].
        now rewrite Hk. }
  apply (H filteredBooks []); [constructor | reflexivity].
Qed.

Lemma dedupeAndSort_keys (filteredBooks : list SearchBook) :
  NoDup (map (dedupKey rt) (dedupeAndSort rt filteredBooks)).
Proof.
  unfold dedupeAndSort.
  destruct (uniqueBooksMap_keys filteredBooks) as [Hnd Hk].
  apply (Permutation_NoDup
           (l := map (dedupKey rt) (Map_values (uniqueBooksMap rt filteredBooks)))).
  - apply Permutation_map. symmetry. apply sort_perm.
  - now rewrite Hk.
Qed.


(** The comparator of the sort, by cases. *)
Lemma byTitleThenAuthors_le (a b : SearchBook) :
  byTitleThenAuthors rt a b <= 0
  <-> (localeCompare rt (title a) (title b) < 0)%Z
      \/ (localeCompare rt (title a) (title b) = 0%Z
          /\ (localeCompare rt (authors a) (authors b) <= 0)%Z).
Proof.
  unfold byTitleThenAuthors.
  destruct (Z.eqb_spec (localeCompare rt (title a) (title b)) 0) as [E|E];
    cbn [negb]; change 0 with (inject_Z 0); rewrite <- Zle_Qle; lia.
Qed.

Lemma byTitleThenAuthors_gt (a b : SearchBook) :
  0 < byTitleThenAuthors rt a b
  <-> (0 < localeCompare rt (title a) (title b))%Z
      \/ (localeCompare rt (title a) (title b) = 0%Z
          /\ (0 < localeCompare rt (authors a) (authors b))%Z).
Proof.
  unfold byTitleThenAuthors.
  destruct (Z.eqb_spec (localeCompare rt (title a) (title b)) 0) as [E|E];
    cbn [negb]; change 0 with (inject_Z 0); rewrite <- Zlt_Qlt; lia.
Qed.

(** What [sort] asks of [localeCompare]: a consistent comparator. *)
Hypothesis localeCompare_flip : forall s t,
  (0 < localeCompare rt s t <-> localeCompare rt t s < 0)%Z.
Hypothesis localeCompare_trans : forall s t u,
  (localeCompare rt s t <= 0 -> localeCompare rt t u <= 0 ->
   localeCompare rt s u <= 0)%Z.

Lemma byTitleThenAuthors_total (a b : SearchBook) :
  0 < byTitleThenAuthors rt a b -> byTitleThenAuthors rt b a <= 0.
Proof.
  rewrite byTitleThenAuthors_gt, byTitleThenAuthors_le.
  pose proof (localeCompare_flip (title a) (title b)).
  pose proof (localeCompare_flip (title b) (title a)).
  pose proof (localeCompare_flip (authors a) (authors b)).
  pose proof (localeCompare_flip (authors b) (authors a)).
  lia.
Qed.

Lemma byTitleThenAuthors_trans (a b c : SearchBook) :
  byTitleThenAuthors rt a b <= 0 -> byTitleThenAuthors rt b c <= 0 ->
  byTitleThenAuthors rt a c <= 0.
Proof.
  rewrite !byTitleThenAuthors_le.
  pose proof (localeCompare_flip (title a) (title b)).
  pose proof (localeCompare_flip (title b) (title a)).
  pose proof (localeCompare_flip (title b) (title c)).
  pose proof (localeCompare_flip (title c) (title b)).
  pose proof (localeCompare_flip (title a) (title c)).
  pose proof (localeCompare_flip (title c) (title a)).
  pose proof (localeCompare_trans (title a) (title b) (title c)).
  pose proof (localeCompare_trans (title c) (title a) (title b)).
  pose proof (localeCompare_trans (title b) (title c) (title a)).
  pose proof (localeCompare_trans (authors a) (authors b) (authors c)).
  lia.
Qed.

Lemma dedupeAndSort_sorted (filteredBooks : list SearchBook) :
  StronglySorted (fun a b => byTitleThenAuthors rt a b <= 0)
    (dedupeAndSort rt filteredBooks).
Proof.
  unfold dedupeAndSort.
  apply (sort_sorted (byTitleThenAuthors rt) byTitleThenAuthors_total
           byTitleThenAuthors_trans).
Qed.





End WithRuntime.

(** Comparison by code units is a consistent comparator that tells all
    different strings apart. *)
Lemma compareUnits_flip (s t : jsstring) :
  (0 < Demo.compareUnits s t <-> Demo.compareUnits t s < 0)%Z.
Proof.
  revert t; induction s as [|x s IH]; intros [|y t]; cbn; try lia.
  rewrite (N.compare_antisym x y).
  destruct (N.compare x y); cbn; [apply IH | lia | lia].
Qed.

Lemma compareUnits_eq (s t : jsstring) :
  Demo.compareUnits s t = 0%Z -> s = t.
Proof.
  revert t; induction s as [|x s IH]; intros [|y t]; cbn; try lia;
    try reflexivity.
  destruct (N.compare_spec x y); try lia.
  intros E. f_equal; [assumption | now apply IH].
Qed.

Lemma compareUnits_trans (s t u : jsstring) :
  (Demo.compareUnits s t <= 0 -> Demo.compareUnits t u <= 0 ->
   Demo.compareUnits s u <= 0)%Z.
Proof.
  revert t u; induction s as [|x s IH]; intros [|y t] [|z u]; cbn; try lia.
  destruct (N.compare_spec x y), (N.compare_spec y z), (N.compare_spec x z);
    try lia; try (intros; lia); subst; try lia.
  apply IH.
Qed.



End SearchFacts.

(* ================================================================== *)
(** * The recommendation endpoint *)
(* ================================================================== *)

Module HandlerFacts.
Import JSFacts Effects EffectsFacts Recommendations.

Section WithWorld.
Variable rt : Runtime.
Variable W : Type.
Variable sv : Services W.

Lemma fetchHandler_valid (userIdParam : jsstring) (userId : Z) (st : State W) :
  parseInt rt userIdParam = Some userId -> userId <> 0%Z ->
  fetchHandler rt sv userIdParam st
  = tryCatch
      (bind (perform sv (UserGenreFindMany userId))
         (fun userGenres =>
            match userGenres with
            | [] => ret noGenres
            | _ :: _ =>
                bind (gather rt sv userId userGenres)
                  (fun g =>
                     match g_candidates g with
                     | [] => ret {| status := 200; body := JsonBooks [] |}
                     | _ :: _ => recommend rt sv g
                     end)
            end))
      (fun err => ret (failed err)) st.
Proof.
  intros Hp Hne. unfold fetchHandler. rewrite Hp.
  destruct userId; [congruence | reflexivity | reflexivity].
Qed.

(** C10.  A request for a user without preferred genres is answered with
    status 200 and the object with the message "User has no selected
    genres", in the ranked and in the round-robin version alike, and the
    run consists of the one query for the user's genres: no upstream fetch,
    no scoring, no write.  A request of a user with preferred genres for
    which aggregation leaves no candidate is answered with status 200 and
    the empty array. *)
Theorem C10_empty_outcomes :
  (forall userIdParam userId st w1,
      parseInt rt userIdParam = Some userId -> userId <> 0%Z ->
      respond sv (UserGenreFindMany userId) (world st) = (Ok [], w1) ->
      fetchHandler rt sv userIdParam st
      = (Ok noGenres, afterUserGenres st userId w1)
      /\ RoundRobin.fetchHandler rt sv userIdParam st
         = (Ok noGenres, afterUserGenres st userId w1))
  /\ (status noGenres = 200%Z
      /\ body noGenres = JsonMessage (str "User has no selected genres"))
  /\ (forall (st : State W) userId w1,
        trace (afterUserGenres st userId w1)
        = trace st ++ [Called (UserGenreFindMany userId)]
        /\ isUpstreamFetch (UserGenreFindMany userId) = false
        /\ isPersistenceWrite (UserGenreFindMany userId) = false)
  /\ (forall userIdParam userId st w1 ug ugs g st2,
        parseInt rt userIdParam = Some userId -> userId <> 0%Z ->
        respond sv (UserGenreFindMany userId) (world st)
        = (Ok (ug :: ugs), w1) ->
        gather rt sv userId (ug :: ugs) (afterUserGenres st userId w1)
        = (Ok g, st2) ->
        g_candidates g = [] ->
        fetchHandler rt sv userIdParam st
        = (Ok {| status := 200; body := JsonBooks [] |}, st2)).
Proof.
  split; [|split; [|split]].
  - intros userIdParam userId st w1 Hp Hne Hr. split.
    + rewrite (fetchHandler_valid _ _ _ Hp Hne).
      unfold tryCatch, bind, perform. now rewrite Hr.
    + unfold RoundRobin.fetchHandler. rewrite Hp.
      destruct userId; [congruence | |];
        unfold tryCatch, bind, perform; now rewrite Hr.
  - split; reflexivity.
  - intros st userId w1. repeat split.
  - intros userIdParam userId st w1 ug ugs g st2 Hp Hne Hr Hg Hc.
    rewrite (fetchHandler_valid _ _ _ Hp Hne).
    unfold tryCatch, bind at 1, perform. rewrite Hr.
    fold (afterUserGenres st userId w1).
    unfold bind. rewrite Hg, Hc. reflexivity.
Qed.

End WithWorld.

(** C10, worked example: in a world without data the request for user 7
    is answered with the message, after one query. *)
Lemma C10_empty_outcomes_witness :
  fetchHandler Demo.asciiRuntime Demo.quietWorld (str "7")
    Demo.start
  = (Ok noGenres,
     {| world := tt; trace := [Called (UserGenreFindMany 7)] |}).
Proof.
  assert (Hne : 7%Z <> 0%Z) by discriminate.
  exact (proj1 (proj1 (C10_empty_outcomes Demo.asciiRuntime unit
                         Demo.quietWorld)
                  (str "7") 7%Z Demo.start tt eq_refl Hne eq_refl)).
Defined.

End HandlerFacts.

(* ================================================================== *)
(** * The round-robin loop *)
(* ================================================================== *)

Module RoundRobinFacts.
Import JSFacts Effects Recommendations RoundRobin.

Lemma removeAt_length {A} (l : list A) : forall i,
  (i < length l)%nat -> length (removeAt i l) = pred (length l).
Proof.
  induction l as [|x l IH]; intros i Hi; [cbn in Hi; lia|].
  destruct i as [|i]; [reflexivity|]. cbn [removeAt length].
  rewrite IH by (cbn in Hi; lia). cbn in Hi. lia.
Qed.

(** The loop never runs out of turns: beyond [turnsLeft] turns more fuel
    changes nothing.  In the handler the loop starts with
    [20 + genreIds.length] turns, which is [turnsLeft] of its first state. *)
Lemma rotate_fuel (fuel : nat) : forall extra final genreIds genreIndex pools,
  (turnsLeft final genreIds <= fuel)%nat ->
  rotate (fuel + extra) final genreIds genreIndex pools
  = rotate fuel final genreIds genreIndex pools.
Proof.
  unfold turnsLeft.
  induction fuel as [|fuel IH]; intros extra final genreIds genreIndex pools Hm.
  - assert (Hf : (length final <? 20)%nat = false) by (apply Nat.ltb_ge; lia).
    destruct extra; [reflexivity|]. cbn [Nat.add rotate]. now rewrite Hf.
  - cbn [Nat.add rotate].
    destruct ((length final <? 20)%nat && (0 <? length genreIds)%nat) eqn:Hc;
      [|reflexivity].
    apply andb_true_iff in Hc as [Hf Hg]. apply Nat.ltb_lt in Hf, Hg.
    destruct (nth_error genreIds genreIndex) as [cur|] eqn:Hn; [|reflexivity].
    assert (Hi : (genreIndex < length genreIds)%nat).
    { apply nth_error_Some. congruence. }
    destruct (Map_get pools cur) as [pool|]; [|reflexivity].
    pose proof (removeAt_length genreIds genreIndex Hi) as Hlen.
    destruct pool as [|x [|x' rest]]; cbn [tl].
    + destruct (removeAt genreIndex genreIds) eqn:Hr; [reflexivity|].
      apply IH. cbn [length] in *. lia.
    + destruct (removeAt genreIndex genreIds) eqn:Hr; [reflexivity|].
      apply IH. rewrite length_app. cbn [length] in *. lia.
    + apply IH. rewrite length_app. cbn [length] in *. lia.
Qed.

End RoundRobinFacts.


(* ================================================================== *)
(** * Tokens and parts *)
(* ================================================================== *)

Module WordFacts.
Import JSFacts Runs RunsFacts GenreMatch GenreMatchFacts TokenizeFacts Notions.

(** Every run that [fields] returns is made of characters that satisfy the
    predicate, and is a block of what was read. *)
Lemma fields_runs (p : codeUnit -> bool) (s : jsstring) : forall cur,
  Forall (fun c => p c = true) cur ->
  Forall (fun t => Forall (fun c => p c = true) t /\ infix t (rev cur ++ s))
         (fields p cur s).
Proof.
  induction s as [|c s IH]; intros cur Hcur; simpl.
  - destruct cur as [|x cur]; simpl; constructor; [|constructor].
    split.
    + apply Forall_rev in Hcur. exact Hcur.
    + rewrite app_nil_r. apply infix_refl.
  - destruct (p c) eqn:Ec.
    + specialize (IH (c :: cur) (Forall_cons _ Ec Hcur)).
      simpl in IH. now rewrite <- app_assoc in IH.
    + apply Forall_app. split.
      * destruct cur as [|x cur]; simpl; constructor; [|constructor].
        split.
        -- apply Forall_rev in Hcur. exact Hcur.
        -- exists [], (c :: s). reflexivity.
      * specialize (IH [] (Forall_nil _)).
        eapply Forall_impl; [|exact IH].
        intros t [Ht Hin]. split; [exact Ht|].
        apply infix_app_l, infix_cons. exact Hin.
Qed.

(** A string of characters that all satisfy the predicate is one run. *)
Lemma fields_one_run (p : codeUnit -> bool) (s : jsstring) : forall cur,
  Forall (fun c => p c = true) s ->
  fields p cur s = emit (rev s ++ cur).
Proof.
  induction s as [|c s IH]; intros cur Hs; simpl.
  - reflexivity.
  - inversion Hs as [|? ? Hc Hs']; subst. rewrite Hc, IH by assumption.
    now rewrite <- app_assoc.
Qed.

Lemma Forall_filter_both {A} (P : A -> Prop) (f : A -> bool) (l : list A) :
  Forall P l -> Forall (fun x => P x /\ f x = true) (filter f l).
Proof.
  intros H. apply Forall_forall. intros x Hx. apply filter_In in Hx.
  split; [|tauto]. rewrite Forall_forall in H. now apply H.
Qed.

(** ** White space at the ends *)

Lemma dropWhile_head {A} (p : A -> bool) (l : list A) (x : A) (r : list A) :
  dropWhile p l = x :: r -> p x = false.
Proof.
  induction l as [|y l IH]; simpl; [discriminate|].
  destruct (p y) eqn:Ey; [exact IH|]. intros E. now inversion E; subst.
Qed.

Lemma dropWhile_idem {A} (p : A -> bool) (l : list A) :
  dropWhile p (dropWhile p l) = dropWhile p l.
Proof.
  destruct (dropWhile p l) as [|x r] eqn:E; [reflexivity|].
  simpl. now rewrite (dropWhile_head _ _ _ _ E).
Qed.

Lemma trimEnd_idem (s : jsstring) : trimEnd (trimEnd s) = trimEnd s.
Proof. unfold trimEnd. now rewrite rev_involutive, dropWhile_idem. Qed.

(** [trimEnd] leaves a first character that is not white space alone. *)
Lemma trimEnd_head (c : codeUnit) (s : jsstring) :
  isSpace c = false -> exists r, trimEnd (c :: s) = c :: r.
Proof.
  intros Hc. destruct (trimEnd_split (c :: s)) as (t & E & Ht).
  destruct (trimEnd (c :: s)) as [|c' r].
  - simpl in E. subst t. inversion Ht; congruence.
  - inversion E; subst. now exists r.
Qed.

(** A trimmed string is empty, or starts and ends with characters that are
    not white space. *)
Lemma trim_ends (s : jsstring) :
  trim s = []
  \/ exists c r d, isSpace c = false /\ isSpace d = false
                   /\ trim s = c :: r /\ rev (trim s) = d :: rev (removelast (trim s)).
Proof.
  unfold trim, trimStart.
  destruct (dropWhile isSpace s) as [|c t] eqn:E; [now left|].
  pose proof (dropWhile_head _ _ _ _ E) as Hc.
  destruct (trimEnd_head c t Hc) as (r & Er). right.
  unfold trimEnd in *. rewrite rev_involutive.
  destruct (dropWhile isSpace (rev (c :: t))) as [|d u] eqn:Ed.
  - discriminate.
  - exists c, r, d. repeat split; try assumption.
    + exact (dropWhile_head _ _ _ _ Ed).
    + f_equal. simpl. rewrite removelast_last. now rewrite rev_involutive.
Qed.

Lemma trimEnd_last (x : jsstring) (d : codeUnit) :
  isSpace d = false -> trimEnd (x ++ [d]) = x ++ [d].
Proof.
  intros Hd. unfold trimEnd. rewrite rev_app_distr. simpl. rewrite Hd.
  simpl. now rewrite rev_involutive.
Qed.

Lemma trim_idem (s : jsstring) : trim (trim s) = trim s.
Proof.
  destruct (trim_ends s) as [E|(c & r & d & Hc & Hd & E & _)].
  - rewrite E. reflexivity.
  - unfold trim at 1. rewrite E. unfold trimStart. simpl. rewrite Hc.
    rewrite <- E. unfold trim. apply trimEnd_idem.
Qed.

(** ** The pieces of a genre name *)

Lemma splitSeparators_noSep (s : jsstring) : forall skip prev cur,
  Forall (fun c => isSepChar c = false) cur ->
  Forall (Forall (fun c => isSepChar c = false))
         (splitSeparators skip prev cur s).
Proof.
  induction s as [|c s IH]; intros skip prev cur Hcur; simpl.
  - constructor; [|constructor]. now apply Forall_rev.
  - destruct skip as [|k]; [|now apply IH].
    destruct (isSepChar c) eqn:Ec; [|destruct (andAt prev (c :: s))].
    + constructor; [now apply Forall_rev | apply IH; constructor].
    + constructor; [now apply Forall_rev | apply IH; constructor].
    + apply IH. now constructor.
Qed.

Lemma Forall_infix {P : codeUnit -> Prop} (q s : jsstring) :
  infix q s -> Forall P s -> Forall P q.
Proof.
  intros (pre & post & ->) H.
  apply Forall_app in H as [_ H]. now apply Forall_app in H as [H _].
Qed.

(** X1.  Every part that [splitGenreParts] returns for a genre name is non-empty,
    has no white space at either end, holds none of the separator
    characters [/], [,] and [&], and stands as one block in the name. *)
Theorem splitGenreParts_parts (genreName : jsstring) :
  Forall (isPart genreName) (splitGenreParts genreName).
Proof.
  apply Forall_forall. intros p Hp.
  pose proof (splitGenreParts_infix _ _ Hp) as Hin.
  unfold splitGenreParts in Hp. apply filter_In in Hp as [Hp Ht].
  apply in_map_iff in Hp as (q & <- & Hq).
  repeat split; try assumption.
  - apply trim_idem.
  - apply (Forall_infix _ _ (trim_infix q)).
    pose proof (splitSeparators_noSep genreName 0 None [] (Forall_nil _)) as H.
    rewrite Forall_forall in H. now apply H.
Qed.

(** In a name made of word characters alone the only place where [and]
    can match is the whole name. *)
Lemma splitSeparators_word (s : jsstring) : forall p cur,
  Forall (fun c => isWordChar c = true) s ->
  isWordChar p = true ->
  splitSeparators 0 (Some p) cur s = [rev cur ++ s].
Proof.
  induction s as [|c s IH]; intros p cur Hs Hp; simpl.
  - now rewrite app_nil_r.
  - inversion Hs as [|? ? Hc Hs']; subst.
    assert (Esep : isSepChar c = false).
    { unfold isSepChar, isWordChar, isAlnum in *.
      destruct (N.eqb_spec c 47), (N.eqb_spec c 44), (N.eqb_spec c 38);
        subst; try discriminate; reflexivity. }
    rewrite Esep. unfold andAt at 1. rewrite Hp. simpl.
    rewrite IH by assumption. simpl. now rewrite <- app_assoc.
Qed.

Lemma word_notSpace (c : codeUnit) : isWordChar c = true -> isSpace c = false.
Proof.
  unfold isWordChar, isAlnum, isSpace. intros Hc.
  assert (Hr : (48 <= c <= 122)%N).
  { repeat (apply orb_true_iff in Hc as [Hc|Hc]);
      try (apply andb_true_iff in Hc as [H1 H2]; apply N.leb_le in H1, H2; lia).
    apply N.eqb_eq in Hc. lia. }
  replace (c <=? 13)%N with false by (symmetry; apply N.leb_gt; lia).
  replace (8192 <=? c)%N with false by (symmetry; apply N.leb_gt; lia).
  repeat match goal with
  | |- context [(c =? ?k)%N] =>
      replace (c =? k)%N with false by (symmetry; apply N.eqb_neq; lia)
  end.
  now rewrite andb_false_r.
Qed.

(** X2.  A non-empty genre name made of word characters only ([[A-Za-z0-9_]])
    is its own single part, unless it is the word [and] in any case, which
    is a separator and leaves no part at all. *)
Theorem splitGenreParts_single_word (genreName : jsstring) :
  Forall (fun c => isWordChar c = true) genreName ->
  genreName <> [] ->
  splitGenreParts genreName
  = if andAt None genreName then [] else [genreName].
Proof.
  intros Hw Hne. destruct genreName as [|c s]; [congruence|].
  inversion Hw as [|? ? Hc Hs]; subst.
  assert (Esep : isSepChar c = false).
  { unfold isSepChar, isWordChar, isAlnum in *.
    destruct (N.eqb_spec c 47), (N.eqb_spec c 44), (N.eqb_spec c 38);
      subst; try discriminate; reflexivity. }
  unfold splitGenreParts. cbn [splitSeparators]. rewrite Esep.
  destruct (andAt None (c :: s)) eqn:Eand.
  - unfold andAt in Eand. cbn [andb] in Eand.
    destruct s as [|n [|d rest]]; try discriminate.
    destruct rest as [|x rest].
    + reflexivity.
    + inversion Hs as [|? ? _ Hs1]; subst.
      inversion Hs1 as [|? ? _ Hs2]; subst.
      inversion Hs2 as [|? ? Hx _]; subst. rewrite Hx in Eand.
      rewrite !andb_false_r in Eand. discriminate.
  - rewrite splitSeparators_word by assumption. cbn [rev app map].
    rewrite trim_notSpace; [reflexivity|].
    eapply Forall_impl; [|exact Hw].
    intros a Ha. unfold notSpace. now rewrite word_notSpace.
Qed.

(** X2, witness: the name [Fantasy] is its own part, the name [And] has none. *)
Lemma splitGenreParts_single_word_witness :
  Forall (fun c => isWordChar c = true) (str "Fantasy")
  /\ splitGenreParts (str "Fantasy") = [str "Fantasy"]
  /\ splitGenreParts (str "And") = [].
Proof.
  assert (Hw : forall s, forallb isWordChar s = true ->
                         Forall (fun c => isWordChar c = true) s).
  { intros s H. apply Forall_forall. now apply forallb_forall. }
  assert (Hne : forall (c : codeUnit) s, c :: s <> []) by discriminate.
  split; [apply Hw; reflexivity|]. split.
  - exact (splitGenreParts_single_word (str "Fantasy")
             (Hw (str "Fantasy") eq_refl) (Hne _ _)).
  - exact (splitGenreParts_single_word (str "And")
             (Hw (str "And") eq_refl) (Hne _ _)).
Defined.

Section WithRuntime.
Variable rt : Runtime.

Lemma long_fields_tokens (value : jsstring) :
  Forall (isToken rt value)
         (filter long (fields isAlnum [] (toLowerCase rt value))).
Proof.
  eapply Forall_impl;
    [|apply Forall_filter_both, (fields_runs isAlnum _ []); constructor].
  intros t [[Hal Hin] Hlong]. repeat split; try assumption.
  now apply Nat.leb_le.
Qed.

(** X3.  Every token of [tokenizeWords] and of [tokenize] has three characters
    or more, all of them of [[a-z0-9]], and stands as one block in the
    lower-cased text; [tokenize] returns each token once. *)
Theorem tokens_are_words (value : jsstring) :
  Forall (isToken rt value) (GenreMatch.tokenizeWords rt value)
  /\ Forall (isToken rt value) (Recommendations.tokenize rt value)
  /\ NoDup (Recommendations.tokenize rt value).
Proof.
  split; [|split].
  - rewrite tokenizeWords_fields. apply long_fields_tokens.
  - rewrite tokenize_fields. apply Forall_forall. intros t Ht.
    apply (proj1 (Set_of_In _ _)) in Ht.
    pose proof (long_fields_tokens value) as H.
    rewrite Forall_forall in H. now apply H.
  - rewrite tokenize_fields. apply Set_of_NoDup.
Qed.

(** The case table leaves the characters of [[a-z0-9]] alone. *)
Hypothesis lowerCase_fixes_alnum :
  forall c, isAlnum c = true -> lowerCaseUnit rt c = [c].

Lemma toLowerCase_alnum (t : jsstring) :
  Forall (fun c => isAlnum c = true) t -> toLowerCase rt t = t.
Proof.
  unfold toLowerCase. induction 1 as [|c t Hc _ IH]; simpl.
  - reflexivity.
  - now rewrite lowerCase_fixes_alnum, IH.
Qed.

Lemma token_fixed (value t : jsstring) :
  isToken rt value t ->
  GenreMatch.tokenizeWords rt t = [t] /\ Recommendations.tokenize rt t = [t].
Proof.
  intros (Hlen & Hal & _).
  assert (E : filter long (fields isAlnum [] (toLowerCase rt t)) = [t]).
  { rewrite toLowerCase_alnum, fields_one_run by assumption.
    rewrite app_nil_r. destruct t as [|c t]; [simpl in Hlen; lia|].
    unfold emit. destruct (rev (c :: t)) eqn:Er.
    - apply (f_equal (@length _)) in Er. rewrite length_rev in Er. discriminate.
    - rewrite <- Er, rev_involutive. cbn [filter]. unfold long.
      apply Nat.leb_le in Hlen. now rewrite Hlen. }
  split.
  - now rewrite tokenizeWords_fields.
  - now rewrite tokenize_fields, E.
Qed.

(** X4.  When lower-casing leaves the characters of [[a-z0-9]] as they are,
    tokenizing a token gives that token alone, with both tokenizers: the
    tokenizers are idempotent on their own output. *)
Theorem tokens_are_fixed (value : jsstring) :
  Forall (fun t => GenreMatch.tokenizeWords rt t = [t]
                   /\ Recommendations.tokenize rt t = [t])
         (GenreMatch.tokenizeWords rt value).
Proof.
  rewrite tokenizeWords_fields.
  eapply Forall_impl; [|apply long_fields_tokens].
  intros t. apply token_fixed.
Qed.

End WithRuntime.

Lemma asciiRuntime_fixes_alnum (c : codeUnit) :
  isAlnum c = true -> lowerCaseUnit Demo.asciiRuntime c = [c].
Proof.
  unfold isAlnum. cbn [lowerCaseUnit Demo.asciiRuntime]. intros H.
  destruct (N.leb_spec 65 c), (N.leb_spec c 90); cbn [andb];
    try reflexivity.
  destruct (N.leb_spec 97 c), (N.leb_spec c 122), (N.leb_spec 48 c),
    (N.leb_spec c 57); cbn in H; try discriminate; lia.
Qed.

(** X4, witness: the five tokens of a title, each of them tokenized again to itself. *)
Lemma tokens_are_fixed_witness :
  GenreMatch.tokenizeWords Demo.asciiRuntime (str "The Big-Bang: a 1984 story")
  = [str "the"; str "big"; str "bang"; str "1984"; str "story"]
  /\ Forall (fun t => GenreMatch.tokenizeWords Demo.asciiRuntime t = [t]
                      /\ Recommendations.tokenize Demo.asciiRuntime t = [t])
            (GenreMatch.tokenizeWords Demo.asciiRuntime
               (str "The Big-Bang: a 1984 story")).
Proof.
  split; [reflexivity|].
  exact (tokens_are_fixed Demo.asciiRuntime asciiRuntime_fixes_alnum
           (str "The Big-Bang: a 1984 story")).
Defined.

End WordFacts.

(* ================================================================== *)
(** * The matcher as a whole *)
(* ================================================================== *)

Module MatcherFacts.
Import JSFacts Runs RunsFacts GenreMatch GenreMatchFacts.

Section MapFacts.
Context {K V : Type} {EK : SameValueZero K} {ES : SameValueZeroSpec EK}.

Lemma Map_set_present_keys (m : list (K * V)) (k : K) (v : V) :
  In k (Map_keys m) -> Map_keys (Map_set m k v) = Map_keys m.
Proof.
  induction m as [|[k' v'] m IH]; simpl; [intros []|].
  destruct (sameValue k k') eqn:E; [reflexivity|].
  intros [->|Hk].
  - now rewrite sameValue_refl in E.
  - simpl. now rewrite IH.
Qed.

Lemma Map_set_keys_NoDup (m : list (K * V)) (k : K) (v : V) :
  NoDup (Map_keys m) -> NoDup (Map_keys (Map_set m k v)).
Proof.
  intros Hnd. destruct (Map_get m k) eqn:E.
  - rewrite Map_set_present_keys; [assumption|].
    destruct (in_dec (fun x y => match sameValue x y as b
                                       return sameValue x y = b -> _ with
                                 | true => fun H => left (proj1 (sameValue_spec x y) H)
                                 | false => fun H => right (proj1 (sameValue_false x y) H)
                                 end eq_refl) k (Map_keys m)) as [H|H];
      [assumption|].
    apply Map_get_None in H. congruence.
  - apply Map_get_None in E. rewrite (Map_set_fresh _ _ _ E).
    unfold Map_keys in *. rewrite map_app. simpl.
    apply NoDup_app; [assumption | repeat constructor; intros [] |].
    intros x Hx [<-|[]]. contradiction.
Qed.

Lemma Map_set_values_In (m : list (K * V)) (k : K) (v v' : V) :
  In v' (Map_values (Map_set m k v)) -> v' = v \/ In v' (Map_values m).
Proof.
  induction m as [|[k0 v0] m IH]; simpl.
  - intros [<-|[]]. now left.
  - destruct (sameValue k k0); simpl.
    + intros [<-|H]; [now left | right; now right].
    + intros [<-|H]; [right; now left|].
      destruct (IH H); [now left | right; now right].
Qed.

(** Filing entries one after the other under keys that are all different
    is listing them. *)
Lemma fold_Map_set_fresh (l : list (K * V)) : forall m,
  NoDup (Map_keys (m ++ l)) ->
  fold_left (fun m e => Map_set m (fst e) (snd e)) l m = m ++ l.
Proof.
  induction l as [|[k v] l IH]; intros m Hnd; simpl.
  - now rewrite app_nil_r.
  - assert (Hk : ~ In k (Map_keys m)).
    { unfold Map_keys in *. rewrite map_app in Hnd.
      apply NoDup_remove_2 in Hnd. intros H. apply Hnd.
      apply in_or_app. now left. }
    rewrite (Map_set_fresh _ _ _ Hk), IH; rewrite <- app_assoc; [reflexivity|].
    exact Hnd.
Qed.

(** Reading a map after writing to it. *)
Lemma Map_get_set (m : list (K * V)) (k k' : K) (v : V) :
  Map_get (Map_set m k' v) k
  = if sameValue k k' then Some v else Map_get m k.
Proof.
  induction m as [|[k0 v0] m IH]; cbn [Map_set Map_get]; [reflexivity|].
  destruct (sameValue k' k0) eqn:E'; cbn [Map_get].
  - apply sameValue_spec in E'. subst k0.
    now destruct (sameValue k k').
  - destruct (sameValue k k0) eqn:E0; [|exact IH].
    apply sameValue_spec in E0. subst k0.
    destruct (sameValue k k') eqn:E; [|reflexivity].
    apply sameValue_spec in E. subst k'.
    now rewrite sameValue_refl in E'.
Qed.

End MapFacts.

Lemma existsb_ext_on {A} (f g : A -> bool) (l : list A) :
  (forall x, In x l -> f x = g x) -> existsb f l = existsb g l.
Proof.
  induction l as [|x l IH]; intros H; simpl; [reflexivity|].
  rewrite (H x (or_introl eq_refl)), IH; [reflexivity|].
  intros y Hy. apply H. now right.
Qed.

Lemma filter_twice {A} (f g : A -> bool) (l : list A) :
  filter f (filter g l) = filter (fun x => g x && f x) l.
Proof.
  induction l as [|x l IH]; simpl; [reflexivity|].
  destruct (g x); simpl; [destruct (f x)|]; now rewrite IH.
Qed.

Lemma map_filter_key {A B} (key : A -> B) (keep : B -> bool) (l : list A) :
  map key (filter (fun x => keep (key x)) l) = filter keep (map key l).
Proof.
  induction l as [|x l IH]; simpl; [reflexivity|].
  destruct (keep (key x)); simpl; now rewrite IH.
Qed.

(** Among the ids of a non-empty list one is filed with a largest token
    set. *)
Lemma largest_exists (f : Z -> nat) (l : list Z) :
  l <> [] -> exists a, In a l /\ forall b, In b l -> (f b <= f a)%nat.
Proof.
  induction l as [|x l IH]; [congruence|]. intros _.
  destruct l as [|y l].
  - exists x. split; [now left|]. intros b [<-|[]]. lia.
  - destruct IH as (a & Ha & Hmax); [discriminate|].
    destruct (le_lt_dec (f x) (f a)).
    + exists a. split; [now right|]. intros b [<-|Hb]; [lia | now apply Hmax].
    + exists x. split; [now left|]. intros b [<-|Hb]; [lia|].
      specialize (Hmax b Hb). lia.
Qed.

(** ** The pruning loop in closed form *)

Lemma prune_fold_filter (ms : Z -> bool) (l : list Z) : forall acc,
  fold_left (fun prunedIds a => if ms a then Set_delete prunedIds a
                                else prunedIds) l acc
  = filter (fun x => negb (existsb (Z.eqb x) l && ms x)) acc.
Proof.
  induction l as [|a l IH]; intros acc; cbn [fold_left existsb].
  - cbn [andb negb]. induction acc as [|x acc IHa]; simpl; congruence.
  - rewrite IH. destruct (ms a) eqn:Ea.
    + unfold Set_delete. rewrite filter_twice. apply filter_ext.
      intros x. unfold sameValue, SameValueZero_Z.
      rewrite (Z.eqb_sym a x).
      destruct (Z.eqb_spec x a) as [->|Hne]; cbn [negb andb orb].
      * now rewrite Ea.
      * reflexivity.
    + apply filter_ext. intros x.
      destruct (Z.eqb_spec x a) as [->|Hne]; cbn [orb].
      * rewrite Ea. now rewrite !andb_false_r.
      * reflexivity.
Qed.

Lemma prune_filter (tokensById : list (Z * list jsstring)) (ids : list Z) :
  NoDup ids ->
  prune tokensById ids
  = filter (fun a => negb (moreSpecificExists tokensById ids a)) ids.
Proof.
  intros Hnd. unfold prune. rewrite prune_fold_filter, (Set_of_NoDup_id _ Hnd).
  apply filter_ext_in. intros x Hx.
  assert (E : existsb (Z.eqb x) ids = true).
  { apply existsb_exists. exists x. split; [assumption | apply Z.eqb_refl]. }
  now rewrite E.
Qed.

(** The loop looks up the token sets of matched ids only. *)
Lemma moreSpecificExists_ext (T T' : list (Z * list jsstring)) (ids : list Z)
  (a : Z) :
  (forall x, In x ids -> Map_get T x = Map_get T' x) -> In a ids ->
  moreSpecificExists T ids a = moreSpecificExists T' ids a.
Proof.
  intros H Ha. unfold moreSpecificExists. rewrite (H a Ha).
  destruct (Map_get T' a); [|reflexivity].
  apply existsb_ext_on. intros b Hb. now rewrite (H b Hb).
Qed.

Lemma prune_ext (T T' : list (Z * list jsstring)) (ids : list Z) :
  NoDup ids ->
  (forall x, In x ids -> Map_get T x = Map_get T' x) ->
  prune T ids = prune T' ids.
Proof.
  intros Hnd H. rewrite !prune_filter by assumption.
  apply filter_ext_in. intros a Ha.
  now rewrite (moreSpecificExists_ext T T').
Qed.

(** What is left after pruning, listed with the matched ids and read back
    as a set. *)
Lemma prune_fixed (T : list (Z * list jsstring)) (ids : list Z) :
  NoDup ids ->
  fold_left Set_add (prune T ids) [] = prune T ids
  /\ filter (Set_has (prune T ids)) ids = prune T ids.
Proof.
  intros Hnd. split.
  - apply (Set_of_NoDup_id (prune T ids)).
    rewrite prune_filter by assumption. now apply NoDup_filter.
  - rewrite (prune_filter T ids Hnd) at 2.
    apply filter_ext_in. intros a Ha.
    destruct (moreSpecificExists T ids a) eqn:E; cbn [negb].
    + apply Set_has_notIn. rewrite prune_In. intros [_ H]. congruence.
    + apply Set_has_In, prune_In. now split.
Qed.

Section WithRuntime.
Variable rt : Runtime.

(** ** What the first loop keeps, whatever the ids *)

Lemma matchGenre_values (cats : list (list jsstring)) (st : Matching)
  (g x : GenreLite) :
  In x (Map_values (matchedById (matchGenre rt cats st g))) ->
  x = g \/ In x (Map_values (matchedById st)).
Proof.
  unfold matchGenre.
  destruct (Set_size (tokenSet rt (name g)) =? 0)%nat; [now right|].
  destruct (matchesSomeCategory rt cats g); cbn [matchedById];
    [apply Map_set_values_In | now right].
Qed.

Lemma matchAll_values (cats : list (list jsstring)) (genres : list GenreLite) :
  forall st x,
  In x (Map_values (matchedById (fold_left (matchGenre rt cats) genres st))) ->
  In x (Map_values (matchedById st)) \/ In x genres.
Proof.
  induction genres as [|g genres IH]; intros st x; cbn [fold_left].
  - now left.
  - intros H. apply IH in H as [H|H]; [|right; now right].
    apply matchGenre_values in H as [->|H]; [right; now left | now left].
Qed.

Lemma matchAll_keys_NoDup (cats : list (list jsstring))
  (genres : list GenreLite) : forall st,
  NoDup (Map_keys (matchedById st)) ->
  NoDup (Map_keys (matchedById (fold_left (matchGenre rt cats) genres st))).
Proof.
  induction genres as [|g genres IH]; intros st Hst; cbn [fold_left];
    [assumption|].
  apply IH. unfold matchGenre.
  destruct (Set_size (tokenSet rt (name g)) =? 0)%nat; [assumption|].
  destruct (matchesSomeCategory rt cats g); cbn [matchedById];
    [now apply Map_set_keys_NoDup | assumption].
Qed.

(** The genres matched before pruning carry pairwise different ids. *)
Lemma matched_ids_NoDup (categories : list jsstring) (genres : list GenreLite) :
  NoDup (map id (Map_values (matchedById (matchAll rt categories genres)))).
Proof.
  unfold matchAll. rewrite filedById_keys.
  - apply matchAll_keys_NoDup. constructor.
  - apply matchAll_filedById. intros k g [].
Qed.

(** X5.  The genres that [matchGenresFromCategories] returns are genres of the
    supplied list, with pairwise distinct ids (also when the supplied list
    repeats an id); when the supplied ids are distinct the result is a
    sub-list of the supplied list, in its order. *)
Theorem matched_genres_shape (categories : list jsstring)
  (genres : list GenreLite) :
  incl (matchGenresFromCategories rt categories genres) genres
  /\ NoDup (map id (matchGenresFromCategories rt categories genres))
  /\ (NoDup (map id genres) ->
      exists keep,
        matchGenresFromCategories rt categories genres = filter keep genres).
Proof.
  unfold matchGenresFromCategories.
  destruct categories as [|c cs]; [|destruct genres as [|g gs]].
  - repeat split; [intros x [] | constructor |].
    intros _. exists (fun _ => false). induction genres; simpl; congruence.
  - repeat split; [intros x [] | constructor |]. intros _.
    now exists (fun _ => false).
  - cbv zeta. split; [|split].
    + intros x Hx. apply filter_In in Hx as [Hx _].
      apply matchAll_values in Hx as [[]|Hx]. exact Hx.
    + apply filter_keeps_distinct, matched_ids_NoDup.
    + intros Hnd. rewrite (matchAll_distinct _ _ _ Hnd).
      cbn [matchedById genreTokensById]. rewrite map_id_idEntry.
      rewrite filter_twice. eexists. reflexivity.
Qed.

(** X6.  Pruning never empties the result: [matchGenresFromCategories] returns
    no genre exactly when no genre matches any category at all. *)
Theorem pruning_keeps_some (categories : list jsstring)
  (genres : list GenreLite) :
  matchGenresFromCategories rt categories genres = []
  <-> rawMatched rt categories genres = [].
Proof.
  unfold matchGenresFromCategories, rawMatched.
  destruct categories as [|c cs]; [tauto|].
  destruct genres as [|g gs]; [tauto|]. cbv zeta.
  set (st := matchAll rt (c :: cs) (g :: gs)).
  set (matched := Map_values (matchedById st)).
  split; [|intros ->; reflexivity].
  intros Hnone. destruct matched as [|m ms] eqn:Em; [reflexivity|]. exfalso.
  set (T := genreTokensById st) in *.
  set (f := fun x => match Map_get T x with
                     | Some t => Set_size t
                     | None => 0%nat
                     end).
  destruct (largest_exists f (map id (m :: ms))) as (a & Ha & Hmax);
    [discriminate|].
  assert (Hkeep : moreSpecificExists T (map id (m :: ms)) a = false).
  { unfold moreSpecificExists. destruct (Map_get T a) as [aT|] eqn:Ea;
      [|reflexivity].
    apply not_true_is_false. intros H.
    apply existsb_exists in H as (b & Hb & Hcond).
    apply andb_true_iff in Hcond as [_ Hcond].
    destruct (Map_get T b) as [bT|] eqn:Eb; [|discriminate].
    apply andb_true_iff in Hcond as [Hsize _].
    apply negb_true_iff, Nat.leb_gt in Hsize.
    specialize (Hmax b Hb). unfold f in Hmax. rewrite Ea, Eb in Hmax. lia. }
  apply in_map_iff in Ha as (x & <- & Hx).
  assert (Hin : In x (filter (fun g0 => Set_has (prune T (map id (m :: ms))) (id g0))
                        (m :: ms))).
  { apply filter_In. split; [assumption|].
    apply Set_has_In, prune_In. split; [now apply in_map | assumption]. }
  rewrite Hnone in Hin. destruct Hin.
Qed.

(** ** The second copy of the matcher *)

Lemma tokenEntry_get (l : list GenreLite) (g : GenreLite) :
  NoDup (map id l) -> In g l ->
  Map_get (map (tokenEntry rt) l) (id g) = Some (tokenSet rt (name g)).
Proof.
  intros Hnd Hg. apply Map_get_In.
  - unfold Map_keys. rewrite map_map. exact Hnd.
  - apply in_map_iff. now exists g.
Qed.

Lemma derive_matched (cats : list (list jsstring)) (genres : list GenreLite) :
  flat_map
    (fun genre =>
       let fullTokens := Set_of (Recommendations.tokenizeWords rt (name genre)) in
       if (Set_size fullTokens =? 0)%nat then []
       else
         let partTokenSets :=
           filter nonEmptySet
             (map (fun p => Set_of (Recommendations.tokenizeWords rt p))
                  (Recommendations.splitGenreParts (name genre))) in
         let matchedAnyCategory :=
           existsb (fun catTokens =>
                      existsb (fun genrePartTokens =>
                                 Recommendations.isTokenSubset genrePartTokens
                                   catTokens)
                              partTokenSets)
                   cats in
         if matchedAnyCategory then [(id genre, fullTokens)] else [])
    genres
  = map (tokenEntry rt) (filter (isMatched rt cats) genres).
Proof.
  match goal with |- flat_map ?F _ = _ => set (entry := F) end.
  induction genres as [|g genres IH]; [reflexivity|].
  change (flat_map entry (g :: genres)) with (entry g ++ flat_map entry genres).
  rewrite IH. cbn [filter].
  assert (Em : isMatched rt cats g
               = hasTokens rt g && matchesSomeCategory rt cats g)
    by reflexivity.
  assert (E : entry g
              = if negb (hasTokens rt g) then []
                else if matchesSomeCategory rt cats g
                     then [tokenEntry rt g] else []).
  { unfold entry. cbv zeta. rewrite <- size_zero_hasTokens. reflexivity. }
  rewrite E, Em.
  destruct (hasTokens rt g), (matchesSomeCategory rt cats g); reflexivity.
Qed.

(** X7.  On genres with pairwise distinct ids, the copy of the matcher in the
    recommendations route ([deriveGenreIdsFromCategories]) returns the ids
    of the genres that [matchGenresFromCategories] returns, in the same
    order. *)
Theorem derive_agrees_with_matcher (categories : list jsstring)
  (genres : list GenreLite) :
  NoDup (map id genres) ->
  Recommendations.deriveGenreIdsFromCategories rt (Some categories) genres
  = map id (matchGenresFromCategories rt categories genres).
Proof.
  intros Hnd. unfold Recommendations.deriveGenreIdsFromCategories,
    matchGenresFromCategories.
  destruct categories as [|c cs]; [reflexivity|].
  destruct genres as [|g gs]; [reflexivity|]. cbv zeta.
  rewrite (matchAll_distinct _ _ _ Hnd). cbn [matchedById genreTokensById].
  rewrite map_id_idEntry.
  set (M := filter (isMatched rt (categoryTokenSets rt (c :: cs))) (g :: gs)).
  match goal with
  | |- context [flat_map ?F (g :: gs)] =>
      assert (EF : flat_map F (g :: gs) = map (tokenEntry rt) M)
        by apply derive_matched;
      rewrite EF; clear EF
  end.
  assert (HM : NoDup (map id M)) by now apply filter_keeps_distinct.
  assert (Eids : map fst (map (tokenEntry rt) M) = map id M)
    by now rewrite map_map.
  rewrite Eids, (fold_Map_set_fresh (map (tokenEntry rt) M) []);
    [|cbn [app]; unfold Map_keys; now rewrite Eids].
  cbn [app].
  rewrite (prune_ext (map (tokenEntry rt) M)
             (map (tokenEntry rt) (filter (hasTokens rt) (g :: gs)))
             (map id M) HM).
  - destruct (prune_fixed
                (map (tokenEntry rt) (filter (hasTokens rt) (g :: gs)))
                (map id M) HM) as [E1 E2].
    rewrite E1, <- E2 at 1.
    symmetry. apply (map_filter_key id).
  - intros x Hx. apply in_map_iff in Hx as (a & <- & Ha).
    rewrite (tokenEntry_get M a HM Ha). symmetry.
    apply filter_In in Ha as [Ha Hm].
    apply (tokens_of_genre rt _ _ Hnd Ha (isMatched_hasTokens _ _ _ Hm)).
Qed.

End WithRuntime.

(** X7, witness: one category of three levels, against the genres Fiction and
    Science Fiction; both copies return Science Fiction alone. *)
Lemma derive_agrees_with_matcher_witness :
  NoDup (map id [Demo.fiction; Demo.scienceFiction])
  /\ Recommendations.deriveGenreIdsFromCategories Demo.asciiRuntime
       (Some [str "Fiction / Science Fiction / Space Opera"])
       [Demo.fiction; Demo.scienceFiction]
     = [2%Z]
  /\ Recommendations.deriveGenreIdsFromCategories Demo.asciiRuntime
       (Some [str "Fiction / Science Fiction / Space Opera"])
       [Demo.fiction; Demo.scienceFiction]
     = map id (matchGenresFromCategories Demo.asciiRuntime
                 [str "Fiction / Science Fiction / Space Opera"]
                 [Demo.fiction; Demo.scienceFiction]).
Proof.
  assert (Hnd : NoDup (map id [Demo.fiction; Demo.scienceFiction])).
  { repeat constructor; simpl; intuition discriminate. }
  split; [exact Hnd|]. split; [reflexivity|].
  exact (derive_agrees_with_matcher Demo.asciiRuntime
           [str "Fiction / Science Fiction / Space Opera"]
           [Demo.fiction; Demo.scienceFiction] Hnd).
Defined.

End MatcherFacts.

(* ================================================================== *)
(** * Descriptions and keys *)
(* ================================================================== *)

Module TextFacts.
Import JSFacts Runs RunsFacts TokenizeFacts WordFacts Recommendations.

(** ** Splitting at white space, and joining again *)

Lemma splitWs_from_word (w : jsstring) : forall cur s,
  Forall (fun c => notSpace c = true) w ->
  splitWs_from false cur (w ++ s) = splitWs_from false (rev w ++ cur) s.
Proof.
  induction w as [|c w IH]; intros cur s Hw; [reflexivity|].
  inversion Hw as [|? ? Hc Hw']; subst.
  unfold notSpace in Hc. apply negb_true_iff in Hc.
  cbn [app splitWs_from rev]. rewrite Hc, IH by assumption.
  now rewrite <- app_assoc.
Qed.

Lemma splitWs_from_after_sep (w s : jsstring) :
  w <> [] -> Forall (fun c => notSpace c = true) w ->
  splitWs_from true [] (w ++ s) = splitWs_from false [] (w ++ s).
Proof.
  intros Hne Hw. destruct w as [|c w]; [congruence|].
  inversion Hw as [|? ? Hc _]; subst.
  unfold notSpace in Hc. apply negb_true_iff in Hc.
  cbn [app splitWs_from]. now rewrite Hc.
Qed.

Lemma join_cons (sep r : jsstring) (rest : list jsstring) :
  join sep (r :: rest)
  = r ++ match rest with [] => [] | _ :: _ => sep ++ join sep rest end.
Proof. destruct rest; simpl; [now rewrite app_nil_r | reflexivity]. Qed.

Lemma join_snoc (sep x : jsstring) (l : list jsstring) :
  l <> [] -> join sep l ++ sep ++ x = join sep (l ++ [x]).
Proof.
  induction l as [|a l IH]; [congruence|]. intros _.
  destruct l as [|b l]; [reflexivity|].
  change (join sep (a :: b :: l)) with (a ++ sep ++ join sep (b :: l)).
  change (join sep ((a :: b :: l) ++ [x]))
    with (a ++ sep ++ join sep ((b :: l) ++ [x])).
  rewrite <- IH by discriminate. now rewrite <- !app_assoc.
Qed.

(** Words without white space, all but the first of them non-empty, joined
    by single spaces, split into themselves. *)
Lemma splitWs_join (rest : list jsstring) : forall w cur,
  Forall (fun c => notSpace c = true) w ->
  Forall (fun r => r <> [] /\ Forall (fun c => notSpace c = true) r) rest ->
  splitWs_from false cur (join (str " ") (w :: rest)) = (rev cur ++ w) :: rest.
Proof.
  induction rest as [|r rest IH]; intros w cur Hw Hrest.
  - cbn [join]. rewrite <- (app_nil_r w) at 1.
    rewrite splitWs_from_word by assumption. cbn [splitWs_from].
    now rewrite rev_app_distr, rev_involutive.
  - inversion Hrest as [|? ? [Hne Hr] Hrest']; subst.
    change (join (str " ") (w :: r :: rest))
      with (w ++ SPACE :: join (str " ") (r :: rest)).
    rewrite splitWs_from_word by assumption.
    cbn [splitWs_from]. rewrite SPACE_isSpace.
    rewrite rev_app_distr, rev_involutive. f_equal.
    rewrite join_cons, splitWs_from_after_sep by assumption.
    rewrite <- join_cons. now rewrite IH.
Qed.

(** The pieces of a split: the first one is empty only when the text
    starts with white space, the last one only when it ends with it, and
    none in between is. *)
Lemma splitWs_from_shape (s : jsstring) : forall inSep cur,
  (inSep = true -> cur = []) ->
  exists p ps,
    splitWs_from inSep cur s = p :: ps
    /\ (cur <> [] -> p <> [])
    /\ Forall (fun r => r <> []) (removelast ps)
    /\ (inSep = true -> ps <> [] -> p <> []).
Proof.
  induction s as [|c s IH]; intros inSep cur Hcur; cbn [splitWs_from].
  - exists (rev cur), []. repeat split.
    + intros Hne E. apply (f_equal (@rev _)) in E.
      rewrite rev_involutive in E. now apply Hne.
    + constructor.
    + congruence.
  - destruct (isSpace c) eqn:Ec; [destruct inSep|].
    + rewrite (Hcur eq_refl). apply (IH true []). reflexivity.
    + destruct (IH true [] (fun _ => eq_refl)) as (p & ps & E & _ & Hmid & Hp).
      exists (rev cur), (p :: ps). rewrite E. repeat split.
      * intros Hne E'. apply (f_equal (@rev _)) in E'.
        rewrite rev_involutive in E'. now apply Hne.
      * destruct ps as [|q ps]; [constructor|].
        change (removelast (p :: q :: ps)) with (p :: removelast (q :: ps)).
        constructor; [apply Hp; [reflexivity|discriminate] | exact Hmid].
      * discriminate.
    + destruct (IH false (c :: cur)) as (p & ps & E & Hp & Hmid & _);
        [discriminate|].
      exists p, ps. rewrite E. repeat split; try assumption.
      * intros _. apply Hp. discriminate.
      * intros _ _. apply Hp. discriminate.
Qed.

Lemma firstn_removelast {A} (l : list A) : forall n,
  (n < length l)%nat -> firstn n l = firstn n (removelast l).
Proof.
  induction l as [|x l IH]; intros n Hn; [simpl in Hn; lia|].
  destruct n as [|n]; [reflexivity|].
  destruct l as [|y l]; [simpl in Hn; lia|].
  change (removelast (x :: y :: l)) with (x :: removelast (y :: l)).
  cbn [firstn]. f_equal. apply IH. simpl in *. lia.
Qed.

Lemma Forall_firstn_of {A} (P : A -> Prop) (l : list A) (n : nat) :
  Forall P l -> Forall P (firstn n l).
Proof.
  intros H. apply Forall_forall. intros x Hx.
  rewrite Forall_forall in H. apply H.
  rewrite <- (firstn_skipn n l). apply in_or_app. now left.
Qed.

(** The words kept by a truncation: the first one, and non-empty ones. *)
Lemma kept_words (text : jsstring) (n : nat) :
  (S n < length (splitWs text))%nat ->
  exists p ps,
    splitWs text = p :: ps
    /\ Forall (fun c => notSpace c = true) p
    /\ Forall (fun r => r <> [] /\ Forall (fun c => notSpace c = true) r)
              (firstn n ps).
Proof.
  intros Hn. unfold splitWs in *.
  destruct (splitWs_from_shape text false [] ltac:(discriminate))
    as (p & ps & E & _ & Hmid & _).
  assert (Hall : Forall (Forall (fun c => notSpace c = true))
                   (splitWs_from false [] text)).
  { apply Forall_forall. intros x Hx.
    apply (splitWs_from_notSpace text false [] x (Forall_nil _) Hx). }
  rewrite E in *. inversion Hall as [|? ? Hp Hps]; subst.
  exists p, ps. repeat split; try assumption.
  rewrite firstn_removelast by (cbn [length] in Hn; lia).
  apply Forall_forall. intros r Hr.
  assert (Hr' : In r (removelast ps)).
  { rewrite <- (firstn_skipn n (removelast ps)). apply in_or_app. now left. }
  split.
  - rewrite Forall_forall in Hmid. now apply Hmid.
  - rewrite Forall_forall in Hps. apply Hps.
    clear - Hr'. induction ps as [|a ps IH]; [destruct Hr'|].
    destruct ps as [|b ps]; [destruct Hr'|].
    change (removelast (a :: b :: ps)) with (a :: removelast (b :: ps)) in Hr'.
    destruct Hr' as [->|Hr']; [now left | right; now apply IH].
Qed.

(** A text that is cut splits into the words kept and the ellipsis. *)
Lemma truncated_words (text : jsstring) (n : nat) :
  (0 < n)%nat -> (n < length (splitWs text))%nat ->
  splitWs (join (str " ") (firstn n (splitWs text)) ++ str " ...")
  = firstn n (splitWs text) ++ [str "..."].
Proof.
  intros Hpos Hn. destruct n as [|n]; [lia|].
  destruct (kept_words text n Hn) as (p & ps & E & Hp & Hrest).
  rewrite E. cbn [firstn].
  change (str " ...") with (str " " ++ str "...").
  rewrite join_snoc by discriminate.
  change ((p :: firstn n ps) ++ [str "..."])
    with (p :: (firstn n ps ++ [str "..."])).
  unfold splitWs. rewrite splitWs_join; [reflexivity | exact Hp |].
  apply Forall_app. split; [exact Hrest|].
  constructor; [|constructor]. split; [discriminate|].
  repeat constructor.
Qed.

Lemma truncateDescription_cut (text : jsstring) (n : nat) :
  (n < length (splitWs text))%nat ->
  truncateDescription text n
  = join (str " ") (firstn n (splitWs text)) ++ str " ...".
Proof.
  intros Hn. unfold truncateDescription, slice0. cbv zeta.
  apply Nat.leb_gt in Hn. now rewrite Hn.
Qed.

Lemma truncateDescription_kept (text : jsstring) (n : nat) :
  (length (splitWs text) <= n)%nat -> truncateDescription text n = text.
Proof.
  intros Hn. unfold truncateDescription. cbv zeta.
  apply Nat.leb_le in Hn. now rewrite Hn.
Qed.

(** A truncated description has one word more than the limit, at most. *)
Lemma truncateDescription_length (text : jsstring) (n : nat) :
  (0 < n)%nat -> (length (splitWs (truncateDescription text n)) <= S n)%nat.
Proof.
  intros Hpos.
  destruct (le_lt_dec (length (splitWs text)) n) as [Hle|Hlt].
  - rewrite truncateDescription_kept by assumption. lia.
  - rewrite truncateDescription_cut, truncated_words by assumption.
    rewrite length_app, length_firstn. cbn [length]. lia.
Qed.

(** A description that is not empty is not truncated to the empty one. *)
Lemma truncateDescription_truthy (text : jsstring) (n : nat) :
  truthy text = true -> truthy (truncateDescription text n) = true.
Proof.
  intros Ht. unfold truncateDescription. cbv zeta.
  destruct (length (splitWs text) <=? n)%nat; [exact Ht|].
  destruct (join (str " ") (slice0 n (splitWs text))); reflexivity.
Qed.

(** X8.  Truncating a description twice to the same limit is truncating it
    once.  With a positive limit the result has at most one word more than
    the limit (the ellipsis) and starts with the same words as the text; a
    text with more words than the limit becomes its first words, joined by
    single spaces, followed by [" ..."]. *)
Theorem truncateDescription_idempotent (text : jsstring) (wordLimit : nat) :
  truncateDescription (truncateDescription text wordLimit) wordLimit
  = truncateDescription text wordLimit
  /\ ((0 < wordLimit)%nat ->
      (length (splitWs (truncateDescription text wordLimit)) <= S wordLimit)%nat
      /\ firstn wordLimit (splitWs (truncateDescription text wordLimit))
         = firstn wordLimit (splitWs text))
  /\ ((wordLimit < length (splitWs text))%nat ->
      truncateDescription text wordLimit
      = join (str " ") (firstn wordLimit (splitWs text)) ++ str " ...").
Proof.
  pose proof (truncateDescription_cut text wordLimit) as Hcut.
  destruct (le_lt_dec (length (splitWs text)) wordLimit) as [Hle|Hlt].
  - rewrite !(truncateDescription_kept text wordLimit Hle).
    split; [reflexivity|].
    split; [intros _; split; [lia | reflexivity] | intros; lia].
  - split; [|split; [|exact Hcut]].
    + rewrite (Hcut Hlt). destruct wordLimit as [|n].
      * reflexivity.
      * unfold truncateDescription at 1, slice0. cbv zeta.
        rewrite truncated_words by (assumption || lia).
        assert (Hlen : length (firstn (S n) (splitWs text)) = S n).
        { rewrite length_firstn. lia. }
        rewrite length_app, Hlen. cbn [length].
        replace (S n + 1 <=? S n)%nat with false
          by (symmetry; apply Nat.leb_gt; lia).
        rewrite firstn_app, Hlen, Nat.sub_diag, firstn_O, app_nil_r.
        rewrite firstn_all2 by lia. reflexivity.
    + intros Hpos. rewrite (Hcut Hlt), truncated_words by assumption.
      assert (Hlen : length (firstn wordLimit (splitWs text)) = wordLimit).
      { rewrite length_firstn. lia. }
      split.
      * rewrite length_app, Hlen. cbn [length]. lia.
      * rewrite firstn_app, Hlen, Nat.sub_diag, firstn_O, app_nil_r.
        apply firstn_all2. lia.
Qed.

(** X9.  The copy of [truncateDescription] in the search route and the one in
    the recommendations route agree for every positive limit and for every
    non-empty text; they differ on the empty text with limit 0, which the
    search route leaves empty and the recommendations route turns into
    [" ..."]. *)
Theorem truncateDescription_copies (text : jsstring) (wordLimit : nat) :
  Search.truncateDescription text (S wordLimit)
  = truncateDescription text (S wordLimit)
  /\ Search.truncateDescription (str "") 0 = str ""
  /\ truncateDescription (str "") 0 = str " ..."
  /\ (text <> [] ->
      Search.truncateDescription text wordLimit
      = truncateDescription text wordLimit).
Proof.
  repeat split.
  - destruct text as [|c text]; reflexivity.
  - intros Hne. destruct text as [|c text]; [congruence | reflexivity].
Qed.

(** ** Key parts *)

Lemma collapseSpaces_twice (s : jsstring) : forall b1 b2,
  collapseSpaces b1 (collapseSpaces b2 s) = collapseSpaces (b1 || b2) s.
Proof.
  induction s as [|c s IH]; intros b1 b2; [reflexivity|].
  cbn [collapseSpaces]. destruct (isSpace c) eqn:Ec.
  - destruct b2.
    + rewrite IH. now rewrite orb_true_r.
    + cbn [collapseSpaces]. rewrite SPACE_isSpace, orb_false_r.
      destruct b1; rewrite IH; reflexivity.
  - cbn [collapseSpaces]. rewrite Ec, IH. reflexivity.
Qed.

Lemma collapseSpaces_last (s : jsstring) (d : codeUnit) : forall b,
  isSpace d = false ->
  collapseSpaces b (s ++ [d]) = collapseSpaces b s ++ [d].
Proof.
  induction s as [|c s IH]; intros b Hd; cbn [app collapseSpaces].
  - now rewrite Hd.
  - destruct (isSpace c); [destruct b|]; rewrite IH by assumption; reflexivity.
Qed.

Section WithRuntime.
Variable rt : Runtime.

(** X10.  A normalized key part has no white space at either end, no two white
    space characters in a row, and no white space character other than the
    plain space: normalizing leaves it unchanged. *)
Theorem normalizeKeyPart_normal (value : jsstring) :
  trim (normalizeKeyPart rt value) = normalizeKeyPart rt value
  /\ collapseSpaces false (normalizeKeyPart rt value)
     = normalizeKeyPart rt value
  /\ Forall (fun c => isSpace c = true -> c = SPACE)
            (normalizeKeyPart rt value).
Proof.
  unfold normalizeKeyPart. set (u := trim (toLowerCase rt value)).
  split; [|split].
  - destruct (trim_ends (toLowerCase rt value))
      as [E|(c & r & d & Hc & Hd & E & Elast)]; fold u in E.
    + rewrite E. reflexivity.
    + fold u in Elast.
      assert (Eu : u = removelast u ++ [d]).
      { apply (f_equal (@rev _)) in Elast.
        rewrite rev_involutive in Elast. rewrite Elast at 1.
        cbn [rev]. now rewrite rev_involutive. }
      rewrite Eu, collapseSpaces_last by assumption.
      unfold trim, trimStart.
      assert (Eh : exists r', collapseSpaces false (removelast u) ++ [d]
                              = c :: r').
      { rewrite <- collapseSpaces_last, <- Eu, E by assumption.
        cbn [collapseSpaces]. rewrite Hc. eauto. }
      destruct Eh as (r' & Eh). rewrite Eh at 1. cbn [dropWhile].
      rewrite Hc, <- Eh. now apply trimEnd_last.
  - now rewrite collapseSpaces_twice.
  - generalize false. induction u as [|c u IH]; intros b; [constructor|].
    cbn [collapseSpaces]. destruct (isSpace c) eqn:Ec; [destruct b|].
    + apply IH.
    + constructor; [reflexivity | apply IH].
    + constructor; [congruence | apply IH].
Qed.

End WithRuntime.

End TextFacts.

(* ================================================================== *)
(** * Similarity to the shelves, and the total score *)
(* ================================================================== *)

Module SimilarityFacts.
Import JSFacts NumberFacts Effects Recommendations ScoringFacts.

(** ** Jaccard similarity *)

Lemma filter_all {A} (f : A -> bool) (l : list A) :
  (forall x, In x l -> f x = true) -> filter f l = l.
Proof.
  induction l as [|x l IH]; intros H; simpl; [reflexivity|].
  rewrite (H x (or_introl eq_refl)), IH; [reflexivity|].
  intros y Hy. apply H. now right.
Qed.

Lemma filter_none {A} (f : A -> bool) (l : list A) :
  length (filter f l) = 0%nat <-> forall x, In x l -> f x = false.
Proof.
  induction l as [|x l IH]; simpl; [tauto|].
  destruct (f x) eqn:E; simpl.
  - split; [lia|]. intros H. specialize (H x (or_introl eq_refl)). congruence.
  - rewrite IH. split.
    + intros H y [<-|Hy]; [assumption | now apply H].
    + intros H y Hy. apply H. now right.
Qed.

Lemma common_le_r (a b : list jsstring) :
  NoDup a -> (length (filter (Set_has b) a) <= length b)%nat.
Proof.
  intros Ha. apply NoDup_incl_length; [now apply NoDup_filter|].
  intros x Hx. apply filter_In in Hx as [_ Hx]. now apply Set_has_In.
Qed.

Lemma common_sym (a b : list jsstring) :
  NoDup a -> NoDup b ->
  length (filter (Set_has b) a) = length (filter (Set_has a) b).
Proof.
  intros Ha Hb. apply Permutation_length, NoDup_Permutation;
    try now apply NoDup_filter.
  intros x. rewrite !filter_In, !Set_has_In. tauto.
Qed.

(** The two ways through [jaccardSimilarity]. *)
Lemma jaccard_cases (a b : list jsstring) :
  ((a = [] \/ b = []) /\ jaccardSimilarity a b = 0)
  \/ (a <> [] /\ b <> []
      /\ jaccardSimilarity a b
         = fdiv (inject_Z (Z.of_nat (length (filter (Set_has b) a))))
                (inject_Z (Z.of_nat (length a + length b
                                     - length (filter (Set_has b) a))))
      /\ (0 < length a + length b - length (filter (Set_has b) a))%nat).
Proof.
  unfold jaccardSimilarity, Set_size. cbv zeta.
  pose proof (filter_length_le (Set_has b) a) as Hle.
  destruct a as [|x a]; [left; split; [now left | reflexivity]|].
  destruct b as [|y b]; [left; split; [now right | reflexivity]|].
  right. cbn [length Nat.eqb orb] in *.
  destruct (Nat.eqb_spec
              (S (length a) + S (length b)
               - length (filter (Set_has (y :: b)) (x :: a))) 0) as [E|E].
  - lia.
  - repeat split; try discriminate. lia.
Qed.

Lemma jaccard_nonneg (a b : list jsstring) : 0 <= jaccardSimilarity a b.
Proof.
  destruct (jaccard_cases a b) as [[_ ->]|(_ & _ & -> & Hpos)];
    [lra | now apply fdiv_nonneg].
Qed.

Lemma jaccard_le_1 (a b : list jsstring) :
  NoDup a -> jaccardSimilarity a b <= 1.
Proof.
  intros Ha. destruct (jaccard_cases a b) as [[_ ->]|(_ & _ & -> & Hpos)];
    [lra|].
  apply fdiv_bounds; [|assumption].
  pose proof (common_le_r a b Ha).
  pose proof (filter_length_le (Set_has b) a). lia.
Qed.

Lemma jaccard_zero (a b : list jsstring) :
  jaccardSimilarity a b == 0 <-> forall x, In x a -> ~ In x b.
Proof.
  destruct (jaccard_cases a b) as [[Hemp ->]|(_ & _ & -> & Hpos)].
  - split; [|reflexivity]. intros _ x Hx Hb.
    destruct Hemp as [->| ->]; contradiction.
  - rewrite (ratio_zero _ _ Hpos), filter_none.
    split; intros H x Hx; specialize (H x Hx).
    + now apply Set_has_notIn.
    + now apply Set_has_notIn.
Qed.

Lemma jaccard_sym (a b : list jsstring) :
  NoDup a -> NoDup b -> jaccardSimilarity a b == jaccardSimilarity b a.
Proof.
  intros Ha Hb.
  destruct (jaccard_cases a b) as [[Hemp ->]|(Hna & Hnb & -> & _)],
    (jaccard_cases b a) as [[Hemp' ->]|(Hnb' & Hna' & -> & _)];
    try reflexivity; try tauto.
  rewrite (common_sym a b Ha Hb), (Nat.add_comm (length a)). reflexivity.
Qed.

Lemma jaccard_self (a : list jsstring) :
  a <> [] -> jaccardSimilarity a a == 1.
Proof.
  intros Hne. destruct (jaccard_cases a a) as [[Hemp _]|(_ & _ & -> & Hpos)];
    [tauto|].
  assert (E : filter (Set_has a) a = a).
  { apply filter_all. intros x Hx. now apply Set_has_In. }
  rewrite E in *.
  replace (length a + length a - length a)%nat with (length a) in * by lia.
  now apply ratio_one.
Qed.

(** X11.  The Jaccard similarity of two token sets is never negative; it is 0
    exactly when the sets share no token (in particular when one is empty);
    it is at most 1, symmetric, and 1 for a non-empty set against itself. *)
Theorem jaccardSimilarity_properties (a b : list jsstring) :
  0 <= jaccardSimilarity a b
  /\ (jaccardSimilarity a b == 0 <-> forall x, In x a -> ~ In x b)
  /\ (NoDup a -> jaccardSimilarity a b <= 1)
  /\ (NoDup a -> NoDup b -> jaccardSimilarity a b == jaccardSimilarity b a)
  /\ (a <> [] -> jaccardSimilarity a a == 1).
Proof.
  split; [apply jaccard_nonneg|]. split; [apply jaccard_zero|].
  split; [apply jaccard_le_1|]. split; [apply jaccard_sym|].
  apply jaccard_self.
Qed.

(** ** The best match on a shelf *)

Lemma maxSimilarityFrom_spec (t : list jsstring)
  (sets : list (list jsstring)) : forall i best m,
  let d := maxSimilarityFrom t sets i best m in
  best <= sd_score d
  /\ (forall s, In s sets -> jaccardSimilarity t s <= sd_score d)
  /\ ((matchedIndex d = m /\ sd_score d = best
       /\ forall s, In s sets -> jaccardSimilarity t s <= best)
      \/ exists k s,
           nth_error sets k = Some s
           /\ matchedIndex d = (i + Z.of_nat k)%Z
           /\ sd_score d = jaccardSimilarity t s
           /\ best < jaccardSimilarity t s
           /\ forall j s', (j < k)%nat -> nth_error sets j = Some s' ->
                           jaccardSimilarity t s' < jaccardSimilarity t s).
Proof.
  induction sets as [|s rest IH]; intros i best m; cbv zeta.
  - cbn [maxSimilarityFrom sd_score matchedIndex].
    split; [lra|]. split; [intros s []|]. left. repeat split. intros s [].
  - cbn [maxSimilarityFrom].
    destruct (Qle_bool (jaccardSimilarity t s) best) eqn:Ele.
    + apply Qle_bool_iff in Ele.
      destruct (IH (i + 1)%Z best m) as (Hb & Hall & Hcase).
      split; [assumption|]. split.
      * intros s' [<-|Hs']; [lra | now apply Hall].
      * destruct Hcase as [(Hm & Hs & Hle)|(k & s' & Hn & Hm & Hs & Hlt & Hfirst)].
        -- left. repeat split; try assumption.
           intros s' [<-|Hs']; [assumption | now apply Hle].
        -- right. exists (S k), s'. repeat split; try assumption.
           ++ rewrite Hm. lia.
           ++ intros j s'' Hj Hn'. destruct j as [|j].
              ** cbn in Hn'. inversion Hn'; subst. lra.
              ** apply (Hfirst j s''); [lia | exact Hn'].
    + assert (Hgt : best < jaccardSimilarity t s).
      { apply Qnot_le_lt. intros H. apply Qle_bool_iff in H. congruence. }
      destruct (IH (i + 1)%Z (jaccardSimilarity t s) i) as (Hb & Hall & Hcase).
      split; [lra|]. split.
      * intros s' [<-|Hs']; [assumption | now apply Hall].
      * right.
        destruct Hcase as [(Hm & Hs & Hle)|(k & s' & Hn & Hm & Hs & Hlt & Hfirst)].
        -- exists 0%nat, s. repeat split; try assumption.
           ++ rewrite Hm. cbn. lia.
           ++ intros j s' Hj. lia.
        -- exists (S k), s'. repeat split; try assumption.
           ++ rewrite Hm. lia.
           ++ lra.
           ++ intros j s'' Hj Hn'. destruct j as [|j].
              ** cbn in Hn'. inversion Hn'; subst. assumption.
              ** apply (Hfirst j s''); [lia | exact Hn'].
Qed.

(** X12.  [maxSimilarityToShelfDetailed] returns the largest similarity of the
    candidate to a book of the shelf.  The index is -1, and the score 0,
    exactly when every similarity is 0 (so for an empty shelf); otherwise
    the index is that of the first shelf book that reaches the largest
    similarity. *)
Theorem maxSimilarity_is_best (t : list jsstring)
  (shelfTokenSets : list (list jsstring)) :
  let d := maxSimilarityToShelfDetailed t shelfTokenSets in
  0 <= sd_score d
  /\ (forall s, In s shelfTokenSets -> jaccardSimilarity t s <= sd_score d)
  /\ (matchedIndex d = (-1)%Z
      <-> forall s, In s shelfTokenSets -> jaccardSimilarity t s == 0)
  /\ (matchedIndex d = (-1)%Z -> sd_score d = 0)
  /\ (matchedIndex d <> (-1)%Z ->
      exists k s,
        matchedIndex d = Z.of_nat k
        /\ nth_error shelfTokenSets k = Some s
        /\ sd_score d = jaccardSimilarity t s
        /\ 0 < jaccardSimilarity t s
        /\ forall j s', (j < k)%nat -> nth_error shelfTokenSets j = Some s' ->
                        jaccardSimilarity t s' < jaccardSimilarity t s).
Proof.
  cbv zeta. unfold maxSimilarityToShelfDetailed.
  destruct (maxSimilarityFrom_spec t shelfTokenSets 0 0 (-1))
    as (H0 & Hall & Hcase).
  split; [assumption|]. split; [assumption|].
  destruct Hcase as [(Hm & Hs & Hle)|(k & s & Hn & Hm & Hs & Hlt & Hfirst)].
  - split; [|split; [intros _; assumption | intros H; congruence]].
    split; [|intros _; assumption]. intros _ s Hs'.
    pose proof (jaccard_nonneg t s). specialize (Hle s Hs'). lra.
  - split; [|split].
    + split; [intros E; rewrite Hm in E; lia|].
      intros Hz. apply nth_error_In in Hn. specialize (Hz s Hn). lra.
    + intros E. rewrite Hm in E. lia.
    + intros _. exists k, s. repeat split; assumption.
Qed.

(** ** The total score *)

Section WithRuntime.
Variable rt : Runtime.

Lemma tokenize_NoDup (text : jsstring) : NoDup (tokenize rt text).
Proof. unfold tokenize. apply Set_of_NoDup. Qed.

Lemma maxSimilarity_bounds (text : jsstring) (sets : list (list jsstring)) :
  0 <= sd_score (maxSimilarityToShelfDetailed (tokenize rt text) sets) <= 1.
Proof.
  unfold maxSimilarityToShelfDetailed.
  destruct (maxSimilarityFrom_spec (tokenize rt text) sets 0 0 (-1))
    as (H0 & _ & Hcase).
  split; [assumption|].
  destruct Hcase as [(_ & -> & _)|(k & s & _ & _ & -> & _)]; [lra|].
  apply jaccard_le_1, tokenize_NoDup.
Qed.

(** X13.  For every candidate the three component scores lie between 0
    and 1, and the total lies between 0 and the sum of the three weights as
    the program adds them, which is at most 1; a candidate with at least one
    effective genre scores at least the product of the genre weight and
    0.6.  Sums and products are those of the program, each rounded. *)
Theorem total_score_bounds (g : Gathered)
  (allGenres : list GenreMatch.GenreLite) (existing : list BookGenres)
  (c : CandidateBook) :
  let r := scoreCandidate rt (scoringContextOf rt g allGenres existing) c in
  let w := weightsFor (length (g_finishedLite g)) in
  0 <= finishedScore r <= 1
  /\ 0 <= toReadScore r <= 1
  /\ 0 <= genreScore r <= 1
  /\ weights r = w
  /\ 0 <= score r
  /\ score r <= fadd (fadd (w_genre w) (w_finished w)) (w_toRead w)
  /\ score r <= 1
  /\ (genreIds r <> [] -> fmul (w_genre w) (double 0.6) <= score r).
Proof.
  cbv zeta.
  destruct (genreScore_range rt (scoringContextOf rt g allGenres existing) c)
    as (Hzero & Hgs).
  revert Hzero Hgs.
  unfold scoreCandidate. cbv zeta.
  cbn [finishedScore toReadScore genreScore score weights genreIds
       scoringContextOf weightsUsed finishedTokenSets toReadTokenSets].
  set (ctx := scoringContextOf rt g allGenres existing).
  pose proof (maxSimilarity_bounds (candidateText c)
                (map (fun b => tokenize rt (shelfText b)) (g_finishedLite g)))
    as [Hf0 Hf1].
  pose proof (maxSimilarity_bounds (candidateText c)
                (map (fun b => tokenize rt (shelfText b)) (g_toReadLite g)))
    as [Ht0 Ht1].
  set (fs := sd_score (maxSimilarityToShelfDetailed _ (map _ (g_finishedLite g)))) in *.
  set (ts := sd_score (maxSimilarityToShelfDetailed _ (map _ (g_toReadLite g)))) in *.
  set (eff := effectiveGenreIds rt ctx c).
  set (gs := if (0 <? Set_size eff)%nat then _ else 0).
  intros Hzero Hgs.
  assert (D6 : 0 <= double 0.6) by closed_number.
  assert (Hg : 0 <= gs <= 1).
  { destruct eff as [|x eff'] eqn:Heff.
    - rewrite (Hzero eq_refl). split; discriminate.
    - destruct Hgs as [G0 G1]; [discriminate|].
      split; [eapply Qle_trans; eassumption | assumption]. }
  destruct Hg as [Hg0 Hg1].
  assert (Hg6 : eff <> [] -> double 0.6 <= gs).
  { intros Hne. now apply Hgs. }
  destruct (weightsFor_nonneg (length (g_finishedLite g))) as (Wg & Wf & Wt).
  set (w := weightsFor (length (g_finishedLite g))) in *.
  assert (Hsum : fadd (fadd (fmul (w_genre w) 1) (fmul (w_finished w) 1))
                      (fmul (w_toRead w) 1)
                 == fadd (fadd (w_genre w) (w_finished w)) (w_toRead w)
                 /\ fadd (fadd (w_genre w) (w_finished w)) (w_toRead w) <= 1
                 /\ fadd (fadd (fmul (w_genre w) (double 0.6)) 0) 0
                    == fmul (w_genre w) (double 0.6)).
  { subst w. unfold weightsFor, weightLiterals.
    destruct (0 <? length (g_finishedLite g))%nat;
      cbn [w_genre w_finished w_toRead]; repeat split; closed_number. }
  destruct Hsum as (Esum & Hone & Elow).
  assert (Hup : fadd (fadd (fmul (w_genre w) gs) (fmul (w_finished w) fs))
                     (fmul (w_toRead w) ts)
                <= fadd (fadd (w_genre w) (w_finished w)) (w_toRead w)).
  { rewrite <- Esum.
    apply fadd_le.
    - apply fadd_nonneg; now apply fmul_nonneg.
    - apply fadd_le; try (now apply fmul_nonneg);
        apply fmul_le; try assumption; apply Qle_refl.
    - now apply fmul_nonneg.
    - apply fmul_le; try assumption; apply Qle_refl. }
  split; [now split|]. split; [now split|]. split; [now split|].
  split; [reflexivity|]. split.
  { apply fadd_nonneg; [apply fadd_nonneg|]; now apply fmul_nonneg. }
  split; [exact Hup|]. split; [eapply Qle_trans; eassumption|].
  intros Hne. specialize (Hg6 Hne). rewrite <- Elow.
  apply fadd_le.
  - apply fadd_nonneg; [now apply fmul_nonneg|apply Qle_refl].
  - apply fadd_le.
    + now apply fmul_nonneg.
    + apply fmul_le; try assumption; apply Qle_refl.
    + apply Qle_refl.
    + now apply fmul_nonneg.
  - apply Qle_refl.
  - now apply fmul_nonneg.
Qed.

End WithRuntime.

End SimilarityFacts.

(* ================================================================== *)
(** * The candidate set *)
(* ================================================================== *)

Module AggregationFacts.
Import JSFacts Effects EffectsFacts Recommendations MergeFacts MatcherFacts.
Import GenreMatch Notions.

(** X14.  [addSourceGenre] does nothing for the genre id 0.  For another id it
    leaves the source genre ids and names without repetition, adds the id
    (and the name, when it is not empty) to those the candidate had and
    nothing else, changes no descriptive field, and adding the same genre a
    second time changes nothing. *)
Theorem addSourceGenre_properties (c : CandidateBook) (genreId : Z)
  (genreName : jsstring) :
  addSourceGenre c 0 genreName = c
  /\ (genreId <> 0%Z ->
      NoDup (sourceGenreIds (addSourceGenre c genreId genreName))
      /\ NoDup (sourceGenreNames (addSourceGenre c genreId genreName)))
  /\ (forall g, In g (sourceGenreIds (addSourceGenre c genreId genreName))
                <-> In g (sourceGenreIds c) \/ (g = genreId /\ genreId <> 0%Z))
  /\ (forall n, In n (sourceGenreNames (addSourceGenre c genreId genreName))
                <-> In n (sourceGenreNames c)
                    \/ (n = genreName /\ genreId <> 0%Z
                        /\ truthy genreName = true))
  /\ addSourceGenre (addSourceGenre c genreId genreName) genreId genreName
     = addSourceGenre c genreId genreName
  /\ descriptive (addSourceGenre c genreId genreName) = descriptive c.
Proof.
  split; [reflexivity|]. split; [|split; [|split; [|split]]].
  - intros Hne.
    destruct (addSourceGenre_hasGenre c genreId genreName)
      as [E|(_ & Hids & Hnames & _)]; [congruence | now split].
  - apply addSourceGenre_In_ids.
  - apply addSourceGenre_In_names.
  - apply addSourceGenre_fixed, addSourceGenre_hasGenre.
  - apply addSourceGenre_fields.
Qed.

(** ** Running a loop *)

Section Monad.
Variable W : Type.

Lemma bind_Ok {A B} (m : M W A) (k : A -> M W B) (st st' : State W) (b : B) :
  bind m k st = (Ok b, st') ->
  exists a st1, m st = (Ok a, st1) /\ k a st1 = (Ok b, st').
Proof.
  unfold bind. destruct (m st) as [[a|e] st1]; [|discriminate].
  intros H. now exists a, st1.
Qed.

Lemma foldM_invariant {A B} (P : B -> Prop) (f : B -> A -> M W B)
  (l : list A) :
  (forall b x st b' st', In x l -> P b -> f b x st = (Ok b', st') -> P b') ->
  forall b st b' st', P b -> foldM f l b st = (Ok b', st') -> P b'.
Proof.
  induction l as [|x l IH]; intros Hstep b st b' st' Hb; cbn [foldM].
  - unfold ret. intros E. inversion E; subst. exact Hb.
  - intros E. apply bind_Ok in E as (b1 & st1 & E1 & E2).
    apply (IH (fun b0 y s b0' s' Hy => Hstep b0 y s b0' s' (or_intror Hy))
              b1 st1 b' st'); [|exact E2].
    apply (Hstep b x st b1 st1); [now left | exact Hb | exact E1].
Qed.

End Monad.

Lemma fold_left_invariant {A B} (P : B -> Prop) (f : B -> A -> B)
  (l : list A) :
  (forall b x, In x l -> P b -> P (f b x)) ->
  forall b, P b -> P (fold_left f l b).
Proof.
  induction l as [|x l IH]; intros Hstep b Hb; cbn [fold_left]; [exact Hb|].
  apply IH.
  - intros b0 y Hy. apply Hstep. now right.
  - apply Hstep; [now left | exact Hb].
Qed.

Section MapFacts.
Context {K V : Type} {EK : SameValueZero K} {ES : SameValueZeroSpec EK}.

Lemma Map_get_Some_In (m : list (K * V)) (k : K) (v : V) :
  Map_get m k = Some v -> In (k, v) m.
Proof.
  induction m as [|[k' v'] m IH]; simpl; [discriminate|].
  destruct (sameValue k k') eqn:E.
  - apply sameValue_spec in E. subst. intros H. inversion H; subst. now left.
  - intros H. right. now apply IH.
Qed.

Lemma Map_set_In (m : list (K * V)) (k : K) (v : V) (e : K * V) :
  In e (Map_set m k v) -> e = (k, v) \/ In e m.
Proof.
  induction m as [|[k' v'] m IH]; simpl.
  - intros [<-|[]]. now left.
  - destruct (sameValue k k') eqn:E; simpl.
    + apply sameValue_spec in E. subst.
      intros [<-|H]; [now left | right; now right].
    + intros [<-|H]; [right; now left|].
      destruct (IH H); [now left | right; now right].
Qed.

End MapFacts.

Section WithRuntime.
Variable rt : Runtime.

(** The key reads the title, the authors and the id, nothing else. *)
Lemma key_ext (a b : CandidateBook) :
  title a = title b -> authors a = authors b ->
  googleBooksId a = googleBooksId b ->
  normalizedCandidateKey rt a = normalizedCandidateKey rt b.
Proof. unfold normalizedCandidateKey. now intros -> -> ->. Qed.

Lemma addSourceGenre_identity (e : CandidateBook) (gid : Z) (gname : jsstring) :
  title (addSourceGenre e gid gname) = title e
  /\ authors (addSourceGenre e gid gname) = authors e
  /\ googleBooksId (addSourceGenre e gid gname) = googleBooksId e.
Proof. unfold addSourceGenre. destruct (gid =? 0)%Z; repeat split. Qed.

Section Aggregation.
Variable excl : list jsstring.
Variable userGenres : list UserGenre.

Lemma candidateOf_wellFormed (ug : UserGenre) (book : CandidateBook) :
  In ug userGenres -> accepted excl book ->
  wellFormed rt excl userGenres (normalizedCandidateKey rt book)
    (candidateOf ug book).
Proof.
  intros Hug [Ht Hx].
  destruct (candidateOf_fields ug book) as (_ & _ & Egid & _).
  assert (Hids : forall g, In g (sourceGenreIds (candidateOf ug book))
                           <-> g = id (genre ug) /\ id (genre ug) <> 0%Z).
  { intros g. unfold candidateOf. rewrite addSourceGenre_In_ids.
    cbn [withSourceGenres sourceGenreIds]. simpl. tauto. }
  repeat split.
  - symmetry. apply key_candidateOf.
  - now rewrite Egid.
  - rewrite Egid. now apply Set_has_notIn.
  - unfold candidateOf.
    destruct (addSourceGenre_ids (withSourceGenres book [] [])
                (id (genre ug)) (name (genre ug))) as [H|H]; [exact H|].
    rewrite H. cbn. constructor.
  - apply Hids in H. destruct H as [-> H]. exact H.
  - apply Hids in H. destruct H as [-> _]. now exists ug.
  - intros Hnz E.
    assert (Hin : In (id (genre ug)) (sourceGenreIds (candidateOf ug book))).
    { apply Hids. split; [reflexivity | now apply Hnz]. }
    rewrite E in Hin. destruct Hin.
Qed.

Lemma addSourceGenre_wellFormed (ug : UserGenre) (k : jsstring)
  (e : CandidateBook) :
  In ug userGenres -> wellFormed rt excl userGenres k e ->
  wellFormed rt excl userGenres k
    (addSourceGenre e (id (genre ug)) (name (genre ug))).
Proof.
  intros Hug (Hk & Ht & Hx & Hnd & Hids & Hne).
  destruct (addSourceGenre_identity e (id (genre ug)) (name (genre ug)))
    as (Et & Ea & Eg).
  repeat split.
  - rewrite Hk. symmetry. now apply key_ext.
  - now rewrite Eg.
  - now rewrite Eg.
  - destruct (addSourceGenre_ids e (id (genre ug)) (name (genre ug)))
      as [H|H]; [exact H|].
    rewrite H. cbn. exact Hnd.
  - apply addSourceGenre_In_ids in H as [H|[-> H]];
      [now apply Hids | exact H].
  - apply addSourceGenre_In_ids in H as [H|[-> H]];
      [now apply Hids | now exists ug].
  - intros Hnz E. specialize (Hne Hnz).
    destruct (sourceGenreIds e) as [|g ids] eqn:Ee; [congruence|].
    assert (Hin : In g (sourceGenreIds
                          (addSourceGenre e (id (genre ug)) (name (genre ug))))).
    { apply addSourceGenre_In_ids. left. rewrite Ee. now left. }
    rewrite E in Hin. destruct Hin.
Qed.

Lemma mergedWith_wellFormed (k : jsstring) (e c : CandidateBook) :
  wellFormed rt excl userGenres k e -> wellFormed rt excl userGenres k c ->
  wellFormed rt excl userGenres k (mergedWith e c).
Proof.
  intros (_ & _ & _ & _ & Hide & _) (Hk & Ht & Hx & _ & Hidc & Hnec).
  assert (Hin : forall g, In g (sourceGenreIds (mergedWith e c))
                          <-> In g (sourceGenreIds e) \/ In g (sourceGenreIds c)).
  { intros g. unfold mergedWith. cbn [withSourceGenres sourceGenreIds].
    now rewrite fold_Set_add_In, Set_of_In. }
  repeat split; try assumption.
  - unfold mergedWith. cbn [withSourceGenres sourceGenreIds].
    apply fold_Set_add_NoDup, Set_of_NoDup.
  - apply Hin in H as [H|H]; [now apply Hide | now apply Hidc].
  - apply Hin in H as [H|H]; [now apply Hide | now apply Hidc].
  - intros Hnz E. specialize (Hnec Hnz).
    destruct (sourceGenreIds c) as [|g ids] eqn:Ec; [congruence|].
    assert (H : In g (sourceGenreIds (mergedWith e c))).
    { apply Hin. right. now left. }
    rewrite E in H. destruct H.
Qed.

(** One raw book leaves the candidate map well formed. *)
Lemma mergeCandidate_candidateSet (ug : UserGenre)
  (m : list (jsstring * CandidateBook)) (book : CandidateBook) :
  In ug userGenres -> candidateSet rt excl userGenres m ->
  candidateSet rt excl userGenres (mergeCandidate rt excl ug m book).
Proof.
  intros Hug [Hnd Hwf].
  destruct (truthy (googleBooksId book)) eqn:Et;
    [destruct (Set_has excl (googleBooksId book)) eqn:Ex|].
  - rewrite mergeCandidate_skipped; [now split|].
    intros [_ H]. congruence.
  - assert (Hacc : accepted excl book) by now split.
    rewrite (mergeCandidate_accepted rt excl ug m book Hacc). cbv zeta.
    pose proof (candidateOf_wellFormed ug book Hug Hacc) as Hc.
    set (key := normalizedCandidateKey rt book) in *.
    assert (Hset : forall v, wellFormed rt excl userGenres key v ->
                             candidateSet rt excl userGenres (Map_set m key v)).
    { intros v Hv. split; [now apply Map_set_keys_NoDup|].
      intros k c Hin. apply Map_set_In in Hin as [E|Hin];
        [inversion E; subst; exact Hv | now apply Hwf]. }
    destruct (Map_get m key) as [e0|] eqn:Eg; [|now apply Hset].
    apply Map_get_Some_In in Eg. apply Hwf in Eg.
    pose proof (addSourceGenre_wellFormed ug key e0 Hug Eg) as He.
    destruct (shouldReplace _ book); apply Hset;
      [now apply mergedWith_wellFormed | exact He].
  - rewrite mergeCandidate_skipped; [now split|].
    intros [H _]. congruence.
Qed.

End Aggregation.

(** ** Every raw book is represented *)

Section Batches.
Variable excl : list jsstring.







End Batches.

Section WithWorld.
Variable W : Type.
Variable sv : Services W.



(** The aggregation loop returns a well-formed candidate map. *)
Lemma aggregate_candidateSet (userGenres : list UserGenre)
  (excl : list jsstring) (st st' : State W)
  (m : list (jsstring * CandidateBook)) :
  aggregate rt sv userGenres excl st = (Ok m, st') ->
  candidateSet rt excl userGenres m.
Proof.
  unfold aggregate.
  apply (foldM_invariant W (candidateSet rt excl userGenres)).
  - intros b ug s b' s' Hug Hb E.
    apply bind_Ok in E as (rawBooks & s1 & _ & E).
    unfold ret in E. inversion E; subst.
    apply fold_left_invariant; [|exact Hb].
    intros b0 book _. now apply mergeCandidate_candidateSet.
  - split; [constructor | intros k c []].
Qed.

Lemma candidateSet_values (userGenres : list UserGenre) (excl : list jsstring)
  (m : list (jsstring * CandidateBook)) (c : CandidateBook) :
  candidateSet rt excl userGenres m -> In c (Map_values m) ->
  wellFormed rt excl userGenres (normalizedCandidateKey rt c) c.
Proof.
  intros [_ Hwf] Hc. apply in_map_iff in Hc as ([k c'] & E & Hin).
  cbn in E. subst c'. pose proof (Hwf k c Hin) as H.
  destruct H as (Hk & _). rewrite <- Hk. now apply Hwf.
Qed.

(** X16.  After the aggregation loop every candidate is filed under its own
    normalized key, and no two candidates have the same normalized key. *)
Theorem candidates_have_distinct_keys (userGenres : list UserGenre)
  (excl : list jsstring) (st st' : State W)
  (m : list (jsstring * CandidateBook)) :
  aggregate rt sv userGenres excl st = (Ok m, st') ->
  map (normalizedCandidateKey rt) (Map_values m) = Map_keys m
  /\ NoDup (map (normalizedCandidateKey rt) (Map_values m)).
Proof.
  intros Hrun. apply aggregate_candidateSet in Hrun as [Hnd Hwf].
  assert (E : map (normalizedCandidateKey rt) (Map_values m) = Map_keys m).
  { unfold Map_values, Map_keys. rewrite map_map. apply map_ext_in.
    intros [k c] Hin. cbn. symmetry. now apply (Hwf k c Hin). }
  split; [exact E | now rewrite E].
Qed.

(** X17.  After the aggregation loop every candidate has a non-empty Google
    Books id that is not among the excluded ids. *)
Theorem candidates_avoid_excluded (userGenres : list UserGenre)
  (excl : list jsstring) (st st' : State W)
  (m : list (jsstring * CandidateBook)) :
  aggregate rt sv userGenres excl st = (Ok m, st') ->
  Forall (fun c => truthy (googleBooksId c) = true
                   /\ ~ In (googleBooksId c) excl)
         (Map_values m).
Proof.
  intros Hrun. apply aggregate_candidateSet in Hrun.
  apply Forall_forall. intros c Hc.
  destruct (candidateSet_values _ _ _ _ Hrun Hc) as (_ & Ht & Hx & _).
  now split.
Qed.

(** X18.  After the aggregation loop the source genre ids of every candidate are
    pairwise distinct, are ids of preferred genres of the user, and are not
    0; when no preferred genre has the id 0, every candidate has at least
    one source genre. *)
Theorem candidates_carry_user_genres (userGenres : list UserGenre)
  (excl : list jsstring) (st st' : State W)
  (m : list (jsstring * CandidateBook)) :
  aggregate rt sv userGenres excl st = (Ok m, st') ->
  Forall (fun c =>
            NoDup (sourceGenreIds c)
            /\ incl (sourceGenreIds c)
                    (map (fun ug => id (genre ug)) userGenres)
            /\ ~ In 0%Z (sourceGenreIds c)
            /\ ((forall ug, In ug userGenres -> id (genre ug) <> 0%Z) ->
                sourceGenreIds c <> []))
         (Map_values m).
Proof.
  intros Hrun. apply aggregate_candidateSet in Hrun.
  apply Forall_forall. intros c Hc.
  destruct (candidateSet_values _ _ _ _ Hrun Hc)
    as (_ & _ & _ & Hnd & Hids & Hne).
  repeat split; try assumption.
  - intros g Hg. destruct (Hids g Hg) as (_ & ug & Hug & <-).
    apply in_map_iff. now exists ug.
  - intros H0. now destruct (Hids 0%Z H0).
Qed.

Lemma seen_keeps_excluded (seen : list UserBook) : forall ids x,
  In x ids ->
  In x (fold_left (fun ids ub =>
                     match ub_book ub with
                     | Some gid => if truthy gid then Set_add ids gid else ids
                     | None => ids
                     end) seen ids).
Proof.
  induction seen as [|ub seen IH]; intros ids x Hx; cbn [fold_left];
    [exact Hx|].
  apply IH. destruct (ub_book ub) as [gid|]; [|exact Hx].
  destruct (truthy gid); [|exact Hx]. apply Set_add_In. now left.
Qed.

(** X19.  What the handler gathers before scoring: the candidates are for the
    preferred genres it was given, and no candidate is a book of the
    To-Read or of the Finished shelf of the user. *)
Theorem shelved_books_are_not_candidates (userId : Z)
  (userGenres : list UserGenre) (st st' : State W) (g : Gathered) :
  gather rt sv userId userGenres st = (Ok g, st') ->
  g_userGenres g = userGenres
  /\ Forall (fun c =>
               truthy (googleBooksId c) = true
               /\ ~ In (googleBooksId c)
                       (map sl_googleBooksId
                            (g_toReadLite g ++ g_finishedLite g)))
            (g_candidates g).
Proof.
  unfold gather. intros Hrun.
  apply bind_Ok in Hrun as (toRead & s1 & _ & Hrun).
  apply bind_Ok in Hrun as (finished & s2 & _ & Hrun).
  apply bind_Ok in Hrun as (seen & s3 & _ & Hrun).
  apply bind_Ok in Hrun as (candidateMap & s4 & Hagg & Hrun).
  unfold ret in Hrun. inversion Hrun; subst.
  cbn [g_userGenres g_toReadLite g_finishedLite g_candidates].
  split; [reflexivity|].
  apply aggregate_candidateSet in Hagg.
  apply Forall_forall. intros c Hc.
  destruct (candidateSet_values _ _ _ _ Hagg Hc) as (_ & Ht & Hx & _).
  split; [exact Ht|]. intros Hin. apply Hx.
  apply seen_keeps_excluded, Set_of_In. now rewrite <- map_app.
Qed.

End WithWorld.

End WithRuntime.

(** X16, witness: two preferred genres, six books found for each of them; two
    editions of one title share a key, and two keys are left. *)
Lemma candidates_have_distinct_keys_witness :
  Map_keys (Library.valueOf [] Library.aggregated)
  = [str "dune|frank herbert"; str "foundation|isaac asimov"]
  /\ map (normalizedCandidateKey Demo.asciiRuntime)
         (Map_values (Library.valueOf [] Library.aggregated))
     = Map_keys (Library.valueOf [] Library.aggregated)
  /\ NoDup (map (normalizedCandidateKey Demo.asciiRuntime)
              (Map_values (Library.valueOf [] Library.aggregated))).
Proof.
  split; [reflexivity|].
  exact (candidates_have_distinct_keys Demo.asciiRuntime unit Library.library
           Library.preferred [str "E"] Demo.start
           (snd Library.aggregated) (Library.valueOf [] Library.aggregated)
           eq_refl).
Defined.

(** X17, witness: the book [E] stands on the Finished shelf and is not among the
    candidates. *)
Lemma candidates_avoid_excluded_witness :
  map googleBooksId (Map_values (Library.valueOf [] Library.aggregated))
  = [str "C"; str "F"]
  /\ Forall (fun c => truthy (googleBooksId c) = true
                      /\ ~ In (googleBooksId c) [str "E"])
            (Map_values (Library.valueOf [] Library.aggregated)).
Proof.
  split; [reflexivity|].
  exact (candidates_avoid_excluded Demo.asciiRuntime unit Library.library
           Library.preferred [str "E"] Demo.start
           (snd Library.aggregated) (Library.valueOf [] Library.aggregated)
           eq_refl).
Defined.

(** X18, witness: both candidates were found for both preferred genres. *)
Lemma candidates_carry_user_genres_witness :
  map sourceGenreIds (Map_values (Library.valueOf [] Library.aggregated))
  = [[1%Z; 2%Z]; [1%Z; 2%Z]]
  /\ Forall (fun c =>
               NoDup (sourceGenreIds c)
               /\ incl (sourceGenreIds c)
                       (map (fun ug => id (genre ug)) Library.preferred)
               /\ ~ In 0%Z (sourceGenreIds c)
               /\ ((forall ug, In ug Library.preferred ->
                               id (genre ug) <> 0%Z) ->
                   sourceGenreIds c <> []))
            (Map_values (Library.valueOf [] Library.aggregated)).
Proof.
  split; [reflexivity|].
  exact (candidates_carry_user_genres Demo.asciiRuntime unit Library.library
           Library.preferred [str "E"] Demo.start
           (snd Library.aggregated) (Library.valueOf [] Library.aggregated)
           eq_refl).
Defined.

(** X19, witness: the handler reads the Finished shelf, which holds [E], and
    gathers the candidates [C] and [F]. *)
Lemma shelved_books_are_not_candidates_witness :
  map sl_googleBooksId
      (g_finishedLite (Library.valueOf Library.nothingGathered Library.gathered))
  = [str "E"]
  /\ map googleBooksId
         (g_candidates (Library.valueOf Library.nothingGathered Library.gathered))
     = [str "C"; str "F"]
  /\ Forall (fun c =>
               truthy (googleBooksId c) = true
               /\ ~ In (googleBooksId c)
                       (map sl_googleBooksId
                          (g_toReadLite
                             (Library.valueOf Library.nothingGathered
                                Library.gathered)
                           ++ g_finishedLite
                                (Library.valueOf Library.nothingGathered
                                   Library.gathered))))
            (g_candidates
               (Library.valueOf Library.nothingGathered Library.gathered)).
Proof.
  split; [reflexivity|]. split; [reflexivity|].
  exact (proj2 (shelved_books_are_not_candidates Demo.asciiRuntime unit
                  Library.library 7 Library.preferred Demo.start
                  (snd Library.gathered)
                  (Library.valueOf Library.nothingGathered Library.gathered)
                  eq_refl)).
Defined.

End AggregationFacts.

(* ================================================================== *)
(** * Responses *)
(* ================================================================== *)

Module ResponseFacts.
Import JSFacts SortFacts Effects EffectsFacts Recommendations ScoringFacts.
Import MatcherFacts AggregationFacts GenreMatch.

(** ** The genres listed with a recommendation *)

Lemma byNumber_total (a b : Z) : 0 < byNumber a b -> byNumber b a <= 0.
Proof.
  unfold byNumber. change 0 with (inject_Z 0).
  rewrite <- Zlt_Qlt, <- Zle_Qle. lia.
Qed.

Lemma byNumber_trans (a b c : Z) :
  byNumber a b <= 0 -> byNumber b c <= 0 -> byNumber a c <= 0.
Proof.
  unfold byNumber. change 0 with (inject_Z 0).
  rewrite <- !Zle_Qle. lia.
Qed.

Lemma sorted_distinct_increasing (l : list Z) :
  StronglySorted (notAfter byNumber) l -> NoDup l -> StronglySorted Z.lt l.
Proof.
  induction 1 as [|x l Hl IH Hx]; intros Hnd; constructor.
  - apply IH. now inversion Hnd.
  - inversion Hnd as [|? ? Hnotin _]; subst.
    apply Forall_forall. intros y Hy.
    rewrite Forall_forall in Hx. specialize (Hx y Hy).
    unfold notAfter, byNumber in Hx. change 0 with (inject_Z 0) in Hx.
    rewrite <- Zle_Qle in Hx.
    assert (x <> y) by (intros ->; contradiction). lia.
Qed.

(** The name map holds names of genres under their ids. *)
Lemma genreNameById_entries (allGenres : list GenreLite) (k : Z)
  (n : jsstring) :
  Map_get (fold_left (fun m g => Map_set m (id g) (name g)) allGenres []) k
  = Some n ->
  exists g, In g allGenres /\ id g = k /\ name g = n.
Proof.
  intros H. apply Map_get_Some_In in H. revert H.
  apply (fold_left_invariant
           (fun m => In (k, n) m ->
                     exists g, In g allGenres /\ id g = k /\ name g = n)).
  - intros m g Hg Hm Hin. apply Map_set_In in Hin as [E|Hin];
      [|now apply Hm].
    inversion E; subst. now exists g.
  - intros [].
Qed.

(** X20.  In the response the source genre ids of a book are the effective genre
    ids of its scored candidate, each once, in strictly increasing order;
    every source genre name is the non-empty name of a known genre whose id
    is listed; the descriptive fields are those of the candidate. *)
Theorem response_genres (allGenres : list GenreLite) (r : ScoredCandidate) :
  let b := responseBook allGenres r in
  StronglySorted Z.lt (sourceGenreIds b)
  /\ (forall g, In g (sourceGenreIds b) <-> In g (genreIds r))
  /\ (forall n, In n (sourceGenreNames b) ->
        truthy n = true
        /\ exists g, In g allGenres /\ name g = n
                     /\ In (id g) (sourceGenreIds b))
  /\ descriptive b = descriptive (candidate r).
Proof.
  cbv zeta. unfold responseBook. cbv zeta.
  cbn [withSourceGenres sourceGenreIds sourceGenreNames].
  set (ids := sort byNumber (Set_of (genreIds r))).
  assert (Hperm : Permutation ids (Set_of (genreIds r)))
    by apply sort_perm.
  split; [|split; [|split]].
  - apply sorted_distinct_increasing.
    + apply sort_sorted; [exact byNumber_total | exact byNumber_trans].
    + apply (Permutation_NoDup (Permutation_sym Hperm)), Set_of_NoDup.
  - intros g. rewrite <- (Set_of_In (genreIds r)). split; intros H.
    + now apply (Permutation_in _ Hperm).
    + now apply (Permutation_in _ (Permutation_sym Hperm)).
  - intros n Hn. apply in_flat_map in Hn as (k & Hk & Hn).
    destruct (Map_get _ k) as [n'|] eqn:Eg; [|destruct Hn].
    destruct (truthy n') eqn:Et; [|destruct Hn].
    destruct Hn as [<-|[]]. split; [exact Et|].
    apply genreNameById_entries in Eg as (g & Hg & <- & Hname).
    now exists g.
  - reflexivity.
Qed.

Section WithWorld.
Variable rt : Runtime.
Variable W : Type.
Variable sv : Services W.

(** ** Writing the genres back *)

Lemma persistGenres_total (ctx : ScoringContext) (r : ScoredCandidate) :
  total (persistGenres rt sv ctx r).
Proof.
  unfold persistGenres. cbv zeta.
  destruct (Set_size _ =? 0)%nat; [apply total_ret|].
  apply total_tryCatch. intros e. apply total_ret.
Qed.

(** X21.  Once the genres and the stored book genres have been read, the ranked
    handler answers 200 with the top candidates whatever the database
    writes do: a failing upsert or a failing insert of book genres is
    caught, and the response is the one computed from the scores. *)
Theorem persistence_failures_are_harmless (g : Gathered) (st : State W)
  (allGenres : list GenreLite) (w1 : W) (existing : list BookGenres) (w2 : W) :
  respond sv GenreFindMany (world st) = (Ok allGenres, w1) ->
  respond sv (BookFindMany (map googleBooksId (g_candidates g))) w1
  = (Ok existing, w2) ->
  exists st',
    recommend rt sv g st
    = (Ok {| status := 200;
             body := JsonBooks
               (map (responseBook allGenres)
                  (rankTop
                     (map (scoreCandidate rt
                             (scoringContextOf rt g allGenres existing))
                          (g_candidates g)))) |}, st').
Proof.
  intros H1 H2. unfold recommend, bind at 1, perform at 1. rewrite H1.
  unfold bind at 1, perform at 1. cbn [world trace]. rewrite H2.
  unfold bind at 1, emit at 1. cbn [world trace].
  set (ctx := scoringContextOf rt g allGenres existing).
  set (top := rankTop (map (scoreCandidate rt ctx) (g_candidates g))).
  unfold bind.
  match goal with
  | |- context [mapM ?f ?l ?s] =>
      destruct (total_mapM W f l (persistGenres_total ctx) s)
        as (done & st' & E); rewrite E
  end.
  now exists st'.
Qed.

(** ** The handlers never throw *)

Lemma tryCatch_Ok {A} (m : M W A) (h : Error -> M W A) (st st' : State W)
  (a : A) :
  tryCatch m h st = (Ok a, st') ->
  m st = (Ok a, st')
  \/ exists e st1, m st = (Throw e, st1) /\ h e st1 = (Ok a, st').
Proof.
  unfold tryCatch. destruct (m st) as [[a'|e] st1]; intros H.
  - now left.
  - right. now exists e, st1.
Qed.

Lemma ranked_inner_status (userId : Z) (st st' : State W)
  (resp : Response CandidateBook) :
  bind (perform sv (UserGenreFindMany userId))
    (fun userGenres =>
       match userGenres with
       | [] => ret noGenres
       | _ :: _ =>
           bind (gather rt sv userId userGenres)
             (fun g =>
                match g_candidates g with
                | [] => ret {| status := 200; body := JsonBooks [] |}
                | _ :: _ => recommend rt sv g
                end)
       end) st = (Ok resp, st') ->
  status resp = 200%Z.
Proof.
  intros H. apply bind_Ok in H as (userGenres & s1 & _ & H).
  destruct userGenres as [|ug ugs].
  - unfold ret in H. now inversion H.
  - apply bind_Ok in H as (g & s2 & _ & H).
    destruct (g_candidates g).
    + unfold ret in H. now inversion H.
    + apply recommend_response in H as (allGenres & existing & ->).
      reflexivity.
Qed.

Lemma roundRobin_inner_status (userId : Z) (st st' : State W)
  (resp : Response CandidateBook) :
  bind (perform sv (UserGenreFindMany userId))
    (fun userGenres =>
       match userGenres with
       | [] => ret noGenres
       | _ :: _ =>
           bind (RoundRobin.fillPools rt sv userId userGenres)
             (fun genreBookPool =>
                let genreIds := map (fun ug => id (genre ug)) userGenres in
                bind (random sv)
                  (fun r =>
                     let genreIndex :=
                       Qfloor (fmul r (inject_Z (Z.of_nat (length genreIds)))) in
                     match (if (genreIndex <? 0)%Z then None
                            else RoundRobin.rotate (20 + length genreIds) []
                                   genreIds (Z.to_nat genreIndex)
                                   genreBookPool) with
                     | None => throw typeError
                     | Some finalRecommendations =>
                         ret {| status := 200;
                                body := JsonBooks finalRecommendations |}
                     end))
       end) st = (Ok resp, st') ->
  status resp = 200%Z.
Proof.
  intros H. apply bind_Ok in H as (userGenres & s1 & _ & H).
  destruct userGenres as [|ug ugs].
  - unfold ret in H. now inversion H.
  - apply bind_Ok in H as (pools & s2 & _ & H). cbv zeta in H.
    apply bind_Ok in H as (r & s3 & _ & H).
    destruct (if (_ <? 0)%Z then None else _) as [final|].
    + unfold ret in H. now inversion H.
    + unfold throw in H. discriminate.
Qed.

(** X22.  Both versions of [GET /fetch/:userId] always answer, whatever the
    database and the remote services do.  A user id that does not parse, or
    parses to 0, is answered 400 without any call; any other request is
    answered 200, or 500 when a call failed. *)
Theorem fetch_handlers_answer (userIdParam : jsstring) :
  total (fetchHandler rt sv userIdParam)
  /\ total (RoundRobin.fetchHandler rt sv userIdParam)
  /\ forall st resp st',
       (fetchHandler rt sv userIdParam st = (Ok resp, st')
        \/ RoundRobin.fetchHandler rt sv userIdParam st = (Ok resp, st')) ->
       match parseInt rt userIdParam with
       | None | Some 0%Z => resp = invalidUserId /\ st' = st
       | Some _ => status resp = 200%Z \/ exists err, resp = failed err
       end.
Proof.
  unfold fetchHandler, RoundRobin.fetchHandler.
  assert (Hcatch : forall (m : M W (Response CandidateBook)),
             total (tryCatch m (fun err => ret (failed err)))).
  { intros m. apply total_tryCatch. intros e. apply total_ret. }
  assert (Hresp : forall (m : M W (Response CandidateBook)) st resp st',
             (forall s r s', m s = (Ok r, s') -> status r = 200%Z) ->
             tryCatch m (fun err => ret (failed err)) st = (Ok resp, st') ->
             status resp = 200%Z \/ exists err, resp = failed err).
  { intros m st resp st' Hm H.
    apply tryCatch_Ok in H as [H|(e & s1 & _ & H)].
    - left. now apply (Hm st resp st').
    - right. unfold ret in H. inversion H; subst. now exists e. }
  destruct (parseInt rt userIdParam) as [[|p|p]|].
  - split; [apply total_ret|]. split; [apply total_ret|].
    intros st resp st' [H|H]; unfold ret in H; now inversion H.
  - split; [apply Hcatch|]. split; [apply Hcatch|].
    intros st resp st' [H|H]; apply Hresp in H; try exact H; intros s r s'.
    + apply ranked_inner_status.
    + apply roundRobin_inner_status.
  - split; [apply Hcatch|]. split; [apply Hcatch|].
    intros st resp st' [H|H]; apply Hresp in H; try exact H; intros s r s'.
    + apply ranked_inner_status.
    + apply roundRobin_inner_status.
  - split; [apply total_ret|]. split; [apply total_ret|].
    intros st resp st' [H|H]; unfold ret in H; now inversion H.
Qed.

Lemma bind_ret_first {A B} (a : A) (k : A -> M W B) : bind (ret a) k = k a.
Proof. reflexivity. Qed.

Lemma bind_throw_first {A B} (e : Error) (k : A -> M W B) :
  bind (throw e) k = throw e.
Proof. reflexivity. Qed.

(** X23.  What both versions of [GET /search] do with the [query] parameter.
    An absent query, and a string, are always answered: an absent or blank
    one with 400 and without any call, any other string with 200 and a list
    of books, or with 500 when a call failed.  An array or an object (a
    repeated or a nested parameter) makes the handler throw before its
    [try], without any call: no response is produced. *)
Theorem search_handlers_outcomes (queryParam : Search.QueryValue) :
  match queryParam with
  | Search.QueryArray _ | Search.QueryObject _ =>
      forall st,
        Search.searchHandler rt sv queryParam st
        = (Throw Search.notAFunction, st)
        /\ Search.searchHandler1 rt sv queryParam st
           = (Throw Search.notAFunction, st)
  | Search.QueryAbsent | Search.QueryString _ =>
      total (Search.searchHandler rt sv queryParam)
      /\ total (Search.searchHandler1 rt sv queryParam)
      /\ forall st resp st',
           (Search.searchHandler rt sv queryParam st = (Ok resp, st')
            \/ Search.searchHandler1 rt sv queryParam st = (Ok resp, st')) ->
           if match queryParam with
              | Search.QueryString q => truthy (trim q)
              | _ => false
              end
           then (status resp = 200%Z
                 /\ exists books, body resp = JsonBooks books)
                \/ resp = Search.failed
           else resp = Search.missingQuery /\ st' = st
  end.
Proof.
  assert (Hmissing :
            total (ret (W := W) (Search.missingQuery))
            /\ total (ret (W := W) (Search.missingQuery))
            /\ forall (st : State W) resp st',
                 (ret Search.missingQuery st = (Ok resp, st')
                  \/ ret Search.missingQuery st = (Ok resp, st')) ->
                 resp = Search.missingQuery /\ st' = st).
  { split; [apply total_ret|]. split; [apply total_ret|].
    intros st resp st' [H|H]; unfold ret in H; now inversion H. }
  destruct queryParam as [|q|items|fields];
    unfold Search.searchHandler, Search.searchHandler1, Search.trimmedQuery.
  - rewrite !bind_ret_first. cbn [Search.missing]. exact Hmissing.
  - rewrite !bind_ret_first. cbn [Search.missing Search.orEmpty].
    destruct (truthy (trim q)); cbn [negb]; [|exact Hmissing].
    split; [|split].
    + apply total_tryCatch. intros e. apply total_ret.
    + apply total_tryCatch. intros e. apply total_ret.
    + intros st resp st' [H|H];
        apply tryCatch_Ok in H as [H|(e & s1 & _ & H)];
        try (right; unfold ret in H; now inversion H); left.
      * apply bind_Ok in H as (genres & s1 & _ & H).
        apply bind_Ok in H as (books & s2 & _ & H).
        apply bind_Ok in H as (existing & s3 & _ & H).
        unfold ret in H. inversion H; subst. split; [reflexivity|].
        eexists. reflexivity.
      * apply bind_Ok in H as (books & s1 & _ & H).
        unfold ret in H. inversion H; subst. split; [reflexivity|].
        eexists. reflexivity.
  - intros st. rewrite !bind_throw_first. split; reflexivity.
  - intros st. rewrite !bind_throw_first. split; reflexivity.
Qed.

End WithWorld.

(** X21, witness: the database refuses every write, and the request is answered
    all the same. *)
Lemma persistence_failures_are_harmless_witness :
  (exists e,
     respond Library.readOnly (BookUpsert (str "C")) tt = (Throw e, tt))
  /\ exists st',
       recommend Demo.asciiRuntime Library.readOnly Library.found Demo.start
       = (Ok {| status := 200;
                body := JsonBooks
                  (map (responseBook [Demo.fiction; Demo.scienceFiction])
                     (rankTop
                        (map (scoreCandidate Demo.asciiRuntime
                                (scoringContextOf Demo.asciiRuntime
                                   Library.found
                                   [Demo.fiction; Demo.scienceFiction] []))
                             (g_candidates Library.found)))) |}, st').
Proof.
  split; [eexists; reflexivity|].
  exact (persistence_failures_are_harmless Demo.asciiRuntime unit
           Library.readOnly Library.found Demo.start
           [Demo.fiction; Demo.scienceFiction] tt [] tt eq_refl eq_refl).
Defined.

End ResponseFacts.

(* ================================================================== *)
(** * What the fetchers return *)
(* ================================================================== *)

Module FetchFacts.
Import JSFacts SortFacts Effects EffectsFacts CoverFacts SearchFacts.
Import MatcherFacts TextFacts AggregationFacts GenreMatch.

(** The address of a cover: Open Library's large picture for a cover id. *)
Lemma coverAddress_truthy (n : Z) :
  truthy (str "https://covers.openlibrary.org/b/id/" ++ numberToString n
          ++ str "-L.jpg") = true.
Proof. reflexivity. Qed.

Lemma orUnknown_truthy (s : jsstring) :
  truthy (Recommendations.orUnknown s) = true.
Proof.
  unfold Recommendations.orUnknown.
  destruct (truthy s) eqn:E; [exact E | reflexivity].
Qed.

Section WithWorld.
Variable rt : Runtime.
Variable W : Type.
Variable sv : Services W.

Lemma fetchOpenLibraryCover_address (title : option jsstring)
  (author : jsstring) (st st' : State W) (url : jsstring) :
  Recommendations.fetchOpenLibraryCover sv title author st
  = (Ok (Some url), st') ->
  exists n, n <> 0%Z
            /\ url = str "https://covers.openlibrary.org/b/id/"
                     ++ numberToString n ++ str "-L.jpg".
Proof.
  unfold Recommendations.fetchOpenLibraryCover, tryCatch, bind, perform, ret.
  destruct (respond sv (OpenLibrarySearch title author) (world st))
    as [[docs|e] w1]; [|discriminate].
  destruct docs as [[|d docs]|]; try discriminate.
  destruct (find Recommendations.isTruthyCover (d :: docs)) as [found|] eqn:Ef;
    [|discriminate].
  apply find_some in Ef as [_ Ef]. unfold Recommendations.isTruthyCover in Ef.
  destruct (cover_i found) as [n|]; [|discriminate].
  intros [= <- _]. exists n. split; [|reflexivity].
  intros ->. discriminate.
Qed.

Lemma mapM_results {A B} (f : A -> M W B) (P : B -> Prop) (l : list A)
  (st st' : State W) (ys : list B) :
  (forall x s y s', In x l -> f x s = (Ok y, s') -> P y) ->
  mapM f l st = (Ok ys, st') -> Forall P ys.
Proof.
  intros Hf Hrun. apply mapM_Runs in Hrun. apply Forall_forall. intros y Hy.
  destruct (Runs_In W f l st st' ys y Hrun Hy) as (x & s & s' & Hx & E).
  now apply (Hf x s y s').
Qed.

(** ** The recommendations route *)

Lemma bookOfItem_book (item : Item) (st st' : State W)
  (b : Recommendations.CandidateBook) :
  Recommendations.bookOfItem rt sv item st = (Ok (Some b), st') ->
  (exists n, n <> 0%Z
             /\ Recommendations.coverUrl b
                = str "https://covers.openlibrary.org/b/id/"
                  ++ numberToString n ++ str "-L.jpg")
  /\ truthy (Recommendations.description b) = true
  /\ (length (splitWs (Recommendations.description b)) <= 151)%nat
  /\ Recommendations.forbiddenTitle rt (Recommendations.title b) = false
  /\ truthy (Recommendations.authors b) = true
  /\ Recommendations.googleBooksId b = item_id item
  /\ Recommendations.sourceGenreIds b = []
  /\ Recommendations.sourceGenreNames b = [].
Proof.
  unfold Recommendations.bookOfItem.
  destruct (volumeInfo item) as [vi|]; [|discriminate].
  unfold bind, Recommendations.fetchCoverWithLimit.
  destruct (Recommendations.fetchOpenLibraryCover sv _ _ st)
    as [[[coverUrl|]|e] st1] eqn:Ecover; try discriminate.
  destruct (vi_description vi) as [description|]; [|discriminate].
  destruct (truthy coverUrl) eqn:Hc; [|discriminate]. cbn [negb orb].
  destruct (truthy description) eqn:Hd; [|discriminate]. cbn [negb].
  destruct (Recommendations.forbiddenTitle _ _) eqn:Hf; [discriminate|].
  unfold ret. intros [= <- <-].
  cbn [Recommendations.coverUrl Recommendations.description
       Recommendations.title Recommendations.authors
       Recommendations.googleBooksId Recommendations.sourceGenreIds
       Recommendations.sourceGenreNames].
  repeat split.
  - now apply fetchOpenLibraryCover_address in Ecover.
  - now apply truncateDescription_truthy.
  - apply (truncateDescription_length description 150). lia.
  - exact Hf.
  - apply orUnknown_truthy.
Qed.

(** X24.  Every book that [fetchBooksFromGoogle] of the recommendations route
    returns has an Open Library cover address built from a non-zero cover
    id, a non-empty description of at most 151 words, a title without
    [annotated] or [illustrated], a non-empty author string, and no source
    genre yet. *)
Theorem fetched_candidates_are_presentable (query : jsstring) (maxResults : Z)
  (st st' : State W) (books : list Recommendations.CandidateBook) :
  Recommendations.fetchBooksFromGoogle rt sv query maxResults st
  = (Ok books, st') ->
  Forall (fun b =>
            (exists n, n <> 0%Z
                       /\ Recommendations.coverUrl b
                          = str "https://covers.openlibrary.org/b/id/"
                            ++ numberToString n ++ str "-L.jpg")
            /\ truthy (Recommendations.description b) = true
            /\ (length (splitWs (Recommendations.description b)) <= 151)%nat
            /\ Recommendations.forbiddenTitle rt (Recommendations.title b)
               = false
            /\ truthy (Recommendations.authors b) = true
            /\ Recommendations.sourceGenreIds b = []
            /\ Recommendations.sourceGenreNames b = [])
         books.
Proof.
  unfold Recommendations.fetchBooksFromGoogle. intros Hrun.
  apply bind_Ok in Hrun as (items & s1 & _ & Hrun).
  apply bind_Ok in Hrun as (results & s2 & Hmap & Hrun).
  unfold ret in Hrun. inversion Hrun; subst.
  apply Forall_forall. intros b Hb. apply filterSome_In in Hb.
  apply mapM_Runs in Hmap.
  destruct (Runs_In W _ _ _ _ _ _ Hmap Hb) as (item & s & s' & _ & E).
  apply bookOfItem_book in E.
  destruct E as (H1 & H2 & H3 & H4 & H5 & _ & H6 & H7).
  repeat split; assumption.
Qed.

(** ** The search route *)

Lemma search_truncate_same (text : jsstring) (n : nat) :
  truthy text = true ->
  Search.truncateDescription text n
  = Recommendations.truncateDescription text n.
Proof. destruct text; [discriminate | reflexivity]. Qed.

Lemma bookOfMetadata_book (genres : list GenreLite) (meta : Search.Metadata)
  (st st' : State W) (b : Search.SearchBook) :
  Search.bookOfMetadata rt sv genres meta st = (Ok (Some b), st') ->
  (exists n, n <> 0%Z
             /\ Search.coverUrl b
                = str "https://covers.openlibrary.org/b/id/"
                  ++ numberToString n ++ str "-L.jpg")
  /\ truthy (Search.description b) = true
  /\ (length (splitWs (Search.description b)) <= 151)%nat
  /\ Search.forbiddenTitle rt (Search.title b) = false
  /\ truthy (Search.authors b) = true
  /\ Search.id b = 0%Z
  /\ Search.sourceGenreIds b
     = map id (matchGenresFromCategories rt (Search.categories b) genres)
  /\ Search.sourceGenreNames b
     = map name (matchGenresFromCategories rt (Search.categories b) genres).
Proof.
  unfold Search.bookOfMetadata, bind, Search.fetchCoverWithLimit,
    Search.fetchOpenLibraryCover.
  destruct (Recommendations.fetchOpenLibraryCover sv _ _ st)
    as [[[coverUrl|]|e] st1] eqn:Ecover; try discriminate.
  destruct (truthy coverUrl) eqn:Hc; [|discriminate]. cbn [negb orb].
  destruct (truthy (Search.m_description meta)) eqn:Hd; [|discriminate].
  cbn [negb].
  destruct (Search.forbiddenTitle _ _) eqn:Hf; [discriminate|].
  destruct (Search.fetchGoogleVolumeCategoriesWithLimit sv _ st1)
    as [[cats|e] st2]; [|discriminate].
  unfold ret. cbv zeta. intros [= <- <-].
  cbn [Search.coverUrl Search.description Search.title Search.authors
       Search.id Search.sourceGenreIds Search.sourceGenreNames
       Search.categories].
  repeat split.
  - now apply fetchOpenLibraryCover_address in Ecover.
  - rewrite search_truncate_same by assumption.
    now apply truncateDescription_truthy.
  - rewrite search_truncate_same by assumption.
    apply (truncateDescription_length _ 150). lia.
  - exact Hf.
  - apply orUnknown_truthy.
Qed.

(** X25.  Every book that [fetchBooksFromGoogle] of the search route returns has
    an Open Library cover address built from a non-zero cover id, a
    non-empty description of at most 151 words, a title without [annotated]
    or [illustrated], a non-empty author string, the id 0, and as source
    genres the genres that the matcher finds for its categories. *)
Theorem found_books_are_presentable (query : jsstring) (maxResults : Z)
  (genres : list GenreLite) (st st' : State W)
  (books : list Search.SearchBook) :
  Search.fetchBooksFromGoogle rt sv query maxResults genres st
  = (Ok books, st') ->
  Forall (fun b =>
            (exists n, n <> 0%Z
                       /\ Search.coverUrl b
                          = str "https://covers.openlibrary.org/b/id/"
                            ++ numberToString n ++ str "-L.jpg")
            /\ truthy (Search.description b) = true
            /\ (length (splitWs (Search.description b)) <= 151)%nat
            /\ Search.forbiddenTitle rt (Search.title b) = false
            /\ truthy (Search.authors b) = true
            /\ Search.id b = 0%Z
            /\ Search.sourceGenreIds b
               = map id (matchGenresFromCategories rt (Search.categories b)
                           genres)
            /\ Search.sourceGenreNames b
               = map name (matchGenresFromCategories rt (Search.categories b)
                             genres))
         books.
Proof.
  unfold Search.fetchBooksFromGoogle, Search.fetchBooksWith. intros Hrun.
  apply bind_Ok in Hrun as (items & s1 & _ & Hrun).
  destruct items as [items|];
    [|unfold ret in Hrun; inversion Hrun; constructor].
  apply bind_Ok in Hrun as (results & s2 & Hmap & Hrun).
  unfold ret in Hrun. inversion Hrun; subst.
  apply Forall_forall. intros b Hb.
  apply dedupeAndSort_In, filterSome_In in Hb.
  apply mapM_Runs in Hmap.
  destruct (Runs_In W _ _ _ _ _ _ Hmap Hb) as (meta & s & s' & _ & E).
  now apply bookOfMetadata_book in E.
Qed.

(** X26.  When the lookup of a volume fails, a search result that has a cover, a
    description and an allowed title is kept all the same: its categories
    are those of the search result, its source genres are matched from
    them, and the failed call is the last one made for the book. *)
Theorem volume_lookup_falls_back (genres : list GenreLite)
  (meta : Search.Metadata) (st st1 : State W) (coverUrl : jsstring)
  (e : Error) (w2 : W) :
  Search.fetchCoverWithLimit sv (Some (Search.m_title meta))
    (Search.firstOrEmpty (Search.m_authorsList meta)) st
  = (Ok (Some coverUrl), st1) ->
  truthy (Search.m_description meta) = true ->
  Search.forbiddenTitle rt (Search.m_title meta) = false ->
  respond sv (GoogleVolume (Search.m_id meta)) (world st1) = (Throw e, w2) ->
  exists b,
    Search.bookOfMetadata rt sv genres meta st
    = (Ok (Some b),
       {| world := w2;
          trace := trace st1 ++ [Called (GoogleVolume (Search.m_id meta))] |})
    /\ Search.categories b = Search.m_categories meta
    /\ Search.sourceGenreIds b
       = map id (matchGenresFromCategories rt (Search.m_categories meta)
                   genres)
    /\ Search.sourceGenreNames b
       = map name (matchGenresFromCategories rt (Search.m_categories meta)
                     genres).
Proof.
  intros Hcover Hd Hf Hvol.
  assert (Hc : truthy coverUrl = true).
  { unfold Search.fetchCoverWithLimit, Search.fetchOpenLibraryCover in Hcover.
    apply fetchOpenLibraryCover_address in Hcover as (n & _ & ->).
    apply coverAddress_truthy. }
  unfold Search.bookOfMetadata. unfold bind at 1. rewrite Hcover, Hc, Hd, Hf.
  cbn [negb orb].
  unfold bind, Search.fetchGoogleVolumeCategoriesWithLimit,
    Search.fetchGoogleVolumeCategories, tryCatch, bind, perform.
  rewrite Hvol. unfold ret. cbn [length Nat.ltb Nat.leb].
  eexists. split; [reflexivity|]. repeat split.
Qed.

End WithWorld.

(** X24, witness: of six volumes the illustrated edition and the one without
    description are dropped. *)
Lemma fetched_candidates_are_presentable_witness :
  map Recommendations.googleBooksId (Library.valueOf [] Library.fetched)
  = [str "A"; str "C"; str "E"; str "F"]
  /\ Forall (fun b =>
               (exists n, n <> 0%Z
                          /\ Recommendations.coverUrl b
                             = str "https://covers.openlibrary.org/b/id/"
                               ++ numberToString n ++ str "-L.jpg")
               /\ truthy (Recommendations.description b) = true
               /\ (length (splitWs (Recommendations.description b)) <= 151)%nat
               /\ Recommendations.forbiddenTitle Demo.asciiRuntime
                    (Recommendations.title b) = false
               /\ truthy (Recommendations.authors b) = true
               /\ Recommendations.sourceGenreIds b = []
               /\ Recommendations.sourceGenreNames b = [])
            (Library.valueOf [] Library.fetched).
Proof.
  split; [reflexivity|].
  exact (fetched_candidates_are_presentable Demo.asciiRuntime unit
           Library.library (str "subject:Fiction") 40 Demo.start
           (snd Library.fetched) (Library.valueOf [] Library.fetched) eq_refl).
Defined.

(** X25, witness: the same volumes through the search route, with their matched
    genres. *)
Lemma found_books_are_presentable_witness :
  map (fun b => (Search.googleBooksId b, Search.sourceGenreIds b))
      (Library.valueOf [] Library.searched)
  = [(str "C", [1%Z]); (str "A", [2%Z]); (str "E", [1%Z]); (str "F", [2%Z])]
  /\ Forall (fun b =>
               (exists n, n <> 0%Z
                          /\ Search.coverUrl b
                             = str "https://covers.openlibrary.org/b/id/"
                               ++ numberToString n ++ str "-L.jpg")
               /\ truthy (Search.description b) = true
               /\ (length (splitWs (Search.description b)) <= 151)%nat
               /\ Search.forbiddenTitle Demo.asciiRuntime (Search.title b)
                  = false
               /\ truthy (Search.authors b) = true
               /\ Search.id b = 0%Z
               /\ Search.sourceGenreIds b
                  = map id (matchGenresFromCategories Demo.asciiRuntime
                              (Search.categories b)
                              [Demo.fiction; Demo.scienceFiction])
               /\ Search.sourceGenreNames b
                  = map name (matchGenresFromCategories Demo.asciiRuntime
                                (Search.categories b)
                                [Demo.fiction; Demo.scienceFiction]))
            (Library.valueOf [] Library.searched).
Proof.
  split; [reflexivity|].
  exact (found_books_are_presentable Demo.asciiRuntime unit
           Library.noVolumes (str "dune") 20
           [Demo.fiction; Demo.scienceFiction] Demo.start
           (snd Library.searched) (Library.valueOf [] Library.searched)
           eq_refl).
Defined.

(** X26, witness: the volume endpoint answers 503; the categories of the search
    result are used. *)
Lemma volume_lookup_falls_back_witness :
  exists b,
    Search.bookOfMetadata Demo.asciiRuntime Library.noVolumes
      [Demo.fiction; Demo.scienceFiction] Library.duneMetadata Demo.start
    = (Ok (Some b),
       {| world := tt;
          trace := [Called (OpenLibrarySearch (Some (str "Dune"))
                              (str "Frank Herbert"));
                    Called (GoogleVolume (str "A"))] |})
    /\ Search.categories b = [str "Fiction / Science Fiction"]
    /\ Search.sourceGenreIds b
       = map id (matchGenresFromCategories Demo.asciiRuntime
                   [str "Fiction / Science Fiction"]
                   [Demo.fiction; Demo.scienceFiction])
    /\ Search.sourceGenreNames b
       = map name (matchGenresFromCategories Demo.asciiRuntime
                     [str "Fiction / Science Fiction"]
                     [Demo.fiction; Demo.scienceFiction]).
Proof.
  exact (volume_lookup_falls_back Demo.asciiRuntime unit Library.noVolumes
           [Demo.fiction; Demo.scienceFiction] Library.duneMetadata
           Demo.start
           {| world := tt;
              trace := [Called (OpenLibrarySearch (Some (str "Dune"))
                                  (str "Frank Herbert"))] |}
           (str "https://covers.openlibrary.org/b/id/42-L.jpg")
           {| responseStatus := Some 503%Z;
              message := str "Service Unavailable" |}
           tt eq_refl eq_refl eq_refl eq_refl).
Defined.

End FetchFacts.

(* ================================================================== *)
(** * Deduplication of the search results *)
(* ================================================================== *)

Module DedupFacts.
Import JSFacts SortFacts Effects EffectsFacts CoverFacts SearchFacts Search.
Import MatcherFacts AggregationFacts.

(** A sorted array is sorted into itself. *)
Lemma sort_sorted_same {A} (cmp : A -> A -> Q) (l : list A) :
  StronglySorted (notAfter cmp) l -> sort cmp l = l.
Proof.
  induction 1 as [|x l Hl IH Hx]; [reflexivity|].
  cbn [sort]. rewrite IH. destruct l as [|y l]; [reflexivity|].
  cbn [insert]. inversion Hx as [|? ? Hxy _]; subst.
  unfold notAfter in Hxy. apply Qle_bool_iff in Hxy. now rewrite Hxy.
Qed.

Section WithRuntime.
Variable rt : Runtime.

(** The entry the loop holds for a key: the one it had, or else the first
    book with that key. *)
Lemma uniqueBooksMap_get (l : list SearchBook) : forall m k,
  Map_get (fold_left (fun m book =>
                        if Map_has m (dedupKey rt book) then m
                        else Map_set m (dedupKey rt book) book) l m) k
  = match Map_get m k with
    | Some b => Some b
    | None => find (fun x => streqb k (dedupKey rt x)) l
    end.
Proof.
  induction l as [|x l IH]; intros m k; cbn [fold_left find].
  - now destruct (Map_get m k).
  - rewrite IH. unfold Map_has.
    destruct (Map_get m (dedupKey rt x)) as [b0|] eqn:Ex.
    + destruct (Map_get m k) as [b|] eqn:Ek; [reflexivity|].
      destruct (streqb k (dedupKey rt x)) eqn:E; [|reflexivity].
      apply streqb_eq in E. subst k. congruence.
    + rewrite Map_get_set.
      change (sameValue k (dedupKey rt x)) with (streqb k (dedupKey rt x)).
      destruct (streqb k (dedupKey rt x)) eqn:E.
      * apply streqb_eq in E. subst k. now rewrite Ex.
      * now destruct (Map_get m k).
Qed.

Lemma uniqueBooksMap_entries (filteredBooks : list SearchBook) (k : jsstring)
  (b : SearchBook) :
  In (k, b) (uniqueBooksMap rt filteredBooks) -> k = dedupKey rt b.
Proof.
  destruct (uniqueBooksMap_keys rt filteredBooks) as [_ E].
  revert E. generalize (uniqueBooksMap rt filteredBooks).
  induction l as [|[k0 b0] l IH]; intros E Hin; [destruct Hin|].
  cbn in E. inversion E as [[E0 E1]]. destruct Hin as [H|H].
  - inversion H; subst. reflexivity.
  - now apply IH.
Qed.

(** With keys that are all different every book is kept, in order. *)
Lemma uniqueBooksMap_distinct (l : list SearchBook) : forall m,
  NoDup (Map_keys m ++ map (dedupKey rt) l) ->
  fold_left (fun m book =>
               if Map_has m (dedupKey rt book) then m
               else Map_set m (dedupKey rt book) book) l m
  = m ++ map (fun b => (dedupKey rt b, b)) l.
Proof.
  induction l as [|x l IH]; intros m Hnd; cbn [fold_left map].
  - now rewrite app_nil_r.
  - assert (Hx : ~ In (dedupKey rt x) (Map_keys m)).
    { cbn [map] in Hnd. apply NoDup_remove_2 in Hnd.
      intros H. apply Hnd. apply in_or_app. now left. }
    unfold Map_has. rewrite (proj2 (Map_get_None _ _) Hx).
    rewrite (Map_set_fresh _ _ _ Hx), IH.
    + now rewrite <- app_assoc.
    + unfold Map_keys in *. rewrite map_app. cbn [map fst].
      rewrite <- app_assoc. exact Hnd.
Qed.

(** X27.  Of the books with the same lower-cased title and authors the search
    route keeps the first one: every book returned is the first book of its
    key in the input, every input book has its key among the books
    returned, nothing is invented, and an input without repeated keys is
    only reordered. *)
Theorem dedupe_keeps_first (filteredBooks : list SearchBook) :
  let books := dedupeAndSort rt filteredBooks in
  Forall (fun b =>
            find (fun x => streqb (dedupKey rt b) (dedupKey rt x))
                 filteredBooks = Some b)
         books
  /\ Forall (fun x => exists b, In b books /\ dedupKey rt b = dedupKey rt x)
            filteredBooks
  /\ incl books filteredBooks
  /\ (length books <= length filteredBooks)%nat
  /\ (NoDup (map (dedupKey rt) filteredBooks) ->
      Permutation books filteredBooks).
Proof.
  cbv zeta. unfold dedupeAndSort.
  set (M := uniqueBooksMap rt filteredBooks).
  assert (Hperm : Permutation (sort (byTitleThenAuthors rt) (Map_values M))
                    (Map_values M)) by apply sort_perm.
  assert (Hget : forall k, Map_get M k
                           = find (fun x => streqb k (dedupKey rt x))
                                  filteredBooks).
  { intros k. unfold M, uniqueBooksMap. now rewrite uniqueBooksMap_get. }
  destruct (uniqueBooksMap_keys rt filteredBooks) as [Hnd Hkeys].
  fold M in Hnd, Hkeys.
  assert (Hincl : incl (Map_values M) filteredBooks).
  { intros b Hb. now apply (uniqueBooksMap_In rt). }
  split; [|split; [|split; [|split]]].
  - apply Forall_forall. intros b Hb.
    apply (Permutation_in _ Hperm) in Hb.
    apply in_map_iff in Hb as ([k b'] & E & Hin). cbn in E. subst b'.
    rewrite <- Hget.
    rewrite <- (uniqueBooksMap_entries filteredBooks k b Hin).
    now apply Map_get_In.
  - apply Forall_forall. intros x Hx.
    destruct (find (fun y => streqb (dedupKey rt x) (dedupKey rt y))
                   filteredBooks) as [b|] eqn:Ef.
    + pose proof Ef as Ef'. apply find_some in Ef' as [_ Ekey].
      apply streqb_eq in Ekey. rewrite <- Hget in Ef.
      apply Map_get_Some_In in Ef. exists b. split; [|now symmetry].
      apply (Permutation_in _ (Permutation_sym Hperm)).
      apply in_map_iff. now exists (dedupKey rt x, b).
    + apply (find_none _ _ Ef) in Hx.
      assert (streqb (dedupKey rt x) (dedupKey rt x) = true)
        by now apply streqb_eq.
      congruence.
  - intros b Hb. apply Hincl. now apply (Permutation_in _ Hperm).
  - rewrite (Permutation_length Hperm).
    unfold Map_values. rewrite length_map.
    rewrite <- (length_map fst M), <- (length_map (dedupKey rt) filteredBooks).
    apply NoDup_incl_length; [exact Hnd|].
    fold (Map_keys M). rewrite <- Hkeys. intros k Hk.
    apply in_map_iff in Hk as (b & <- & Hb). apply in_map. now apply Hincl.
  - intros Hdistinct. rewrite Hperm. unfold M, uniqueBooksMap.
    rewrite (uniqueBooksMap_distinct filteredBooks []) by exact Hdistinct.
    cbn [app]. unfold Map_values. rewrite map_map. cbn [snd].
    now rewrite map_id.
Qed.

(** What [sort] asks of [localeCompare]: a consistent comparator. *)
Hypothesis localeCompare_flip : forall s t,
  (0 < localeCompare rt s t <-> localeCompare rt t s < 0)%Z.
Hypothesis localeCompare_trans : forall s t u,
  (localeCompare rt s t <= 0 -> localeCompare rt t u <= 0 ->
   localeCompare rt s u <= 0)%Z.

(** X28.  When [localeCompare] is an order (antisymmetric and transitive),
    deduplicating and sorting the list of books a second time changes
    nothing. *)
Theorem dedupeAndSort_idempotent (filteredBooks : list SearchBook) :
  dedupeAndSort rt (dedupeAndSort rt filteredBooks)
  = dedupeAndSort rt filteredBooks.
Proof.
  pose proof (dedupeAndSort_keys rt filteredBooks) as Hkeys.
  pose proof (dedupeAndSort_sorted rt localeCompare_flip localeCompare_trans
                filteredBooks) as Hsorted.
  set (books := dedupeAndSort rt filteredBooks) in *.
  unfold dedupeAndSort at 1, uniqueBooksMap.
  rewrite (uniqueBooksMap_distinct books []) by exact Hkeys.
  cbn [app]. unfold Map_values. rewrite map_map. cbn [snd]. rewrite map_id.
  now apply sort_sorted_same.
Qed.

End WithRuntime.

(** X28, witness: three found books, two of them under one key. *)
Lemma dedupeAndSort_idempotent_witness :
  map googleBooksId (dedupeAndSort Demo.asciiRuntime Demo.foundBooks)
  = [str "C"; str "A"]
  /\ dedupeAndSort Demo.asciiRuntime
       (dedupeAndSort Demo.asciiRuntime Demo.foundBooks)
     = dedupeAndSort Demo.asciiRuntime Demo.foundBooks.
Proof.
  split; [reflexivity|].
  exact (dedupeAndSort_idempotent Demo.asciiRuntime compareUnits_flip
           compareUnits_trans Demo.foundBooks).
Defined.

End DedupFacts.

(* ================================================================== *)
(** * The round-robin selection *)
(* ================================================================== *)

Module RotationFacts.
Import JSFacts Effects EffectsFacts Recommendations RoundRobin RoundRobinFacts.
Import MatcherFacts AggregationFacts GenreMatch Notions.

(** ** Taking a genre out of the rotation *)

Lemma removeAt_In {A} (l : list A) : forall i x,
  In x (removeAt i l) -> In x l.
Proof.
  induction l as [|y l IH]; intros i x; [destruct i; intros []|].
  destruct i as [|i]; cbn [removeAt].
  - intros H. now right.
  - intros [<-|H]; [now left | right; now apply (IH i)].
Qed.

Lemma removeAt_NoDup {A} (l : list A) : forall i x,
  NoDup l -> nth_error l i = Some x ->
  NoDup (removeAt i l) /\ ~ In x (removeAt i l).
Proof.
  induction l as [|y l IH]; intros i x Hnd Hn; [destruct i; discriminate|].
  inversion Hnd as [|? ? Hy Hl]; subst.
  destruct i as [|i]; cbn [removeAt nth_error] in *.
  - inversion Hn; subst. now split.
  - destruct (IH i x Hl Hn) as [Hnd' Hx]. split.
    + constructor; [|exact Hnd']. intros H. apply Hy.
      now apply (removeAt_In l i).
    + intros [->|H]; [|contradiction].
      apply Hy. now apply (nth_error_In l i).
Qed.

Section Pools.
Variable pools : list (Z * list CandidateBook).

Lemma available_cons (gid : Z) (ids : list Z) :
  available pools (gid :: ids)
  = (match Map_get pools gid with
     | Some pool => length pool
     | None => 0
     end + available pools ids)%nat.
Proof. reflexivity. Qed.

Lemma available_removeAt (ids : list Z) : forall i cur pool,
  nth_error ids i = Some cur -> Map_get pools cur = Some pool ->
  available pools ids = (length pool + available pools (removeAt i ids))%nat.
Proof.
  induction ids as [|gid ids IH]; intros i cur pool Hn Hp;
    [destruct i; discriminate|].
  destruct i as [|i]; cbn [removeAt nth_error] in *.
  - inversion Hn; subst. now rewrite available_cons, Hp.
  - rewrite !available_cons, (IH i cur pool Hn Hp). lia.
Qed.

Lemma available_set_other (ids : list Z) (cur : Z)
  (pool' : list CandidateBook) :
  ~ In cur ids ->
  available (Map_set pools cur pool') ids = available pools ids.
Proof.
  unfold available. intros Hcur. f_equal. apply map_ext_in.
  intros gid Hgid. rewrite Map_get_set.
  destruct (sameValue gid cur) eqn:E; [|reflexivity].
  apply sameValue_spec in E. subst. contradiction.
Qed.

End Pools.

Lemma available_nil (pools : list (Z * list CandidateBook)) :
  available pools [] = 0%nat.
Proof. reflexivity. Qed.

Lemma drawnFrom_step (final final' : list CandidateBook)
  (pools : list (Z * list CandidateBook)) (cur : Z)
  (pool pool' : list CandidateBook) (ids ids' : list Z)
  (res : list CandidateBook) :
  In cur ids -> Map_get pools cur = Some pool ->
  incl pool' pool -> incl ids' ids ->
  (forall b, In b final' -> In b final \/ In b pool) ->
  drawnFrom final' (Map_set pools cur pool') ids' res ->
  drawnFrom final pools ids res.
Proof.
  intros Hcur Hpool Hsub Hids Hfinal Hres b Hb.
  destruct (Hres b Hb) as [H|(gid & p & Hgid & Hp & Hin)].
  - destruct (Hfinal b H) as [H'|H']; [now left|].
    right. now exists cur, pool.
  - right. rewrite Map_get_set in Hp.
    destruct (sameValue gid cur) eqn:E.
    + inversion Hp; subst. exists cur, pool.
      repeat split; [assumption | assumption | now apply Hsub].
    + exists gid, p. repeat split; [now apply Hids | assumption | assumption].
Qed.

Lemma pools_after_set (pools : list (Z * list CandidateBook)) (cur : Z)
  (pool' : list CandidateBook) (ids ids' : list Z) :
  incl ids' ids ->
  (forall gid, In gid ids -> Map_get pools gid <> None) ->
  forall gid, In gid ids' -> Map_get (Map_set pools cur pool') gid <> None.
Proof.
  intros Hids Hkeys gid Hgid. rewrite Map_get_set.
  destruct (sameValue gid cur); [discriminate|]. now apply Hkeys, Hids.
Qed.

(** The loop, from any of its states. *)
Lemma rotate_spec (fuel : nat) : forall final ids i pools,
  NoDup ids ->
  (forall gid, In gid ids -> Map_get pools gid <> None) ->
  ((i < length ids)%nat \/ ids = []) ->
  (turnsLeft final ids <= fuel)%nat ->
  (length final <= 20)%nat ->
  exists res,
    rotate fuel final ids i pools = Some res
    /\ length res = Nat.min 20 (length final + available pools ids)
    /\ drawnFrom final pools ids res.
Proof.
  unfold turnsLeft.
  induction fuel as [|fuel IH]; intros final ids i pools Hnd Hkeys Hi Hfuel Hlen.
  - exists final. cbn [rotate]. repeat split; [lia | intros b Hb; now left].
  - cbn [rotate].
    destruct ((length final <? 20)%nat && (0 <? length ids)%nat) eqn:Hc.
    + apply andb_true_iff in Hc as [Hf Hg]. apply Nat.ltb_lt in Hf, Hg.
      destruct Hi as [Hi| ->]; [|cbn in Hg; lia].
      destruct (nth_error ids i) as [cur|] eqn:Hn;
        [|apply nth_error_None in Hn; lia].
      assert (Hcur : In cur ids) by now apply (nth_error_In ids i).
      destruct (Map_get pools cur) as [pool|] eqn:Hp;
        [|now destruct (Hkeys cur Hcur)].
      destruct (removeAt_NoDup ids i cur Hnd Hn) as [Hnd' Hout].
      pose proof (removeAt_length ids i Hi) as Hlen'.
      pose proof (available_removeAt pools ids i cur pool Hn Hp) as Hav.
      assert (Hsub : incl (removeAt i ids) ids)
        by (intros g; apply removeAt_In).
      destruct pool as [|x [|y rest]]; cbn [tl].
      * (* the pool was empty already *)
        destruct (removeAt i ids) as [|g ids'] eqn:Hr.
        -- exists final. repeat split.
           ++ rewrite Hav. cbn [length]. rewrite available_nil. lia.
           ++ intros b Hb. now left.
        -- destruct (IH final (g :: ids') (i mod length (g :: ids'))%nat
                       (Map_set pools cur []))
             as (res & Hrun & Hres & Hdrawn); try assumption.
           ++ now apply (pools_after_set pools cur [] ids).
           ++ left. apply Nat.mod_upper_bound. discriminate.
           ++ cbn [length] in *. lia.
           ++ exists res. split; [exact Hrun|]. split.
              ** rewrite Hres, Hav, available_set_other by assumption.
                 reflexivity.
              ** apply (drawnFrom_step final final pools cur [] [] ids
                          (g :: ids')); try assumption.
                 --- intros b [].
                 --- intros b Hb. now left.
      * (* the last book of the pool *)
        destruct (removeAt i ids) as [|g ids'] eqn:Hr.
        -- exists (final ++ [x]). repeat split.
           ++ rewrite length_app, Hav. cbn [length].
              rewrite available_nil. lia.
           ++ intros b Hb. apply in_app_iff in Hb as [Hb|[<-|[]]];
                [now left|].
              right. exists cur, [x]. repeat split; [assumption.. | now left].
        -- destruct (IH (final ++ [x]) (g :: ids')
                       (i mod length (g :: ids'))%nat (Map_set pools cur []))
             as (res & Hrun & Hres & Hdrawn); try assumption.
           ++ now apply (pools_after_set pools cur [] ids).
           ++ left. apply Nat.mod_upper_bound. discriminate.
           ++ rewrite length_app. cbn [length] in *. lia.
           ++ rewrite length_app. cbn [length]. lia.
           ++ exists res. split; [exact Hrun|]. split.
              ** rewrite Hres, Hav, available_set_other by assumption.
                 rewrite length_app. cbn [length]. f_equal. lia.
              ** apply (drawnFrom_step final (final ++ [x]) pools cur [x] []
                          ids (g :: ids')); try assumption.
                 --- intros b [].
                 --- intros b Hb. apply in_app_iff in Hb as [Hb|[<-|[]]];
                       [now left | right; now left].
      * (* the pool holds more *)
        destruct (IH (final ++ [x]) ids ((i + 1) mod length ids)%nat
                    (Map_set pools cur (y :: rest)))
          as (res & Hrun & Hres & Hdrawn); try assumption.
        -- now apply (pools_after_set pools cur (y :: rest) ids).
        -- left. apply Nat.mod_upper_bound. lia.
        -- rewrite length_app. cbn [length]. lia.
        -- rewrite length_app. cbn [length]. lia.
        -- exists res. split; [exact Hrun|]. split.
           ++ rewrite Hres.
              rewrite (available_removeAt (Map_set pools cur (y :: rest))
                         ids i cur (y :: rest) Hn)
                by (rewrite Map_get_set; now rewrite sameValue_refl).
              rewrite available_set_other, Hav by assumption.
              rewrite length_app. cbn [length]. f_equal. lia.
           ++ apply (drawnFrom_step final (final ++ [x]) pools cur
                       (x :: y :: rest) (y :: rest) ids ids);
                try assumption.
              ** intros b Hb. now right.
              ** intros g0 Hg0. exact Hg0.
              ** intros b Hb. apply in_app_iff in Hb as [Hb|[<-|[]]];
                   [now left | right; now left].
    + exists final. apply andb_false_iff in Hc. repeat split.
      * destruct Hc as [Hc|Hc].
        -- apply Nat.ltb_ge in Hc. lia.
        -- apply Nat.ltb_ge in Hc. destruct ids; [|cbn in Hc; lia].
           rewrite available_nil. lia.
      * intros b Hb. now left.
Qed.

(** X29.  The round-robin loop ends.  Started on distinct genre ids that all
    have a pool, at an index inside the list, it returns as many books as
    the pools hold, and 20 when they hold more; every book returned comes
    from the pool of a genre in the rotation. *)
Theorem rotation_fills (genreIds : list Z) (genreIndex : nat)
  (genreBookPool : list (Z * list CandidateBook)) :
  NoDup genreIds ->
  (forall gid, In gid genreIds -> Map_get genreBookPool gid <> None) ->
  (genreIndex < length genreIds)%nat ->
  exists final,
    rotate (20 + length genreIds) [] genreIds genreIndex genreBookPool
    = Some final
    /\ length final = Nat.min 20 (available genreBookPool genreIds)
    /\ (forall b, In b final ->
          exists gid pool, In gid genreIds
                           /\ Map_get genreBookPool gid = Some pool
                           /\ In b pool)
    /\ forall extra,
         rotate (20 + length genreIds + extra) [] genreIds genreIndex
           genreBookPool
         = Some final.
Proof.
  intros Hnd Hkeys Hi.
  destruct (rotate_spec (20 + length genreIds) [] genreIds genreIndex
              genreBookPool Hnd Hkeys (or_introl Hi))
    as (final & Hrun & Hlen & Hdrawn);
    [unfold turnsLeft; cbn [length]; lia | cbn [length]; lia |].
  exists final. split; [exact Hrun|]. split; [exact Hlen|]. split.
  - intros b Hb. destruct (Hdrawn b Hb) as [[]|H]. exact H.
  - intros extra. rewrite rotate_fuel; [exact Hrun|].
    unfold turnsLeft. cbn [length]. lia.
Qed.

Section WithWorld.
Variable rt : Runtime.
Variable W : Type.
Variable sv : Services W.

(** ** Filling the pools *)

Lemma keepUnseen_NoDup (userId : Z) (filtered : list CandidateBook)
  (book : CandidateBook) (st st' : State W) (filtered' : list CandidateBook) :
  NoDup (map googleBooksId filtered) ->
  keepUnseen sv userId filtered book st = (Ok filtered', st') ->
  NoDup (map googleBooksId filtered').
Proof.
  intros Hnd. unfold keepUnseen.
  destruct (existsb _ filtered) eqn:Eseen.
  - unfold ret. intros E. now inversion E; subst.
  - assert (Hfresh : NoDup (map googleBooksId (filtered ++ [book]))).
    { rewrite map_app. apply NoDup_app; [assumption | repeat constructor; intros [] |].
      intros gid Hgid [<-|[]].
      apply in_map_iff in Hgid as (b & Eb & Hb).
      assert (H : existsb (fun b0 => streqb (googleBooksId b0)
                                       (googleBooksId book)) filtered = true).
      { apply existsb_exists. exists b. split; [assumption|].
        now apply streqb_eq. }
      congruence. }
    intros E. apply bind_Ok in E as (bookRecord & s1 & _ & E).
    destruct bookRecord as [bookRecord|].
    + apply bind_Ok in E as (already & s2 & _ & E).
      destruct already; unfold ret in E; inversion E; subst; assumption.
    + unfold ret in E. inversion E; subst. assumption.
Qed.

(** One turn of the loop over the preferred genres. *)
Lemma fillPools_turn (userId : Z) (ug : UserGenre)
  (pools pools' : list (Z * list CandidateBook)) (st st' : State W) :
  bind (fetchBooksFromGoogle rt sv (str "subject:" ++ name (genre ug)) 40)
    (fun rawBooks =>
       bind (foldM (keepUnseen sv userId) rawBooks [])
         (fun filtered => ret (Map_set pools (id (genre ug)) filtered)))
    st = (Ok pools', st') ->
  exists filtered,
    pools' = Map_set pools (id (genre ug)) filtered
    /\ NoDup (map googleBooksId filtered).
Proof.
  intros E. apply bind_Ok in E as (rawBooks & s1 & _ & E).
  apply bind_Ok in E as (filtered & s2 & Hfold & E).
  unfold ret in E. inversion E; subst. exists filtered. split; [reflexivity|].
  revert Hfold.
  apply (foldM_invariant W (fun l => NoDup (map googleBooksId l))).
  - intros b book s b' s' _ Hb Hk. now apply (keepUnseen_NoDup userId b book s s').
  - constructor.
Qed.

Lemma fillPools_keys (userId : Z) (userGenres : list UserGenre) :
  forall pools st pools' st',
  foldM (fun genreBookPool ug =>
           bind (fetchBooksFromGoogle rt sv
                   (str "subject:" ++ name (genre ug)) 40)
             (fun rawBooks =>
                bind (foldM (keepUnseen sv userId) rawBooks [])
                  (fun filtered =>
                     ret (Map_set genreBookPool (id (genre ug)) filtered))))
        userGenres pools st = (Ok pools', st') ->
  (forall k, Map_get pools k <> None -> Map_get pools' k <> None)
  /\ forall ug, In ug userGenres -> Map_get pools' (id (genre ug)) <> None.
Proof.
  induction userGenres as [|ug ugs IH]; intros pools st pools' st';
    cbn [foldM].
  - unfold ret. intros E. inversion E; subst. split; [tauto | intros ug []].
  - intros E. apply bind_Ok in E as (pools1 & s1 & Hturn & E).
    apply fillPools_turn in Hturn as (filtered & -> & _).
    destruct (IH _ _ _ _ E) as [Hkeep Hall]. split.
    + intros k Hk. apply Hkeep. rewrite Map_get_set.
      now destruct (sameValue k (id (genre ug))).
    + intros ug' [<-|Hug]; [|now apply Hall].
      apply Hkeep. rewrite Map_get_set, sameValue_refl. discriminate.
Qed.

(** X30.  When the pools have been filled, every preferred genre has a pool,
    every pool belongs to a preferred genre, and no pool holds two books
    with the same Google Books id. *)
Theorem pools_hold_each_book_once (userId : Z) (userGenres : list UserGenre)
  (st st' : State W) (genreBookPool : list (Z * list CandidateBook)) :
  fillPools rt sv userId userGenres st = (Ok genreBookPool, st') ->
  (forall ug, In ug userGenres ->
              Map_get genreBookPool (id (genre ug)) <> None)
  /\ NoDup (Map_keys genreBookPool)
  /\ forall gid pool, In (gid, pool) genreBookPool ->
       NoDup (map googleBooksId pool)
       /\ exists ug, In ug userGenres /\ id (genre ug) = gid.
Proof.
  unfold fillPools. intros Hrun. split; [|split].
  - now apply (fillPools_keys userId userGenres [] st genreBookPool st').
  - revert Hrun.
    apply (foldM_invariant W (fun m => NoDup (Map_keys m))); [|constructor].
    intros b ug s b' s' _ Hb Hturn.
    apply fillPools_turn in Hturn as (filtered & -> & _).
    now apply Map_set_keys_NoDup.
  - revert Hrun.
    apply (foldM_invariant W
             (fun m => forall gid pool, In (gid, pool) m ->
                NoDup (map googleBooksId pool)
                /\ exists ug, In ug userGenres /\ id (genre ug) = gid));
      [|intros gid pool []].
    intros b ug s b' s' Hug Hb Hturn gid pool Hin.
    apply fillPools_turn in Hturn as (filtered & -> & Hnd).
    apply Map_set_In in Hin as [E|Hin]; [|now apply Hb].
    inversion E; subst. split; [exact Hnd | now exists ug].
Qed.

End WithWorld.

(** X29, witness: two pools of four books each; the rotation returns all eight. *)
Lemma rotation_fills_witness :
  available (Library.valueOf [] Library.pooled) [1%Z; 2%Z] = 8%nat
  /\ exists final,
       rotate (20 + length [1%Z; 2%Z]) [] [1%Z; 2%Z] 1
         (Library.valueOf [] Library.pooled)
       = Some final
       /\ length final
          = Nat.min 20 (available (Library.valueOf [] Library.pooled)
                          [1%Z; 2%Z])
       /\ (forall b, In b final ->
             exists gid pool,
               In gid [1%Z; 2%Z]
               /\ Map_get (Library.valueOf [] Library.pooled) gid = Some pool
               /\ In b pool)
       /\ forall extra,
            rotate (20 + length [1%Z; 2%Z] + extra) [] [1%Z; 2%Z] 1
              (Library.valueOf [] Library.pooled)
            = Some final.
Proof.
  split; [vm_compute; reflexivity|].
  assert (Hnd : NoDup [1%Z; 2%Z]).
  { repeat constructor; simpl; intuition discriminate. }
  assert (Hkeys : forall gid, In gid [1%Z; 2%Z] ->
                    Map_get (Library.valueOf [] Library.pooled) gid <> None).
  { intros gid [<-|[<-|[]]]; vm_compute; discriminate. }
  assert (Hi : (1 < length [1%Z; 2%Z])%nat) by (cbn; lia).
  exact (rotation_fills [1%Z; 2%Z] 1 (Library.valueOf [] Library.pooled)
           Hnd Hkeys Hi).
Defined.

(** X30, witness: the pools of the two preferred genres, four books each. *)
Lemma pools_hold_each_book_once_witness :
  map (fun e => (fst e, map googleBooksId (snd e)))
      (Library.valueOf [] Library.pooled)
  = [(1%Z, [str "A"; str "C"; str "E"; str "F"]);
     (2%Z, [str "A"; str "C"; str "E"; str "F"])]
  /\ (forall ug, In ug Library.preferred ->
        Map_get (Library.valueOf [] Library.pooled) (id (genre ug)) <> None)
  /\ NoDup (Map_keys (Library.valueOf [] Library.pooled))
  /\ forall gid pool, In (gid, pool) (Library.valueOf [] Library.pooled) ->
       NoDup (map googleBooksId pool)
       /\ exists ug, In ug Library.preferred /\ id (genre ug) = gid.
Proof.
  split; [vm_compute; reflexivity|].
  exact (pools_hold_each_book_once Demo.asciiRuntime unit Library.library 7
           Library.preferred Demo.start (snd Library.pooled)
           (Library.valueOf [] Library.pooled)
           ltac:(vm_compute; reflexivity)).
Defined.

End RotationFacts.
